(** * The price-tag backend: amount extraction, conversion and the OCR queue

    A shallow embedding of [backend/src/index.js]:
    - JavaScript strings are lists of UTF-16 code units;
    - JavaScript numbers are IEEE-754 binary64 values, carried as exact
      integers on the grid of the smallest subnormal;
    - the promise-based worker singleton and recognition queue are a
      transition system over the macrotasks of the event loop. *)

From Stdlib Require Import String Ascii.
From Stdlib Require Import ZArith NArith List Bool Lia.
From Stdlib Require Import Sorted Permutation.
Import ListNotations.

Local Open Scope N_scope.

(** ** JavaScript strings *)

Module JsString.

(** A string value is a finite sequence of 16-bit code units. *)
Definition code_unit := N.
Definition jsstring := list code_unit.

(** An ASCII literal of the source, as code units. *)
Definition lit (s : string) : jsstring :=
  map N_of_ascii (list_ascii_of_string s).

Definition ch_dot : code_unit := 46.
Definition ch_comma : code_unit := 44.
Definition ch_zero : code_unit := 48.

(** The class [[0-9]] of the regular expressions (also [\d]). *)
Definition isDigit (c : code_unit) : bool := (48 <=? c) && (c <=? 57).

(** WhiteSpace and LineTerminator of ECMAScript: what [\s] matches and
    what [String.prototype.trim] removes. *)
Definition isWhiteSpace (c : code_unit) : bool :=
  ((9 <=? c) && (c <=? 13)) || (c =? 32) || (c =? 160) || (c =? 5760)
  || ((8192 <=? c) && (c <=? 8202)) || (c =? 8232) || (c =? 8233)
  || (c =? 8239) || (c =? 8287) || (c =? 12288) || (c =? 65279).

(** The class [[0-9.,]]. *)
Definition isNumChar (c : code_unit) : bool :=
  isDigit c || (c =? ch_dot) || (c =? ch_comma).

Fixpoint dropWhile (p : code_unit -> bool) (t : jsstring) : jsstring :=
  match t with
  | [] => []
  | c :: r => if p c then dropWhile p r else t
  end.

(** [t.trim()] *)
Definition trim (t : jsstring) : jsstring :=
  rev (dropWhile isWhiteSpace (rev (dropWhile isWhiteSpace t))).

(** [t.replace(/C/g, e)] for a one-character class [C] and the empty
    string [e]. *)
Definition removeAll (p : code_unit -> bool) (t : jsstring) : jsstring :=
  filter (fun c => negb (p c)) t.

(** [t.replace(/,/g, ".")] *)
Definition replaceAll (a b : code_unit) (t : jsstring) : jsstring :=
  map (fun c => if c =? a then b else c) t.

(** [t.includes(c)] for a one-character needle. *)
Definition includes (c : code_unit) (t : jsstring) : bool :=
  existsb (N.eqb c) t.

Fixpoint lastIndexOf_from (c : code_unit) (t : jsstring) (i acc : Z) : Z :=
  match t with
  | [] => acc
  | x :: r => lastIndexOf_from c r (i + 1)%Z (if x =? c then i else acc)
  end.

(** [t.lastIndexOf(c)]: the index of the last occurrence, or -1. *)
Definition lastIndexOf (c : code_unit) (t : jsstring) : Z :=
  lastIndexOf_from c t 0%Z (-1)%Z.

(** [t.split(c)] for a one-character separator. *)
Fixpoint split (sep : code_unit) (t : jsstring) : list jsstring :=
  match t with
  | [] => [[]]
  | c :: r =>
      if c =? sep then [] :: split sep r
      else match split sep r with
           | p :: ps => (c :: p) :: ps
           | [] => [[c]]
           end
  end.

(** [parts.join(e)] for the empty string [e]. *)
Definition join (parts : list jsstring) : jsstring := concat parts.

(** [t.slice(0, i)] and [t.slice(i)] for [0 <= i]. *)
Definition slice_to (i : Z) (t : jsstring) : jsstring := firstn (Z.to_nat i) t.
Definition slice_from (i : Z) (t : jsstring) : jsstring := skipn (Z.to_nat i) t.

(** A string is falsy exactly when it is empty. *)
Definition isEmpty (t : jsstring) : bool :=
  match t with [] => true | _ => false end.

Definition isEmptyList {A : Type} (l : list A) : bool :=
  match l with [] => true | _ => false end.

End JsString.
Import JsString.

(** ** The number token normalizer *)

(** [/^0+\d/.test(t)] *)
Fixpoint zerosThenDigit (t : jsstring) : bool :=
  match t with
  | [] => false
  | c :: r => isDigit c || ((c =? ch_zero) && zerosThenDigit r)
  end.

Definition leadingZeros (t : jsstring) : bool :=
  match t with
  | c :: r => (c =? ch_zero) && zerosThenDigit r
  | [] => false
  end.

(** [/^0\./.test(t)] *)
Definition zeroDot (t : jsstring) : bool :=
  match t with
  | c :: d :: _ => (c =? ch_zero) && (d =? ch_dot)
  | _ => false
  end.

(** The two branches of [normalizeNumberToken] on the separators, and its
    last step on leading zeros, each as the source has it. *)
Definition bothSeparators (t : jsstring) : jsstring :=
  let lastDot := lastIndexOf ch_dot t in
  let lastComma := lastIndexOf ch_comma t in
  let decSep := if (lastComma <? lastDot)%Z then ch_dot else ch_comma in
  let thouSep := if decSep =? ch_dot then ch_comma else ch_dot in
  let t := join (split thouSep t) in
  let idx := lastIndexOf decSep t in
  if (idx =? -1)%Z then t
  else slice_to idx t ++ [ch_dot] ++ slice_from (idx + 1) t.

Definition oneSeparator (t : jsstring) : jsstring :=
  let t := replaceAll ch_comma ch_dot t in
  let parts := split ch_dot t in
  if (2 <? length parts)%nat
  then join (removelast parts) ++ [ch_dot] ++ last parts []
  else t.

Definition stripZeros (t : jsstring) : jsstring :=
  if leadingZeros t && negb (zeroDot t)
  then dropWhile (N.eqb ch_zero) t
  else t.

Definition normalizeNumberToken (token : jsstring) : jsstring :=
  let t := trim token in
  let t := removeAll isWhiteSpace t in
  let t := removeAll (fun c => negb (isNumChar c)) t in
  if isEmpty t then []
  else
    let hasDot := includes ch_dot t in
    let hasComma := includes ch_comma t in
    let t := if hasDot && hasComma then bothSeparators t else oneSeparator t in
    stripZeros t.

(** The token after the first step: trimmed, without white space, and with
    nothing but digits and separators. *)
Definition stripped (token : jsstring) : jsstring :=
  removeAll (fun c => negb (isNumChar c)) (removeAll isWhiteSpace (trim token)).

(** The number of occurrences of a character. *)
Definition occ (c : code_unit) (t : jsstring) : nat :=
  length (filter (N.eqb c) t).

(** The separator [bothSeparators] takes for the decimal one. *)
Definition decimalSeparator (t : jsstring) : code_unit :=
  if (lastIndexOf ch_comma t <? lastIndexOf ch_dot t)%Z then ch_dot else ch_comma.

(** Either one kind of separator at most occurs in the token, or the kind
    that occurs last occurs once. *)
Definition singleDecimal (token : jsstring) : bool :=
  let t := stripped token in
  if includes ch_dot t && includes ch_comma t
  then Nat.eqb (occ (decimalSeparator t) t) 1
  else true.

(** Thousands removed, single dot decimal. *)
Definition canonical (t : jsstring) : Prop :=
  includes ch_comma t = false /\ (occ ch_dot t <= 1)%nat.

(** A string of digits and separators only. *)
Definition numeric (t : jsstring) : Prop :=
  Forall (fun c => isNumChar c = true) t.

(** ** JavaScript numbers

    A Number is an IEEE-754 binary64 value.  Every finite binary64 value is
    an integer multiple of the smallest subnormal [2^-1074], so a finite
    value [x] is carried as the integer [x * 2^1074]: comparison is the
    comparison of integers, and an operation is the exact operation on
    rationals followed by one rounding to nearest, ties to even.  The two
    zeros are one value here: nothing in this program tells them apart. *)

Module Number.
Local Open Scope Z_scope.

Inductive number : Type :=
| NaN
| Inf (negative : bool)
| Fin (u : Z).

Definition grid : Z := 2 ^ 1074.
Arguments grid : simpl never.

(** The largest finite value, [(2^53 - 1) * 2^971], on the grid. *)
Definition max_finite : Z := (2 ^ 53 - 1) * 2 ^ 2045.
Arguments max_finite : simpl never.

(** The integer nearest to [n / d] for [0 <= n] and [0 < d], ties to even. *)
Definition nearest_even (n d : Z) : Z :=
  let q := n / d in
  match 2 * (n mod d) ?= d with
  | Lt => q
  | Gt => q + 1
  | Eq => if Z.even q then q else q + 1
  end.

(** The binary64 value nearest to the rational [n / d] grid units
    ([0 < d]): 53 significant bits, gradual underflow, overflow to an
    infinity. *)
Definition round64 (n d : Z) : number :=
  let a := Z.abs n in
  let k := Z.max 0 (Z.log2 (a / d) + 1 - 53) in
  let u := nearest_even a (d * 2 ^ k) * 2 ^ k in
  if max_finite <? u then Inf (n <? 0) else Fin (Z.sgn n * u).

Definition ofZ (n : Z) : number := round64 (n * grid) 1.

(** The value of the decimal literal [m * 10^e]. *)
Definition ofDecimal (m e : Z) : number :=
  if 0 <=? e then round64 (m * 10 ^ e * grid) 1
  else round64 (m * grid) (10 ^ (- e)).

Definition neg (x : number) : number :=
  match x with
  | NaN => NaN
  | Inf s => Inf (negb s)
  | Fin u => Fin (- u)
  end.

Definition add (x y : number) : number :=
  match x, y with
  | NaN, _ | _, NaN => NaN
  | Inf s, Inf s' => if Bool.eqb s s' then Inf s else NaN
  | Inf s, Fin _ | Fin _, Inf s => Inf s
  | Fin a, Fin b => round64 (a + b) 1
  end.

Definition sub (x y : number) : number := add x (neg y).

Definition mul (x y : number) : number :=
  match x, y with
  | NaN, _ | _, NaN => NaN
  | Inf s, Inf s' => Inf (xorb s s')
  | Inf s, Fin b | Fin b, Inf s =>
      if b =? 0 then NaN else Inf (xorb s (b <? 0))
  | Fin a, Fin b => round64 (a * b) grid
  end.

Definition div (x y : number) : number :=
  match x, y with
  | NaN, _ | _, NaN => NaN
  | Inf _, Inf _ => NaN
  | Inf s, Fin b => Inf (xorb s (b <? 0))
  | Fin _, Inf _ => Fin 0
  | Fin a, Fin b =>
      if b =? 0 then (if a =? 0 then NaN else Inf (a <? 0))
      else round64 (Z.sgn b * a * grid) (Z.abs b)
  end.

(** [x < y], [x <= y], [x >= y] of the language: false on NaN. *)
Definition ltb (x y : number) : bool :=
  match x, y with
  | NaN, _ | _, NaN => false
  | Inf s, Inf s' => s && negb s'
  | Inf s, Fin _ => s
  | Fin _, Inf s => negb s
  | Fin a, Fin b => a <? b
  end.

Definition eqb (x y : number) : bool :=
  match x, y with
  | Inf s, Inf s' => Bool.eqb s s'
  | Fin a, Fin b => a =? b
  | _, _ => false
  end.

Definition leb (x y : number) : bool := ltb x y || eqb x y.
Definition geb (x y : number) : bool := leb y x.

(** [Number.isFinite(x)] *)
Definition isFinite (x : number) : bool :=
  match x with Fin _ => true | _ => false end.

(** ToBoolean: zero and NaN are falsy. *)
Definition truthy (x : number) : bool :=
  match x with
  | NaN => false
  | Inf _ => true
  | Fin u => negb (u =? 0)
  end.

(** [Math.round(x)]: the integer [floor(x + 1/2)], computed exactly; it
    is a binary64 value whenever [x] is. *)
Definition round (x : number) : number :=
  match x with
  | Fin u => Fin ((2 * u + grid) / (2 * grid) * grid)
  | _ => x
  end.

(** [Math.min(x, y)] *)
Definition min (x y : number) : number :=
  match x, y with
  | NaN, _ | _, NaN => NaN
  | _, _ => if ltb y x then y else x
  end.

(** [Number.EPSILON], [2^-52]. *)
Definition EPSILON : number := Fin (2 ^ 1022).

End Number.
Import Number.

(** ** Numbers and strings *)

Module Conversions.
Local Open Scope Z_scope.

Fixpoint takeWhile (p : code_unit -> bool) (t : jsstring) : jsstring :=
  match t with
  | [] => []
  | c :: r => if p c then c :: takeWhile p r else []
  end.

Definition digitValue (c : code_unit) : Z := Z.of_N c - 48.

(** The integer a string of decimal digits denotes. *)
Definition digitsValue (ds : jsstring) : Z :=
  fold_left (fun acc c => 10 * acc + digitValue c) ds 0.

Fixpoint startsWith (p t : jsstring) : bool :=
  match p, t with
  | [], _ => true
  | a :: p', b :: t' => N.eqb a b && startsWith p' t'
  | _ :: _, [] => false
  end.

Definition isSign (c : code_unit) : bool := N.eqb c 43 || N.eqb c 45.
Definition isExpMark (c : code_unit) : bool := N.eqb c 101 || N.eqb c 69.

(** An optional sign: whether it is a minus, and what follows it. *)
Definition signOf (t : jsstring) : bool * jsstring :=
  match t with
  | c :: r => if isSign c then (N.eqb c 45, r) else (false, t)
  | [] => (false, t)
  end.

(** An ExponentPart at the head of [t], if there is one: its value and
    what follows it. *)
Definition exponentOf (t : jsstring) : Z * jsstring :=
  match t with
  | c :: r =>
      if isExpMark c then
        let (minus, r') := signOf r in
        let ds := takeWhile isDigit r' in
        if isEmpty ds then (0, t)
        else ((if minus then - digitsValue ds else digitsValue ds),
              skipn (length ds) r')
      else (0, t)
  | [] => (0, t)
  end.

(** The longest prefix of [t] that is a StrDecimalLiteral: its value and
    the rest of [t]; [None] when no prefix is one. *)
Definition decimalPrefix (t : jsstring) : option (number * jsstring) :=
  let (minus, t1) := signOf t in
  let signed (x : number) := if minus then neg x else x in
  if startsWith (lit "Infinity") t1
  then Some (signed (Inf false), skipn 8 t1)
  else
    let ip := takeWhile isDigit t1 in
    let t2 := skipn (length ip) t1 in
    let '(fp, t3) :=
      match t2 with
      | c :: r =>
          if N.eqb c ch_dot then
            let fp := takeWhile isDigit r in
            if isEmpty ip && isEmpty fp then ([], t2)
            else (fp, skipn (length fp) r)
          else ([], t2)
      | [] => ([], t2)
      end in
    if isEmpty ip && isEmpty fp then None
    else
      let (e, t4) := exponentOf t3 in
      Some (signed (ofDecimal (digitsValue (ip ++ fp))
                              (e - Z.of_nat (length fp))), t4).

(** [Number.parseFloat(t)] *)
Definition parseFloat (t : jsstring) : number :=
  match decimalPrefix (dropWhile isWhiteSpace t) with
  | Some (x, _) => x
  | None => NaN
  end.

(** The digits of the radix-[b] literals [0x..], [0o..], [0b..]. *)
Definition radixDigit (b : Z) (c : code_unit) : option Z :=
  let v :=
    if isDigit c then Z.of_N c - 48
    else if (N.leb 97 c && N.leb c 102)%bool then Z.of_N c - 87
    else if (N.leb 65 c && N.leb c 70)%bool then Z.of_N c - 55
    else b in
  if v <? b then Some v else None.

Fixpoint radixValue (b : Z) (ds : jsstring) (acc : Z) : option Z :=
  match ds with
  | [] => Some acc
  | c :: r =>
      match radixDigit b c with
      | Some v => radixValue b r (b * acc + v)
      | None => None
      end
  end.

Definition nonDecimal (t : jsstring) : option Z :=
  match t with
  | z :: m :: d :: ds =>
      if N.eqb z ch_zero then
        if N.eqb m 120 || N.eqb m 88 then radixValue 16 (d :: ds) 0
        else if N.eqb m 111 || N.eqb m 79 then radixValue 8 (d :: ds) 0
        else if N.eqb m 98 || N.eqb m 66 then radixValue 2 (d :: ds) 0
        else None
      else None
  | _ => None
  end.

(** [Number(t)] for a string [t]: StringToNumber. *)
Definition stringToNumber (t : jsstring) : number :=
  let t := trim t in
  if isEmpty t then Fin 0
  else match nonDecimal t with
       | Some n => ofZ n
       | None =>
           match decimalPrefix t with
           | Some (x, []) => x
           | _ => NaN
           end
       end.

Fixpoint uintDigits (d : Decimal.uint) : jsstring :=
  match d with
  | Decimal.Nil => []
  | Decimal.D0 r => 48%N :: uintDigits r
  | Decimal.D1 r => 49%N :: uintDigits r
  | Decimal.D2 r => 50%N :: uintDigits r
  | Decimal.D3 r => 51%N :: uintDigits r
  | Decimal.D4 r => 52%N :: uintDigits r
  | Decimal.D5 r => 53%N :: uintDigits r
  | Decimal.D6 r => 54%N :: uintDigits r
  | Decimal.D7 r => 55%N :: uintDigits r
  | Decimal.D8 r => 56%N :: uintDigits r
  | Decimal.D9 r => 57%N :: uintDigits r
  end.

(** The decimal digits of a natural number, ["0"] for zero. *)
Definition decimalDigits (n : Z) : jsstring := uintDigits (N.to_uint (Z.to_N n)).

(** [x.toFixed(2)] for [|x| < 10^21], the range in which the program
    calls it: the integer [n] nearest to [100 * |x|] (the larger one on a
    tie), written with a point before its last two digits. *)
Definition toFixed2 (x : number) : jsstring :=
  match x with
  | NaN => lit "NaN"
  | Inf s => if s then lit "-Infinity" else lit "Infinity"
  | Fin u =>
      let n := (200 * Z.abs u + grid) / (2 * grid) in
      let m := decimalDigits n in
      let m := repeat ch_zero (3 - length m) ++ m in
      let k := (length m - 2)%nat in
      (if u <? 0 then lit "-" else []) ++ firstn k m ++ [ch_dot] ++ skipn k m
  end.

End Conversions.
Import Conversions.

(** ** The candidate extractor and ranker *)

(** The class [[0-9.,\s]] of the token pattern. *)
Definition isTokenChar (c : code_unit) : bool := isNumChar c || isWhiteSpace c.

(** [[0-9.,\s]{0,n}[0-9]] at the head of [t], as the backtracking matcher
    finds it: the quantifier takes a character whenever it may and the rest
    still matches, and gives it back otherwise. *)
Fixpoint matchBody (n : nat) (t : jsstring) : option jsstring :=
  match t with
  | [] => None
  | c :: r =>
      let stop := if isDigit c then Some [c] else None in
      match n with
      | O => stop
      | S n' =>
          if isTokenChar c then
            match matchBody n' r with
            | Some m => Some (c :: m)
            | None => stop
            end
          else stop
      end
  end.

(** [/[0-9][0-9.,\s]{0,15}[0-9]/] at the head of [t]. *)
Definition matchAt (t : jsstring) : option jsstring :=
  match t with
  | c :: r =>
      if isDigit c then option_map (cons c) (matchBody 15 r) else None
  | [] => None
  end.

(** [raw.match(/.../g) || []]: the matches from left to right, each search
    starting where the last match ended; [skip] counts the characters of
    the last match that are still to be passed. *)
Fixpoint scanFrom (skip : nat) (t : jsstring) : list jsstring :=
  match t with
  | [] => []
  | _ :: r =>
      match skip with
      | S k => scanFrom k r
      | O =>
          match matchAt t with
          | Some tok => tok :: scanFrom (length tok - 1) r
          | None => scanFrom 0 r
          end
      end
  end.

Definition matchTokens (raw : jsstring) : list jsstring := scanFrom 0 raw.

Record candidate : Type := mkCandidate {
  value : number;
  normalized : jsstring;
  score : number
}.

(** [/\.\d{1,2}$/.test(norm)] *)
Fixpoint endsInDecimals (t : jsstring) : bool :=
  match t with
  | [] => false
  | c :: r =>
      ((c =? ch_dot)
       && match r with
          | [d] => isDigit d
          | [d; d'] => isDigit d && isDigit d'
          | _ => false
          end)
      || endsInDecimals r
  end.

Definition ofBool (b : bool) : number := if b then ofZ 1 else ofZ 0.

(** The score of a token that passed the filters. *)
Definition scoreOf (val : number) (norm : jsstring) : number :=
  let hasDecimals := ofBool (endsInDecimals norm) in
  let inTypicalRange :=
    ofBool (geb val (ofDecimal 2 (-1)) && leb val (ofZ 5000)) in
  let tokenLen :=
    div (Number.min (ofZ (Z.of_nat (length norm))) (ofZ 10)) (ofZ 10) in
  add (add (mul hasDecimals (ofZ 2)) (mul inTypicalRange (ofZ 2))) tokenLen.

(** [seen.has(key)] on the set of keys seen so far. *)
Definition has (seen : list jsstring) (key : jsstring) : bool :=
  existsb (fun k => if list_eq_dec N.eq_dec k key then true else false) seen.

(** The [for] loop of [extractAmounts], from the state [(seen, amounts)]. *)
Fixpoint collect (tokens : list jsstring) (seen : list jsstring)
    (amounts : list candidate) : list candidate :=
  match tokens with
  | [] => amounts
  | tok :: rest =>
      let norm := normalizeNumberToken tok in
      if isEmpty norm then collect rest seen amounts
      else
        let val := parseFloat norm in
        if negb (isFinite val) then collect rest seen amounts
        else if leb val (ofZ 0) || geb val (ofZ 100000)
        then collect rest seen amounts
        else
          let key := toFixed2 val in
          if has seen key then collect rest seen amounts
          else
            collect rest (key :: seen)
              (amounts ++ [mkCandidate val norm (scoreOf val norm)])
  end.

(** The comparator [(a, b) => b.score - a.score || b.value - a.value]. *)
Definition compareFn (a b : candidate) : number :=
  let d := sub (score b) (score a) in
  if truthy d then d else sub (value b) (value a).

(** [Array.prototype.sort] is a stable sort: an element moves in front of
    another one only where the comparator is positive for the pair in
    their present order.  Insertion from the right realises it. *)
Fixpoint insertSorted (cmp : candidate -> candidate -> number)
    (x : candidate) (l : list candidate) : list candidate :=
  match l with
  | [] => [x]
  | y :: r =>
      if ltb (ofZ 0) (cmp x y) then y :: insertSorted cmp x r
      else x :: l
  end.

Definition sortBy (cmp : candidate -> candidate -> number)
    (l : list candidate) : list candidate :=
  fold_right (insertSorted cmp) [] l.

Definition extractAmounts (text : jsstring) : list candidate :=
  let raw := text in
  let tokens := matchTokens raw in
  let amounts := collect tokens [] [] in
  firstn 8 (sortBy compareFn amounts).

(** The two-decimal key of a candidate. *)
Definition keyOf (c : candidate) : jsstring := toFixed2 (value c).

(** What the loop makes of one token before it looks at the keys seen:
    the candidate, or nothing when the token is passed over. *)
Definition candidateOf (tok : jsstring) : option candidate :=
  let norm := normalizeNumberToken tok in
  if isEmpty norm then None
  else
    let val := parseFloat norm in
    if negb (isFinite val) then None
    else if leb val (ofZ 0) || geb val (ofZ 100000) then None
    else Some (mkCandidate val norm (scoreOf val norm)).

Definition candidatesOf (tokens : list jsstring) : list candidate :=
  flat_map (fun tok => match candidateOf tok with Some c => [c] | None => [] end) tokens.

(** The first candidate of each key, for keys not yet seen. *)
Fixpoint firsts (cs : list candidate) (seen : list jsstring) : list candidate :=
  match cs with
  | [] => []
  | c :: r =>
      if has seen (keyOf c) then firsts r seen
      else c :: firsts r (keyOf c :: seen)
  end.

(** [a] ranks at or above [b]: a greater score, or the same score and a
    value that is not smaller. *)
Definition ranked (a b : candidate) : Prop :=
  ltb (score b) (score a) = true
  \/ (score a = score b /\ leb (value b) (value a) = true).

(** A value strictly between 0 and 100000. *)
Definition inRange (x : number) : Prop :=
  ltb (ofZ 0) x = true /\ ltb x (ofZ 100000) = true.

(** A candidate whose score and value are finite numbers. *)
Definition finiteCandidate (c : candidate) : Prop :=
  exists s v, score c = Fin s /\ value c = Fin v.

(** The text of the worked example: Cyrillic letters are the code units
    U+0426 ..., the rest is ASCII. *)
Definition sampleText : jsstring :=
  [1062; 1077; 1085; 1072] ++ lit " 3.49 " ++ [1083; 1074] ++ lit ". "
  ++ [1089; 1090; 1072; 1088] ++ lit " 12,00".

(** ** The conversion endpoint *)

(** [const RATE = 1.95583] *)
Definition RATE : number := ofDecimal 195583 (-5).

Definition round2 (n : number) : number :=
  div (Number.round (mul (add n EPSILON) (ofZ 100))) (ofZ 100).

(** [t.toUpperCase()].  Only the ASCII letters are mapped: the two other
    characters whose upper-case form is an ASCII letter are U+0131 and
    U+017F, which give I and S, so that the comparison of the result with
    BGN and EUR is the one of the language. *)
Definition toUpperCase (t : jsstring) : jsstring :=
  map (fun c => if (97 <=? c) && (c <=? 122) then c - 32 else c) t.

Definition strEq (a b : jsstring) : bool :=
  if list_eq_dec N.eq_dec a b then true else false.

(** The query of a request: each parameter is absent or a string (a
    parameter that is repeated or written with brackets, which the query
    parser turns into an array or an object, is left out). *)
Record query : Type := mkQuery {
  q_amount : option jsstring;
  q_from : option jsstring
}.

Inductive body : Type :=
| ErrorBody (error : jsstring)
| ConvertBody (rate amount : number) (from : jsstring) (bgn eur : number).

Record response : Type := mkResponse {
  status : N;
  payload : body
}.

(** [Number(req.query.amount)]: an absent parameter is [undefined]. *)
Definition amountOf (q : query) : number :=
  match q_amount q with
  | Some t => stringToNumber t
  | None => NaN
  end.

(** [String(req.query.from || "BGN").toUpperCase()] *)
Definition fromOf (q : query) : jsstring :=
  toUpperCase
    match q_from q with
    | Some t => if isEmpty t then lit "BGN" else t
    | None => lit "BGN"
    end.

(** The handler of [GET /api/convert]. *)
Definition convert (q : query) : response :=
  let amount := amountOf q in
  let from := fromOf q in
  if negb (isFinite amount)
  then mkResponse 400 (ErrorBody (lit "Invalid amount"))
  else if negb (strEq from (lit "BGN")) && negb (strEq from (lit "EUR"))
  then mkResponse 400 (ErrorBody (lit "from must be BGN or EUR"))
  else
    let eur := if strEq from (lit "BGN") then div amount RATE else amount in
    let bgn := if strEq from (lit "EUR") then mul amount RATE else amount in
    mkResponse 200 (ConvertBody RATE amount from (round2 bgn) (round2 eur)).

(** ** The worker singleton and the recognition queue

    The program runs on one thread: a piece of its code runs to the end
    before the next starts, and promise reactions run, in the order in
    which they were registered, before the next event from outside.  The
    events from outside are: a request reaches [runOcr], the engine
    initialisation settles, the recognition in flight settles.  A state
    holds the two module variables, the calls suspended at
    [await getWorker()] and a log of the calls made to the engine. *)

Module Manager.
Local Open Scope nat_scope.

Definition worker := nat.
Definition buffer := list N.
Definition failure := jsstring.
Definition recognized := jsstring.

Inductive outcome (A : Type) : Type :=
| Fulfilled (v : A)
| Rejected (e : failure).
Arguments Fulfilled {A} v.
Arguments Rejected {A} e.

Inductive promise (A : Type) : Type :=
| Pending
| Settled (o : outcome A).
Arguments Pending {A}.
Arguments Settled {A} o.

(** The promise that [queue.then(async () => ...)] returns: its callback
    has not run yet, is running [worker.recognize], has run and settled
    the promise, or was passed over because the promise before it was
    rejected, which rejects this one with the same reason. *)
Inductive link_status : Type :=
| Waiting
| Running
| Done (o : outcome recognized)
| Skipped (e : failure).

Record link : Type := mkLink {
  owner : nat;
  image : buffer;
  engine : worker;
  status : link_status
}.

Inductive trace_event : Type :=
| CreateWorker
| Recognize (id : nat) (w : worker) (b : buffer)
| Completed (id : nat) (o : outcome recognized).

(** [queue] is the chain of promises built so far; the variable of the
    source holds the last one, and [Promise.resolve()] when the chain is
    empty.  Calls are numbered in the order in which they are made. *)
Record state : Type := mkState {
  workerPromise : option (promise worker);
  queue : list link;
  suspended : list (nat * buffer);
  refused : list (nat * failure);
  calls : nat;
  log : list trace_event
}.

Definition init : state := mkState None [] [] [] 0 [].

(** [getWorker()]: the memoised promise, created on the first call. *)
Definition getWorker (s : state) : state * promise worker :=
  match workerPromise s with
  | None =>
      (mkState (Some Pending) (queue s) (suspended s) (refused s) (calls s)
         (log s ++ [CreateWorker]),
       Pending)
  | Some p => (s, p)
  end.

(** What [runOcr] does once [await getWorker()] has settled: chain the
    recognition onto [queue], or throw. *)
Definition resume (o : outcome worker) (s : state) (c : nat * buffer) : state :=
  match o with
  | Fulfilled w =>
      mkState (workerPromise s)
        (queue s ++ [mkLink (fst c) (snd c) w Waiting])
        (suspended s) (refused s) (calls s) (log s)
  | Rejected e =>
      mkState (workerPromise s) (queue s) (suspended s)
        (refused s ++ [(fst c, e)]) (calls s) (log s)
  end.

(** A call of [runOcr(b)]. *)
Definition runOcr (b : buffer) (s : state) : state :=
  let id := calls s in
  let (s1, p) := getWorker s in
  let s2 := mkState (workerPromise s1) (queue s1) (suspended s1) (refused s1)
              (S id) (log s1) in
  match p with
  | Pending =>
      mkState (workerPromise s2) (queue s2) (suspended s2 ++ [(id, b)])
        (refused s2) (calls s2) (log s2)
  | Settled o => resume o s2 (id, b)
  end.

(** The initialisation settles: every suspended call resumes, in order. *)
Definition initSettles (o : outcome worker) (s : state) : state :=
  match workerPromise s with
  | Some Pending =>
      fold_left (resume o) (suspended s)
        (mkState (Some (Settled o)) (queue s) [] (refused s) (calls s) (log s))
  | _ => s
  end.

(** The recognition in flight settles its promise. *)
Fixpoint settleRunning (o : outcome recognized) (q : list link)
    : list link * list trace_event :=
  match q with
  | [] => ([], [])
  | l :: r =>
      match status l with
      | Running =>
          (mkLink (owner l) (image l) (engine l) (Done o) :: r,
           [Completed (owner l) o])
      | _ => let (r', t) := settleRunning o r in (l :: r', t)
      end
  end.

Definition recognizeSettles (o : outcome recognized) (s : state) : state :=
  let (q, t) := settleRunning o (queue s) in
  mkState (workerPromise s) q (suspended s) (refused s) (calls s) (log s ++ t).

(** The state of the promise a link was chained onto. *)
Inductive before : Type :=
| BeforePending
| BeforeFulfilled
| BeforeRejected (e : failure).

Definition settledAs (st : link_status) : before :=
  match st with
  | Waiting | Running => BeforePending
  | Done (Fulfilled _) => BeforeFulfilled
  | Done (Rejected e) | Skipped e => BeforeRejected e
  end.

(** The reactions of [then]: the callback of a link runs once the promise
    before it is fulfilled, and calls [worker.recognize(buffer)]; a
    rejection passes to the link without running its callback. *)
Fixpoint react (prev : before) (q : list link)
    : list link * list trace_event :=
  match q with
  | [] => ([], [])
  | l :: r =>
      let (st, t) :=
        match status l, prev with
        | Waiting, BeforeFulfilled =>
            (Running, [Recognize (owner l) (engine l) (image l)])
        | Waiting, BeforeRejected e => (Skipped e, [])
        | st, _ => (st, [])
        end in
      let (r', t') := react (settledAs st) r in
      (mkLink (owner l) (image l) (engine l) st :: r', t ++ t')
  end.

Definition drain (s : state) : state :=
  let (q, t) := react BeforeFulfilled (queue s) in
  mkState (workerPromise s) q (suspended s) (refused s) (calls s) (log s ++ t).

Inductive event : Type :=
| Submit (b : buffer)
| InitSettles (o : outcome worker)
| RecognizeSettles (o : outcome recognized).

Definition step (s : state) (ev : event) : state :=
  drain
    match ev with
    | Submit b => runOcr b s
    | InitSettles o => initSettles o s
    | RecognizeSettles o => recognizeSettles o s
    end.

Definition run (evs : list event) : state := fold_left step evs init.

(** The promise [runOcr] returned to call number [id]. *)
Definition resultOf (s : state) (id : nat) : option (promise recognized) :=
  match find (fun c => fst c =? id) (refused s) with
  | Some (_, e) => Some (Settled (Rejected e))
  | None =>
      match find (fun l => owner l =? id) (queue s) with
      | Some l =>
          Some match status l with
               | Done o => Settled o
               | Skipped e => Settled (Rejected e)
               | _ => Pending
               end
      | None =>
          if existsb (fun c => fst c =? id) (suspended s)
          then Some Pending else None
      end
  end.

(** Readings of the log. *)
Definition creations (t : list trace_event) : nat :=
  length (filter (fun e => match e with CreateWorker => true | _ => false end) t).

Definition recognitions (t : list trace_event) : list (nat * buffer) :=
  flat_map (fun e => match e with Recognize i _ b => [(i, b)] | _ => [] end) t.

Definition completions (t : list trace_event) : list nat :=
  flat_map (fun e => match e with Completed i _ => [i] | _ => [] end) t.

Definition enginesUsed (t : list trace_event) : list worker :=
  flat_map (fun e => match e with Recognize _ w _ => [w] | _ => [] end) t.

(** At most one recognition is in flight at any point of the log:
    [inFlight] is the call started and not yet completed. *)
Fixpoint oneAtATime (inFlight : option nat) (t : list trace_event) : bool :=
  match t with
  | [] => true
  | CreateWorker :: r => oneAtATime inFlight r
  | Recognize i _ _ :: r =>
      match inFlight with
      | None => oneAtATime (Some i) r
      | Some _ => false
      end
  | Completed i _ :: r =>
      match inFlight with
      | Some j => (i =? j) && oneAtATime None r
      | None => false
      end
  end.

(** The buffers submitted by a schedule, numbered in order. *)
Fixpoint submitted (n : nat) (evs : list event) : list (nat * buffer) :=
  match evs with
  | [] => []
  | Submit b :: r => (n, b) :: submitted (S n) r
  | _ :: r => submitted n r
  end.

(** Nothing is left to happen: no call is suspended and no recognition
    is running. *)
Definition quiescent (s : state) : bool :=
  isEmptyList (suspended s)
  && forallb (fun l => match status l with Running | Waiting => false | _ => true end)
       (queue s).

(** No initialisation and no recognition of the schedule fails. *)
Definition fulfils (ev : event) : bool :=
  match ev with
  | InitSettles (Rejected _) | RecognizeSettles (Rejected _) => false
  | _ => true
  end.

(** The calls a link accounts for in the log: those of its callback. *)
Definition linkEvents (l : link) : list trace_event :=
  match status l with
  | Running => [Recognize (owner l) (engine l) (image l)]
  | Done o => [Recognize (owner l) (engine l) (image l); Completed (owner l) o]
  | Waiting | Skipped _ => []
  end.

Definition isEngineEvent (e : trace_event) : bool :=
  match e with CreateWorker => false | _ => true end.

Definition engineLog (t : list trace_event) : list trace_event :=
  filter isEngineEvent t.

(** The statuses a link may have, by the state of the promise before it:
    [loose] between an event and the reactions to it, [settled] once the
    reactions have run. *)
Definition looseAfter (prev : before) (st : link_status) : Prop :=
  match prev, st with
  | BeforeFulfilled, (Waiting | Running | Done _) => True
  | BeforePending, Waiting => True
  | BeforeRejected e, Skipped e' => e = e'
  | BeforeRejected _, Waiting => True
  | _, _ => False
  end.

Definition settledAfter (prev : before) (st : link_status) : Prop :=
  match prev, st with
  | BeforeFulfilled, (Running | Done _) => True
  | BeforePending, Waiting => True
  | BeforeRejected e, Skipped e' => e = e'
  | _, _ => False
  end.

Fixpoint chain (ok : before -> link_status -> Prop) (prev : before)
    (q : list link) : Prop :=
  match q with
  | [] => True
  | l :: r => ok prev (status l) /\ chain ok (settledAs (status l)) r
  end.

Definition entry (l : link) : nat * buffer := (owner l, image l).

(** The invariant of the reachable states, [ok] being [looseAfter] or
    [settledAfter]. *)
Record InvWith (ok : before -> link_status -> Prop) (s : state) : Prop := mkInv {
  inv_log : engineLog (log s) = flat_map linkEvents (queue s);
  inv_chain : chain ok BeforeFulfilled (queue s);
  inv_created :
    creations (log s) = match workerPromise s with None => 0 | Some _ => 1 end;
  inv_worker :
    match workerPromise s with
    | None =>
        queue s = [] /\ suspended s = [] /\ refused s = [] /\ calls s = 0
    | Some Pending =>
        queue s = [] /\ refused s = []
        /\ map fst (suspended s) = seq 0 (calls s)
    | Some (Settled (Fulfilled w)) =>
        suspended s = [] /\ refused s = []
        /\ Forall (fun l => engine l = w) (queue s)
        /\ map owner (queue s) = seq 0 (calls s)
    | Some (Settled (Rejected e)) =>
        suspended s = [] /\ queue s = []
        /\ Forall (fun c => snd c = e) (refused s)
        /\ map fst (refused s) = seq 0 (calls s)
    end
}.

Definition Inv : state -> Prop := InvWith settledAfter.

(** Three jobs submitted while the engine initialises and a fourth one
    later, every step fulfilling. *)
Definition sampleSchedule : list event :=
  [Submit [1%N]; Submit [2%N]; Submit [3%N];
   InitSettles (Fulfilled 0);
   RecognizeSettles (Fulfilled (lit "3.49"));
   Submit [4%N];
   RecognizeSettles (Fulfilled (lit "12,00"));
   RecognizeSettles (Fulfilled []);
   RecognizeSettles (Fulfilled (lit "7"))].

(** What [await getWorker()] gave to each call that got past it. *)
Definition acquired (s : state) : list (nat * outcome worker) :=
  map (fun l => (owner l, Fulfilled (engine l))) (queue s)
  ++ map (fun c => (fst c, Rejected (snd c))) (refused s).

(** The identity of a link: everything but its status. *)
Definition ident (l : link) : nat * buffer * worker :=
  (owner l, image l, engine l).

Definition waiting (l : link) : Prop := status l = Waiting.

(** A link whose recognition has run and fulfilled. *)
Definition fulfilled (l : link) : Prop := exists v, status l = Done (Fulfilled v).

(** A link that no rejection has touched. *)
Definition unfailed (l : link) : Prop :=
  match status l with
  | Done (Rejected _) | Skipped _ => False
  | _ => True
  end.

(** A piece of log without engine creation. *)
Definition quiet (t : list trace_event) : Prop :=
  engineLog t = t /\ creations t = 0.

(** What the reactions make of a chain: its new links and the calls logged. *)
Definition reacted (prev : before) (q q' : list link)
    (t : list trace_event) : Prop :=
  chain settledAfter prev q'
  /\ flat_map linkEvents q' = flat_map linkEvents q ++ t
  /\ quiet t
  /\ map ident q' = map ident q.

(** The calls that are suspended or chained, in order. *)
Definition entries (s : state) : list (nat * buffer) :=
  map entry (queue s) ++ suspended s.

(** The state a schedule without failures leads to. *)
Record Unfailed (evs : list event) (s : state) : Prop := mkUnfailed {
  unf_entries : entries s = submitted 0 evs;
  unf_calls : calls s = length (submitted 0 evs);
  unf_refused : refused s = [];
  unf_links : Forall unfailed (queue s);
  unf_worker : forall e, workerPromise s <> Some (Settled (Rejected e))
}.

End Manager.

(** ** Vocabulary of the further properties *)

(** The decimal digits of a string, in order. *)
Definition digitsOf (t : jsstring) : jsstring := filter isDigit t.

(** The matches of the token pattern lie in the text from left to right
    without overlap, and the pattern matches at no position before a
    match that the match before it does not cover. *)
Fixpoint tokensIn (raw : jsstring) (toks : list jsstring) : Prop :=
  match toks with
  | [] =>
      forall a b, raw = a ++ b -> matchAt b = None
  | tok :: rest =>
      exists gap after,
        raw = gap ++ tok ++ after
        /\ (forall a b, gap = a ++ b -> b <> [] ->
                        matchAt (b ++ tok ++ after) = None)
        /\ matchAt (tok ++ after) = Some tok
        /\ tokensIn after rest
  end.

Definition tokenChars (t : jsstring) : Prop :=
  Forall (fun c => isTokenChar c = true) t.

(** The magnitude [round64] gives to the quotient [a / d] of two
    non-negative integers, before the test for overflow. *)
Definition magnitude (a d : Z) : Z :=
  (let k := Z.max 0 (Z.log2 (a / d) + 1 - 53) in
   nearest_even a (d * 2 ^ k) * 2 ^ k)%Z.

(** The score in tenths, as an integer: 20 for each of the two bonuses
    and one for each character of the normalized string up to ten. *)
Definition points (val : number) (norm : jsstring) : Z :=
  (20 * Z.b2z (endsInDecimals norm)
   + 20 * Z.b2z (geb val (ofDecimal 2 (-1)) && leb val (ofZ 5000))
   + Z.min (Z.of_nat (length norm)) 10)%Z.

(** The whole numbers from 0 up to [n], without [n]. *)
Definition upto (n : nat) : list Z := map Z.of_nat (seq 0 n).

(** The candidates the loop of [extractAmounts] collects, before they are
    sorted and cut to eight. *)
Definition accepted (text : jsstring) : list candidate :=
  firsts (candidatesOf (matchTokens text)) [].

(** What [res.json] sends for a number: [JSON.stringify] writes a finite
    number as the numeral that reads back as that number, and NaN and
    the infinities as [null]. *)
Definition sent (x : number) : option number :=
  if isFinite x then Some x else None.

(** ** The recognition endpoint

    The callback of [POST /api/ocr] awaits the preprocessing of the image
    and then [runOcr].  What an [await] delivers is a value or a thrown
    one; the two awaited calls are arguments of the model, functions of
    the buffer they are given.  The model is the callback alone, for a
    request that [upload.single("image")] has passed on: what that
    middleware does with a request it refuses (a file in another field,
    a file above the size limit) is not part of it. *)

Module Orchestrator.

(** A thrown value [e]: its [message], where it has one that is a string,
    and the string that [String(e)] gives. *)
Record thrown : Type := mkThrown {
  message : option jsstring;
  shown : jsstring
}.

Inductive awaited (A : Type) : Type :=
| Returned (v : A)
| Threw (e : thrown).
Arguments Returned {A} v.
Arguments Threw {A} e.

(** The [data] of a recognition result: [text] and [confidence], each of
    them there or not. *)
Record recognition : Type := mkRecognition {
  text : option jsstring;
  confidence : option number
}.

Inductive ocrBody : Type :=
| OcrError (error : jsstring) (details : option jsstring)
| OcrResult (rate : number) (confidence : option number)
    (bestAmount : option number) (candidates : list (number * jsstring))
    (rawText : jsstring).

Record ocrResponse : Type := mkOcrResponse {
  ocrStatus : N;
  ocrPayload : ocrBody
}.

(** [String(e?.message || e)] *)
Definition detailsOf (e : thrown) : jsstring :=
  match message e with
  | Some m => if isEmpty m then shown e else m
  | None => shown e
  end.

(** The [catch] branch. *)
Definition failed (e : thrown) : ocrResponse :=
  mkOcrResponse 500 (OcrError (lit "OCR failed") (Some (detailsOf e))).

(** [result?.data?.text || ""]; the result is [None] where it, or its
    [data], is [null] or [undefined]. *)
Definition textOf (result : option recognition) : jsstring :=
  match result with
  | Some r => match text r with Some t => t | None => [] end
  | None => []
  end.

(** [result?.data?.confidence ?? null] *)
Definition confidenceOf (result : option recognition) : option number :=
  match result with
  | Some r => confidence r
  | None => None
  end.

(** [amounts.length ? amounts[0].value : null] *)
Definition bestOf (amounts : list candidate) : option number :=
  match amounts with
  | [] => None
  | a :: _ => Some (value a)
  end.

Definition ocrHandler (file : option (list N))
    (sharp : list N -> awaited (list N))
    (runOcr : list N -> awaited (option recognition)) : ocrResponse :=
  match file with
  | None =>
      mkOcrResponse 400
        (OcrError (lit "Missing image file (field name: image)") None)
  | Some buffer =>
      match sharp buffer with
      | Threw e => failed e
      | Returned pre =>
          match runOcr pre with
          | Threw e => failed e
          | Returned result =>
              let text := textOf result in
              let confidence := confidenceOf result in
              let amounts := extractAmounts text in
              let best := bestOf amounts in
              mkOcrResponse 200
                (OcrResult RATE confidence best
                   (map (fun a => (value a, normalized a)) amounts) text)
          end
      end
  end.

End Orchestrator.

(** The number of links of the queue whose recognition has not completed. *)
Definition unfinished (q : list Manager.link) : nat :=
  length (filter (fun l => match Manager.status l with
                           | Manager.Done _ => false
                           | _ => true
                           end) q).

(** The recognitions in flight fulfil one after another with the given
    results. *)
Definition fulfilments (rs : list Manager.recognized) : list Manager.event :=
  map (fun r => Manager.RecognizeSettles (Manager.Fulfilled r)) rs.

(** The digits [parseFloat] reads before and after the point of a string
    that begins with neither white space nor a sign. *)
Definition integerPart (t : jsstring) : jsstring := takeWhile isDigit t.

Definition fractionPart (t : jsstring) : jsstring :=
  match skipn (length (integerPart t)) t with
  | c :: r => if (c =? ch_dot)%N then takeWhile isDigit r else []
  | [] => []
  end.

(** ** The cart of the client

    [src/mobile/App.js] keeps the scanned amounts in a list of items and
    shows their totals in both currencies.  It has the rate and [round2]
    of the backend. *)

Module Client.







(** A number that is neither negative nor NaN. *)
Definition nonneg (x : number) : Prop := leb (Fin 0) x = true.


End Client.

(** * Facts about the string operations *)

Section StringFacts.

Lemma occ_app c a b : occ c (a ++ b) = (occ c a + occ c b)%nat.
Proof. unfold occ. now rewrite filter_app, length_app. Qed.

Lemma occ_cons c x t :
  occ c (x :: t) = ((if (c =? x)%N then 1 else 0) + occ c t)%nat.
Proof. unfold occ. simpl. now destruct (c =? x). Qed.

Lemma includes_occ c t : includes c t = true <-> (0 < occ c t)%nat.
Proof.
  unfold includes. induction t as [|x t IH]; simpl.
  - split; [discriminate | unfold occ; simpl; lia].
  - rewrite occ_cons, orb_true_iff, IH. destruct (c =? x); lia.
Qed.

Lemma includes_false_occ c t : includes c t = false <-> occ c t = 0%nat.
Proof.
  destruct (includes c t) eqn:E.
  - apply includes_occ in E. split; [discriminate | lia].
  - split; [intros _ | reflexivity].
    destruct (occ c t) eqn:O; [reflexivity|].
    assert (H : includes c t = true) by (apply includes_occ; lia).
    congruence.
Qed.

Lemma includes_app c a b : includes c (a ++ b) = includes c a || includes c b.
Proof. unfold includes. apply existsb_app. Qed.

(** Splitting and joining again removes the separator. *)
Lemma split_not_nil c t : split c t <> [].
Proof.
  destruct t as [|x t]; simpl; [discriminate|].
  destruct (x =? c); [discriminate|]. destruct (split c t); discriminate.
Qed.

Lemma join_split c t : join (split c t) = filter (fun x => negb (x =? c)) t.
Proof.
  unfold join. induction t as [|x t IH]; simpl; [reflexivity|].
  destruct (x =? c); simpl; [exact IH|].
  destruct (split c t) as [|p ps] eqn:E.
  - now apply split_not_nil in E.
  - simpl in *. now rewrite <- IH.
Qed.

Lemma split_length c t : length (split c t) = S (occ c t).
Proof.
  induction t as [|x t IH]; simpl; [reflexivity|].
  rewrite occ_cons, (N.eqb_sym c x). destruct (x =? c); simpl.
  - now rewrite IH.
  - destruct (split c t) as [|p ps] eqn:E;
      [now apply split_not_nil in E | simpl in *; lia].
Qed.

Lemma split_app c a b :
  split c (a ++ c :: b) = split c a ++ split c b.
Proof.
  induction a as [|x a IH]; simpl.
  - now rewrite N.eqb_refl.
  - destruct (x =? c); simpl; [now rewrite IH|].
    rewrite IH. destruct (split c a) as [|p ps] eqn:E;
      [now apply split_not_nil in E | reflexivity].
Qed.

Lemma split_none c t : occ c t = 0%nat -> split c t = [t].
Proof.
  induction t as [|x t IH]; simpl; [reflexivity|].
  rewrite occ_cons, (N.eqb_sym c x). destruct (x =? c); [discriminate|].
  simpl. intros H. now rewrite (IH H).
Qed.

(** The last occurrence of a character cuts a string in two. *)
Lemma last_occurrence c t :
  (0 < occ c t)%nat ->
  exists pre post, t = pre ++ c :: post /\ occ c post = 0%nat.
Proof.
  induction t as [|x t IH]; [unfold occ; simpl; lia|].
  intros H. destruct (occ c t) as [|n] eqn:O.
  - rewrite occ_cons, O in H. destruct (c =? x) eqn:E; [|lia].
    apply N.eqb_eq in E. subst x. now exists [], t.
  - destruct IH as (pre & post & -> & Hp); [lia|].
    now exists (x :: pre), post.
Qed.

Lemma lastIndexOf_from_app c a b i acc :
  lastIndexOf_from c (a ++ b) i acc =
  lastIndexOf_from c b (i + Z.of_nat (length a))%Z (lastIndexOf_from c a i acc).
Proof.
  revert i acc. induction a as [|x a IH]; intros i acc; simpl.
  - f_equal. lia.
  - rewrite IH. f_equal. lia.
Qed.

Lemma lastIndexOf_from_none c t i acc :
  occ c t = 0%nat -> lastIndexOf_from c t i acc = acc.
Proof.
  revert i acc. induction t as [|x t IH]; intros i acc; simpl; [reflexivity|].
  rewrite occ_cons, (N.eqb_sym c x). destruct (x =? c); [discriminate|].
  simpl. apply IH.
Qed.

Lemma lastIndexOf_cut c pre post :
  occ c post = 0%nat ->
  lastIndexOf c (pre ++ c :: post) = Z.of_nat (length pre).
Proof.
  intros H. unfold lastIndexOf. rewrite lastIndexOf_from_app. simpl.
  rewrite N.eqb_refl. now rewrite lastIndexOf_from_none.
Qed.

Lemma lastIndexOf_absent c t : occ c t = 0%nat -> lastIndexOf c t = (-1)%Z.
Proof. apply lastIndexOf_from_none. Qed.

Lemma slices_cut c pre post :
  let i := Z.of_nat (length pre) in
  slice_to i (pre ++ c :: post) = pre /\
  slice_from (i + 1) (pre ++ c :: post) = post.
Proof.
  unfold slice_to, slice_from. split.
  - rewrite Nat2Z.id, firstn_app, Nat.sub_diag, firstn_all. simpl.
    apply app_nil_r.
  - replace (Z.to_nat (Z.of_nat (length pre) + 1)) with (length pre + 1)%nat by lia.
    rewrite skipn_app, skipn_all2 by lia.
    replace (length pre + 1 - length pre)%nat with 1%nat by lia.
    reflexivity.
Qed.

Lemma occ_filter_other c d t :
  c <> d -> occ c (filter (fun x => negb (x =? d)) t) = occ c t.
Proof.
  intros H. induction t as [|x t IH]; simpl; [reflexivity|].
  destruct (x =? d) eqn:E; simpl; rewrite ?occ_cons, IH; [|reflexivity].
  apply N.eqb_eq in E. subst x.
  destruct (c =? d) eqn:E'; [apply N.eqb_eq in E'; contradiction | reflexivity].
Qed.

Lemma occ_filter_same c t : occ c (filter (fun x => negb (x =? c)) t) = 0%nat.
Proof.
  induction t as [|x t IH]; simpl; [reflexivity|].
  destruct (x =? c) eqn:E; simpl; [exact IH|].
  rewrite occ_cons, IH, (N.eqb_sym c x), E. reflexivity.
Qed.

Lemma occ_dropWhile_other c p t :
  p c = false -> occ c (dropWhile p t) = occ c t.
Proof.
  intros H. induction t as [|x t IH]; simpl; [reflexivity|].
  destruct (p x) eqn:E; [|reflexivity].
  rewrite occ_cons, IH. destruct (c =? x) eqn:E'; [|reflexivity].
  apply N.eqb_eq in E'. congruence.
Qed.

Lemma dropWhile_Forall (P : code_unit -> Prop) p t :
  Forall P t -> Forall P (dropWhile p t).
Proof.
  induction 1 as [|x t Hx Ht IH]; simpl; [constructor|].
  destruct (p x); [exact IH | now constructor].
Qed.

Lemma dropWhile_id p t :
  Forall (fun c => p c = false) t -> dropWhile p t = t.
Proof. destruct 1 as [|x t Hx Ht]; simpl; [reflexivity | now rewrite Hx]. Qed.

Lemma filter_id (p : code_unit -> bool) t :
  Forall (fun c => p c = true) t -> filter p t = t.
Proof. induction 1 as [|x t Hx Ht IH]; simpl; [|rewrite Hx, IH]; reflexivity. Qed.

Lemma trim_id t : Forall (fun c => isWhiteSpace c = false) t -> trim t = t.
Proof.
  intros H. unfold trim. rewrite (dropWhile_id _ t H), dropWhile_id.
  - apply rev_involutive.
  - now apply Forall_rev.
Qed.

End StringFacts.

(** * Facts about the normalizer *)

Section NormalizerFacts.

Lemma normalize_unfold token :
  normalizeNumberToken token =
  let t := stripped token in
  if isEmpty t then []
  else stripZeros (if includes ch_dot t && includes ch_comma t
                   then bothSeparators t else oneSeparator t).
Proof. reflexivity. Qed.

Lemma stripped_numeric token : numeric (stripped token).
Proof.
  unfold numeric, stripped, removeAll. apply Forall_forall. intros c H.
  apply filter_In in H. destruct H as [_ H]. now apply negb_true_iff, negb_false_iff in H.
Qed.

Lemma numeric_not_space c : isNumChar c = true -> isWhiteSpace c = false.
Proof.
  unfold isNumChar, isWhiteSpace, isDigit, ch_dot, ch_comma. intros H.
  repeat rewrite orb_true_iff in H. rewrite andb_true_iff in H.
  repeat rewrite orb_false_iff. repeat rewrite andb_false_iff.
  repeat rewrite N.leb_le in H. repeat rewrite N.eqb_eq in H.
  repeat rewrite N.leb_gt. repeat rewrite N.eqb_neq. lia.
Qed.

Lemma stripped_id t : numeric t -> stripped t = t.
Proof.
  intros H. unfold stripped, removeAll.
  assert (Hs : Forall (fun c => isWhiteSpace c = false) t).
  { eapply Forall_impl; [|exact H]. apply numeric_not_space. }
  rewrite (trim_id t Hs). rewrite (filter_id _ t).
  - apply filter_id. eapply Forall_impl; [|exact H].
    intros c Hc. simpl. now rewrite Hc.
  - eapply Forall_impl; [|exact Hs]. intros c Hc. simpl. now rewrite Hc.
Qed.

(** *** The branch for two kinds of separators *)

Lemma bothSeparators_cut t :
  includes ch_dot t = true -> includes ch_comma t = true ->
  let d := decimalSeparator t in
  let th := if d =? ch_dot then ch_comma else ch_dot in
  exists pre post,
    filter (fun x => negb (x =? th)) t = pre ++ d :: post
    /\ occ d post = 0%nat
    /\ bothSeparators t = pre ++ ch_dot :: post.
Proof.
  intros Hd Hc d th.
  assert (Hdth : d <> th).
  { subst th d. unfold decimalSeparator.
    destruct (_ <? _)%Z; simpl; discriminate. }
  assert (Hin : (0 < occ d t)%nat).
  { subst d. unfold decimalSeparator.
    destruct (_ <? _)%Z; now apply includes_occ. }
  destruct (last_occurrence d (filter (fun x => negb (x =? th)) t))
    as (pre & post & Hcut & Hpost).
  { now rewrite occ_filter_other. }
  exists pre, post. repeat split; trivial.
  unfold bothSeparators. fold (decimalSeparator t). fold d. fold th.
  rewrite join_split, Hcut, (lastIndexOf_cut d pre post Hpost).
  destruct (slices_cut d pre post) as [-> ->].
  destruct (Z.eqb_spec (Z.of_nat (length pre)) (-1)); [lia | reflexivity].
Qed.

(** The commas and dots of the result, by the separator chosen. *)
Lemma bothSeparators_counts t :
  includes ch_dot t = true -> includes ch_comma t = true ->
  if decimalSeparator t =? ch_dot
  then occ ch_comma (bothSeparators t) = 0%nat
       /\ occ ch_dot (bothSeparators t) = occ ch_dot t
  else S (occ ch_comma (bothSeparators t)) = occ ch_comma t
       /\ occ ch_dot (bothSeparators t) = 1%nat.
Proof.
  intros Hd Hc.
  destruct (bothSeparators_cut t Hd Hc) as (pre & post & Hcut & Hpost & ->).
  unfold decimalSeparator in *.
  destruct (_ <? _)%Z; simpl in Hcut, Hpost |- *.
  - assert (H1 := occ_filter_same ch_comma t).
    assert (H2 := occ_filter_other ch_dot ch_comma t ltac:(discriminate)).
    rewrite Hcut in H1, H2. rewrite ?occ_app, ?occ_cons in *.
    change (ch_comma =? ch_dot) with false in *.
    change (ch_dot =? ch_comma) with false in *.
    rewrite ?N.eqb_refl in *. cbv iota in *. lia.
  - assert (H1 := occ_filter_same ch_dot t).
    assert (H2 := occ_filter_other ch_comma ch_dot t ltac:(discriminate)).
    rewrite Hcut in H1, H2. rewrite ?occ_app, ?occ_cons in *.
    change (ch_comma =? ch_dot) with false in *.
    change (ch_dot =? ch_comma) with false in *.
    rewrite ?N.eqb_refl in *. cbv iota in *. lia.
Qed.

Lemma bothSeparators_numeric t :
  numeric t -> includes ch_dot t = true -> includes ch_comma t = true ->
  numeric (bothSeparators t).
Proof.
  intros Hn Hd Hc.
  destruct (bothSeparators_cut t Hd Hc) as (pre & post & Hcut & _ & ->).
  assert (H : numeric (pre ++ decimalSeparator t :: post)).
  { rewrite <- Hcut. apply Forall_forall. intros c Hin.
    apply filter_In in Hin. destruct Hin as [Hin _].
    revert c Hin. now apply Forall_forall. }
  apply Forall_app in H. destruct H as [Hpre Hpost].
  apply Forall_app. split; [exact Hpre|].
  constructor; [reflexivity | now inversion Hpost].
Qed.

(** *** The branch for one kind of separator *)

Lemma occ_replaceAll_comma t : occ ch_comma (replaceAll ch_comma ch_dot t) = 0%nat.
Proof.
  induction t as [|x t IH]; simpl; [reflexivity|].
  rewrite occ_cons, IH. destruct (x =? ch_comma) eqn:E; [reflexivity|].
  now rewrite (N.eqb_sym ch_comma x), E.
Qed.

Lemma replaceAll_id a b t : occ a t = 0%nat -> replaceAll a b t = t.
Proof.
  induction t as [|x t IH]; simpl; [reflexivity|].
  rewrite occ_cons, (N.eqb_sym a x). destruct (x =? a); [discriminate|].
  simpl. intros H. now rewrite IH.
Qed.

Lemma oneSeparator_cut t :
  let t1 := replaceAll ch_comma ch_dot t in
  if (2 <=? occ ch_dot t1)%nat
  then exists pre post,
      t1 = pre ++ ch_dot :: post /\ occ ch_dot post = 0%nat
      /\ oneSeparator t =
         filter (fun x => negb (x =? ch_dot)) pre ++ ch_dot :: post
  else oneSeparator t = t1.
Proof.
  intros t1. unfold oneSeparator. fold t1. rewrite split_length.
  destruct (Nat.leb_spec 2 (occ ch_dot t1)) as [H|H].
  - destruct (last_occurrence ch_dot t1) as (pre & post & Hcut & Hpost); [lia|].
    exists pre, post. repeat split; trivial.
    destruct (Nat.ltb_spec 2 (S (occ ch_dot t1))); [|lia].
    rewrite Hcut, split_app, (split_none _ post Hpost).
    now rewrite removelast_last, last_last, join_split.
  - destruct (Nat.ltb_spec 2 (S (occ ch_dot t1))); [lia | reflexivity].
Qed.

Lemma oneSeparator_canonical t : canonical (oneSeparator t).
Proof.
  assert (H := oneSeparator_cut t). cbv zeta in H.
  assert (Hc := occ_replaceAll_comma t).
  destruct (Nat.leb_spec 2 (occ ch_dot (replaceAll ch_comma ch_dot t))) as [L|L].
  - destruct H as (pre & post & Hcut & Hpost & ->).
    rewrite Hcut, occ_app, occ_cons in Hc. simpl in Hc.
    split.
    + apply includes_false_occ. rewrite occ_app, occ_cons.
      rewrite occ_filter_other by discriminate. simpl. lia.
    + rewrite occ_app, occ_cons, occ_filter_same. simpl. lia.
  - rewrite H. split; [now apply includes_false_occ | lia].
Qed.

Lemma replaceAll_numeric t : numeric t -> numeric (replaceAll ch_comma ch_dot t).
Proof.
  intros H. unfold replaceAll. apply Forall_map.
  eapply Forall_impl; [|exact H]. intros c Hc. simpl.
  destruct (c =? ch_comma); [reflexivity | exact Hc].
Qed.

Lemma oneSeparator_numeric t : numeric t -> numeric (oneSeparator t).
Proof.
  intros Hn. apply replaceAll_numeric in Hn.
  assert (H := oneSeparator_cut t). cbv zeta in H.
  destruct (2 <=? _)%nat.
  - destruct H as (pre & post & Hcut & _ & ->). rewrite Hcut in Hn.
    apply Forall_app in Hn. destruct Hn as [Hpre Hpost].
    apply Forall_app. split; [|exact Hpost].
    apply Forall_forall. intros c Hin. apply filter_In in Hin.
    destruct Hin as [Hin _]. revert c Hin. now apply Forall_forall.
  - now rewrite H.
Qed.

Lemma oneSeparator_id t : numeric t -> canonical t -> oneSeparator t = t.
Proof.
  intros _ [Hc Hd]. apply includes_false_occ in Hc.
  assert (H := oneSeparator_cut t). cbv zeta in H.
  rewrite (replaceAll_id _ _ t Hc) in H.
  destruct (Nat.leb_spec 2 (occ ch_dot t)); [lia | exact H].
Qed.

(** *** Leading zeros *)

Lemma leadingZeros_dropped t :
  leadingZeros (dropWhile (N.eqb ch_zero) t) = false.
Proof.
  induction t as [|x t IH]; [reflexivity|].
  cbn [dropWhile]. destruct (ch_zero =? x) eqn:E; [exact IH|].
  cbn [leadingZeros]. now rewrite (N.eqb_sym x ch_zero), E.
Qed.

Lemma stripZeros_idem t : stripZeros (stripZeros t) = stripZeros t.
Proof.
  unfold stripZeros at 2 3.
  destruct (leadingZeros t && negb (zeroDot t)) eqn:E.
  - unfold stripZeros. now rewrite leadingZeros_dropped.
  - unfold stripZeros. now rewrite E.
Qed.

Lemma stripZeros_occ c t : c <> ch_zero -> occ c (stripZeros t) = occ c t.
Proof.
  intros H. unfold stripZeros. destruct (_ && _); [|reflexivity].
  apply occ_dropWhile_other. now apply N.eqb_neq, not_eq_sym.
Qed.

Lemma stripZeros_numeric t : numeric t -> numeric (stripZeros t).
Proof.
  intros H. unfold stripZeros. destruct (_ && _); [|exact H].
  now apply dropWhile_Forall.
Qed.

Lemma stripZeros_canonical t : canonical (stripZeros t) <-> canonical t.
Proof.
  unfold canonical. rewrite !includes_false_occ.
  now rewrite !stripZeros_occ by discriminate.
Qed.

(** *** The normalizer as a whole *)

Lemma normalize_numeric token : numeric (normalizeNumberToken token).
Proof.
  rewrite normalize_unfold. cbv zeta.
  assert (Hn := stripped_numeric token).
  destruct (isEmpty (stripped token)); [constructor|].
  apply stripZeros_numeric.
  destruct (includes ch_dot _) eqn:Hd, (includes ch_comma _) eqn:Hc; simpl;
    auto using bothSeparators_numeric, oneSeparator_numeric.
Qed.

Lemma normalize_stable token :
  stripZeros (normalizeNumberToken token) = normalizeNumberToken token.
Proof.
  rewrite normalize_unfold. cbv zeta.
  destruct (isEmpty (stripped token)); [reflexivity | apply stripZeros_idem].
Qed.

(** A canonical string of digits and separators without superfluous
    leading zeros is its own normal form. *)
Lemma normalize_fixed u :
  numeric u -> canonical u -> stripZeros u = u -> normalizeNumberToken u = u.
Proof.
  intros Hn Hc Hz. rewrite normalize_unfold. cbv zeta.
  rewrite (stripped_id u Hn).
  destruct u as [|c u]; [reflexivity|].
  cbn [isEmpty]. destruct Hc as [Hc Hd]. rewrite Hc, andb_false_r.
  rewrite oneSeparator_id; [exact Hz | exact Hn | now split].
Qed.

Lemma normalize_canonical_iff token :
  canonical (normalizeNumberToken token) <-> singleDecimal token = true.
Proof.
  rewrite normalize_unfold. unfold singleDecimal. cbv zeta.
  set (t := stripped token).
  destruct (isEmpty t) eqn:He.
  { destruct t; [|discriminate]. simpl. split; [reflexivity|].
    intros _. split; [reflexivity | unfold occ; simpl; lia]. }
  rewrite stripZeros_canonical.
  destruct (includes ch_dot t) eqn:Hd, (includes ch_comma t) eqn:Hc; simpl;
    try (split; [reflexivity | intros _; apply oneSeparator_canonical]).
  assert (H := bothSeparators_counts t Hd Hc).
  apply includes_occ in Hd, Hc. unfold canonical.
  rewrite includes_false_occ, Nat.eqb_eq.
  unfold decimalSeparator in *. destruct (_ <? _)%Z; simpl in H |- *; lia.
Qed.

(** *** The result of the normalizer has a single decimal separator *)

Lemma lastIndexOf_from_lt c t i acc :
  (acc < i)%Z -> (lastIndexOf_from c t i acc < i + Z.of_nat (length t))%Z.
Proof.
  revert i acc. induction t as [|x t IH]; intros i acc H; cbn [lastIndexOf_from length].
  - lia.
  - specialize (IH (i + 1)%Z (if x =? c then i else acc)).
    destruct (x =? c); lia.
Qed.

Lemma lastIndexOf_lt c t : (lastIndexOf c t < Z.of_nat (length t))%Z.
Proof. apply (lastIndexOf_from_lt c t 0 (-1)). lia. Qed.

Lemma lastIndexOf_app_absent c a b :
  occ c b = 0%nat -> lastIndexOf c (a ++ b) = lastIndexOf c a.
Proof.
  intros H. unfold lastIndexOf.
  now rewrite lastIndexOf_from_app, lastIndexOf_from_none.
Qed.

Lemma dropWhile_app p a c b :
  p c = false -> dropWhile p (a ++ c :: b) = dropWhile p a ++ c :: b.
Proof.
  intros H. induction a as [|x a IH]; cbn [dropWhile app].
  - now rewrite H.
  - destruct (p x); [exact IH | reflexivity].
Qed.

Lemma stripZeros_app a b :
  exists a', stripZeros (a ++ ch_dot :: b) = a' ++ ch_dot :: b
             /\ forall c, c <> ch_zero -> occ c a' = occ c a.
Proof.
  unfold stripZeros. destruct (_ && _).
  - exists (dropWhile (N.eqb ch_zero) a). split.
    + now apply dropWhile_app.
    + intros c Hc. apply occ_dropWhile_other.
      now apply N.eqb_neq, not_eq_sym.
  - now exists a.
Qed.

Lemma normalize_singleDecimal token :
  singleDecimal (normalizeNumberToken token) = true.
Proof.
  unfold singleDecimal. rewrite (stripped_id _ (normalize_numeric token)).
  destruct (includes ch_dot _) eqn:Hd; [|reflexivity].
  destruct (includes ch_comma _) eqn:Hc; [|reflexivity].
  cbn [andb]. apply Nat.eqb_eq. revert Hd Hc.
  rewrite normalize_unfold. cbv zeta. set (t := stripped token).
  destruct (isEmpty t); [discriminate|].
  destruct (includes ch_dot t) eqn:Hdt, (includes ch_comma t) eqn:Hct;
    cbn [andb];
    try (intros _ Hc; exfalso;
         pose proof (proj2 (stripZeros_canonical _) (oneSeparator_canonical t))
           as [Hk _]; congruence).
  intros _ Hc.
  pose proof (bothSeparators_counts t Hdt Hct) as Hn.
  destruct (bothSeparators_cut t Hdt Hct) as (pre & post & Hcut & Hpost & Hb).
  apply includes_occ in Hc. rewrite stripZeros_occ in Hc by discriminate.
  unfold decimalSeparator in Hcut, Hpost, Hn.
  destruct (lastIndexOf ch_comma t <? lastIndexOf ch_dot t)%Z;
    cbv iota in Hcut, Hpost, Hn;
    [rewrite N.eqb_refl in Hn; lia|].
  change (ch_comma =? ch_dot) with false in Hcut, Hn.
  cbv iota in Hcut, Hn.
  pose proof (occ_filter_same ch_dot t) as Hnd. rewrite Hcut in Hnd.
  rewrite occ_app, occ_cons in Hnd.
  rewrite Hb. destruct (stripZeros_app pre post) as (pre' & -> & Hocc).
  assert (Hdp : occ ch_dot pre' = 0%nat) by (rewrite Hocc by discriminate; lia).
  assert (Hdq : occ ch_dot post = 0%nat) by lia.
  assert (Hlast : decimalSeparator (pre' ++ ch_dot :: post) = ch_dot).
  { unfold decimalSeparator.
    rewrite (lastIndexOf_cut ch_dot pre' post Hdq).
    rewrite (lastIndexOf_app_absent ch_comma pre' (ch_dot :: post))
      by (rewrite occ_cons; change (ch_comma =? ch_dot) with false;
          cbv iota; lia).
    pose proof (lastIndexOf_lt ch_comma pre') as Hlt.
    now apply Z.ltb_lt in Hlt as ->. }
  rewrite Hlast, occ_app, occ_cons, N.eqb_refl. lia.
Qed.

End NormalizerFacts.


(** * Facts about numbers *)

Section NumberFacts.
Local Open Scope Z_scope.

Lemma grid_pos : 0 < grid.
Proof. reflexivity. Qed.

Lemma max_finite_large : 100 * grid < max_finite.
Proof. reflexivity. Qed.

Lemma nearest_even_bounds n d :
  0 <= n -> 0 < d -> n / d <= nearest_even n d <= n / d + 1.
Proof.
  intros Hn Hd. unfold nearest_even.
  destruct (2 * (n mod d) ?= d); cbv iota;
    [destruct (Z.even (n / d))| |]; lia.
Qed.

Lemma nearest_even_zero d : 0 < d -> nearest_even 0 d = 0.
Proof.
  intros Hd. unfold nearest_even. rewrite Z.mod_0_l, Z.div_0_l by lia.
  simpl. destruct d; try lia; reflexivity.
Qed.

(** The exponent shift of [round64] leaves at least one significant bit. *)
Lemma shift_le q : 0 <= q -> 2 ^ Z.max 0 (Z.log2 q + 1 - 53) <= Z.max 1 q.
Proof.
  intros Hq. destruct (Z.max_spec 0 (Z.log2 q + 1 - 53)) as [[H ->]|[H ->]].
  - assert (0 < q) by (destruct (Z.eq_dec q 0) as [->|]; [simpl in H; lia | lia]).
    assert (2 ^ (Z.log2 q + 1 - 53) <= 2 ^ Z.log2 q)
      by (apply Z.pow_le_mono_r; lia).
    pose proof (Z.log2_spec q ltac:(lia)). lia.
  - simpl. lia.
Qed.

Lemma round64_finite_or_inf n d : round64 n d <> NaN.
Proof. unfold round64. destruct (_ <? _); discriminate. Qed.

(** Rounding an integer number of grid units keeps its sign: a value
    that is not zero is not rounded to zero. *)
Lemma round64_unit_sign n :
  match round64 n 1 with
  | NaN => False
  | Inf s => s = (n <? 0) /\ n <> 0
  | Fin u => Z.sgn u = Z.sgn n
  end.
Proof.
  unfold round64. rewrite Z.div_1_r, Z.mul_1_l.
  set (a := Z.abs n). set (k := Z.max 0 (Z.log2 a + 1 - 53)).
  assert (Hk : 0 < 2 ^ k) by (apply Z.pow_pos_nonneg; unfold k; lia).
  assert (Ha : 0 <= a) by (unfold a; lia).
  assert (Hs : 2 ^ k <= Z.max 1 a) by (apply shift_le; exact Ha).
  pose proof (nearest_even_bounds a (2 ^ k) Ha Hk) as [Hlo _].
  destruct (Z.eq_dec n 0) as [->|Hn].
  - change a with 0. rewrite nearest_even_zero by exact Hk. reflexivity.
  - assert (0 < a / 2 ^ k) by (apply Z.div_str_pos; unfold a in *; lia).
    destruct (_ <? _); [split; [reflexivity | exact Hn]|].
    rewrite Z.sgn_mul, Z.sgn_sgn.
    rewrite (Z.sgn_pos (_ * _)) by (apply Z.mul_pos_pos; lia). lia.
Qed.

(** A quotient of moderate size is rounded to a finite value of about
    that size. *)
Lemma round64_bound n d B :
  0 < d -> Z.abs n / d <= B -> 2 * B + 1 <= max_finite ->
  exists u, round64 n d = Fin u /\ Z.abs u <= 2 * B + 1 /\ (0 <= n -> 0 <= u).
Proof.
  intros Hd HB Hmax. unfold round64.
  set (a := Z.abs n). fold a in HB. set (q := a / d) in *.
  set (k := Z.max 0 (Z.log2 q + 1 - 53)).
  assert (Ha : 0 <= a) by (unfold a; lia).
  assert (Hq : 0 <= q) by (apply Z.div_pos; lia).
  assert (Hk : 0 < 2 ^ k) by (apply Z.pow_pos_nonneg; unfold k; lia).
  assert (Hs : 2 ^ k <= Z.max 1 q) by (apply shift_le; exact Hq).
  assert (HD : 0 < d * 2 ^ k) by (apply Z.mul_pos_pos; lia).
  pose proof (nearest_even_bounds a (d * 2 ^ k) Ha HD) as [Hlo Hhi].
  rewrite <- Z.div_div in Hlo, Hhi by lia. fold q in Hlo, Hhi.
  pose proof (Z.mul_div_le q (2 ^ k) Hk) as Hm.
  assert (Hq' : 0 <= q / 2 ^ k) by (apply Z.div_pos; lia).
  set (m := nearest_even a (d * 2 ^ k)) in *.
  assert (Hu : 0 <= m * 2 ^ k <= 2 * q + 1) by nia.
  destruct (Z.ltb_spec max_finite (m * 2 ^ k)); [lia|].
  eexists. split; [reflexivity|]. split.
  - destruct (Z.sgn_spec n) as [[_ ->]|[[_ ->]|[_ ->]]]; lia.
  - intros H0. destruct (Z.sgn_spec n) as [[_ ->]|[[_ ->]|[? _]]]; lia.
Qed.

Lemma ofZ_0 : ofZ 0 = Fin 0.
Proof. reflexivity. Qed.

Lemma ofZ_1 : ofZ 1 = Fin grid.
Proof. vm_compute. reflexivity. Qed.

Lemma ofZ_2 : ofZ 2 = Fin (2 * grid).
Proof. vm_compute. reflexivity. Qed.

Lemma ofZ_10 : ofZ 10 = Fin (10 * grid).
Proof. vm_compute. reflexivity. Qed.

Lemma ofZ_100000 : ofZ 100000 = Fin (100000 * grid).
Proof. vm_compute. reflexivity. Qed.

(** Subtraction of finite numbers tells them apart and orders them. *)
Lemma sub_truthy a b : truthy (sub (Fin b) (Fin a)) = negb (b =? a).
Proof.
  unfold sub, neg, add. pose proof (round64_unit_sign (b + - a)) as H.
  destruct (round64 (b + - a) 1) as [|s|u]; [contradiction| |]; simpl.
  - destruct H as [_ H]. symmetry. apply negb_true_iff, Z.eqb_neq. lia.
  - destruct (Z.eqb_spec u 0) as [->|Hu], (Z.eqb_spec b a) as [->|Hba];
      simpl; try reflexivity; exfalso.
    + simpl in H. destruct (Z.sgn_spec (b + - a)) as [[? ?]|[[? ?]|[? ?]]]; lia.
    + rewrite Z.add_opp_diag_r in H. simpl in H.
      destruct (Z.sgn_spec u) as [[? ?]|[[? ?]|[? ?]]]; lia.
Qed.

Lemma sub_positive a b : ltb (ofZ 0) (sub (Fin b) (Fin a)) = (a <? b).
Proof.
  rewrite ofZ_0. unfold sub, neg, add.
  pose proof (round64_unit_sign (b + - a)) as H.
  destruct (round64 (b + - a) 1) as [|s|u]; [contradiction| |]; simpl.
  - destruct H as [-> Hne]. destruct (Z.ltb_spec (b + - a) 0), (Z.ltb_spec a b);
      simpl; try reflexivity; lia.
  - destruct (Z.ltb_spec 0 u), (Z.ltb_spec a b); try reflexivity; exfalso;
      destruct (Z.sgn_spec u) as [[? ?]|[[? ?]|[? ?]]];
      destruct (Z.sgn_spec (b + - a)) as [[? ?]|[[? ?]|[? ?]]]; lia.
Qed.

End NumberFacts.

(** * Facts about the extractor *)

Section ExtractorFacts.
Local Open Scope Z_scope.

(** *** Scores are finite *)

Lemma ofZ_nonneg n :
  0 <= n -> ofZ n = Inf false \/ exists u, ofZ n = Fin u /\ 0 <= u.
Proof.
  intros Hn. unfold ofZ. pose proof grid_pos as Hg.
  pose proof (round64_unit_sign (n * grid)) as H.
  destruct (round64 (n * grid) 1) as [|s|u]; [contradiction| |].
  - left. destruct H as [-> _]. f_equal. apply Z.ltb_ge. nia.
  - right. exists u. split; [reflexivity|].
    destruct (Z.sgn_spec u) as [[? ?]|[[? ?]|[? ?]]];
      destruct (Z.sgn_spec (n * grid)) as [[? ?]|[[? ?]|[? ?]]]; nia.
Qed.

Lemma tokenLen_finite (len : nat) :
  exists u,
    div (Number.min (ofZ (Z.of_nat len)) (ofZ 10)) (ofZ 10) = Fin u
    /\ 0 <= u <= 2 * grid + 1.
Proof.
  pose proof grid_pos as Hg. pose proof max_finite_large as Hmax.
  assert (Hm : exists v, Number.min (ofZ (Z.of_nat len)) (ofZ 10) = Fin v
                         /\ 0 <= v <= 10 * grid).
  { rewrite ofZ_10.
    destruct (ofZ_nonneg (Z.of_nat len) ltac:(lia)) as [->|(u & -> & Hu)].
    - exists (10 * grid). split; [reflexivity | lia].
    - unfold Number.min, ltb. destruct (Z.ltb_spec (10 * grid) u).
      + exists (10 * grid). split; [reflexivity | lia].
      + exists u. split; [reflexivity | lia]. }
  destruct Hm as (v & -> & Hv). rewrite ofZ_10. unfold div.
  destruct (Z.eqb_spec (10 * grid) 0); [lia|].
  rewrite Z.sgn_pos, Z.mul_1_l, (Z.abs_eq (10 * grid)) by lia.
  destruct (round64_bound (v * grid) (10 * grid) grid) as (u & -> & Hu & Hp);
    [lia| |lia|].
  - rewrite Z.abs_eq by nia. apply Z.div_le_upper_bound; nia.
  - exists u. split; [reflexivity|]. specialize (Hp ltac:(nia)). lia.
Qed.

Lemma scoreOf_finite val norm : exists s, scoreOf val norm = Fin s.
Proof.
  unfold scoreOf. pose proof grid_pos as Hg. pose proof max_finite_large as Hmax.
  destruct (tokenLen_finite (length norm)) as (u & -> & Hu).
  assert (Hb : forall b b' : bool,
             exists c, add (mul (ofBool b) (ofZ 2)) (mul (ofBool b') (ofZ 2))
                       = Fin c /\ 0 <= c <= 4 * grid).
  { intros b b'.
    destruct b, b'; eexists; (split; [vm_compute; reflexivity|]);
      split; (discriminate || (intros E; vm_compute in E; discriminate)). }
  destruct (Hb (endsInDecimals norm)
               (geb val (ofDecimal 2 (-1)) && leb val (ofZ 5000)))
    as (c & -> & Hc).
  unfold add.
  destruct (round64_bound (c + u) 1 (6 * grid + 1)) as (w & -> & _);
    [lia| |lia|].
  - rewrite Z.div_1_r. lia.
  - now exists w.
Qed.

(** *** What the loop accepts *)

Lemma candidateOf_spec tok c :
  candidateOf tok = Some c ->
  normalized c = normalizeNumberToken tok
  /\ normalized c <> []
  /\ value c = parseFloat (normalized c)
  /\ score c = scoreOf (value c) (normalized c)
  /\ inRange (value c)
  /\ finiteCandidate c.
Proof.
  unfold candidateOf, inRange.
  destruct (isEmpty (normalizeNumberToken tok)) eqn:He;
    [intros H; discriminate H|].
  destruct (scoreOf_finite (parseFloat (normalizeNumberToken tok))
              (normalizeNumberToken tok)) as (s & Hs).
  destruct (parseFloat (normalizeNumberToken tok)) as [| |v] eqn:Hv;
    cbn [isFinite negb]; try (intros H; discriminate H).
  rewrite ofZ_0, ofZ_100000.
  destruct (leb (Fin v) (Fin 0) || geb (Fin v) (Fin (100000 * grid))) eqn:Hr;
    [intros H; discriminate H|].
  intros [= <-]. cbn [value normalized score]. rewrite Hv.
  apply orb_false_iff in Hr. destruct Hr as [Hr Hr'].
  unfold geb, leb, ltb, eqb in *.
  apply orb_false_iff in Hr, Hr'.
  destruct Hr as [Hr1 Hr2], Hr' as [Hr3 Hr4].
  apply Z.ltb_ge in Hr1, Hr3. apply Z.eqb_neq in Hr2, Hr4.
  repeat split; trivial.
  - intros E. now rewrite E in He.
  - apply Z.ltb_lt. lia.
  - apply Z.ltb_lt. lia.
  - now exists s, v.
Qed.

Lemma candidatesOf_spec tokens c :
  In c (candidatesOf tokens) -> exists tok, In tok tokens /\ candidateOf tok = Some c.
Proof.
  unfold candidatesOf. intros H. apply in_flat_map in H.
  destruct H as (tok & Hin & H). exists tok. split; [exact Hin|].
  destruct (candidateOf tok); simpl in H; [|contradiction].
  destruct H as [->|[]]. reflexivity.
Qed.

(** *** The loop keeps the first candidate of each key *)

Lemma collect_firsts tokens seen amounts :
  collect tokens seen amounts = amounts ++ firsts (candidatesOf tokens) seen.
Proof.
  revert seen amounts.
  induction tokens as [|tok rest IH]; intros seen amounts;
    [symmetry; apply app_nil_r|].
  cbn [collect candidatesOf flat_map]. fold (candidatesOf rest).
  unfold candidateOf.
  destruct (isEmpty (normalizeNumberToken tok)); [apply IH|].
  destruct (negb (isFinite _)); [apply IH|].
  destruct (leb _ _ || geb _ _); [apply IH|].
  cbn [app firsts keyOf value].
  destruct (has seen _); [apply IH|].
  rewrite IH, <- app_assoc. reflexivity.
Qed.

Lemma strEq_true a b : strEq a b = true <-> a = b.
Proof. unfold strEq. destruct (list_eq_dec N.eq_dec a b); split; congruence. Qed.

Lemma has_cons seen k k' :
  has (k :: seen) k' = false -> k <> k' /\ has seen k' = false.
Proof.
  unfold has. cbn [existsb]. intros H. apply orb_false_iff in H.
  destruct H as [H H']. split; [|exact H'].
  destruct (list_eq_dec N.eq_dec k k'); [discriminate | assumption].
Qed.

Lemma has_In seen k : has seen k = true <-> In k seen.
Proof.
  unfold has. rewrite existsb_exists. split.
  - intros (x & Hin & H). destruct (list_eq_dec N.eq_dec x k); [now subst|discriminate].
  - intros H. exists k. split; [exact H|].
    destruct (list_eq_dec N.eq_dec k k); [reflexivity | contradiction].
Qed.

Lemma firsts_fresh cs seen c :
  In c (firsts cs seen) -> In c cs /\ has seen (keyOf c) = false.
Proof.
  revert seen. induction cs as [|x cs IH]; intros seen; [contradiction|].
  cbn [firsts]. destruct (has seen (keyOf x)) eqn:Hx.
  - intros H. apply IH in H. destruct H. split; [now right | assumption].
  - intros [<-|H]; [split; [now left | exact Hx]|].
    apply IH in H. destruct H as [Hin H]. apply has_cons in H.
    split; [now right | tauto].
Qed.

Lemma firsts_NoDup cs seen : NoDup (map keyOf (firsts cs seen)).
Proof.
  revert seen. induction cs as [|x cs IH]; intros seen; [constructor|].
  cbn [firsts]. destruct (has seen (keyOf x)); [apply IH|].
  cbn [map]. constructor; [|apply IH].
  intros H. apply in_map_iff in H. destruct H as (c & Hk & Hin).
  apply firsts_fresh in Hin. destruct Hin as [_ Hin].
  apply has_cons in Hin. destruct Hin as [Hne _]. congruence.
Qed.

Lemma firsts_first cs seen c :
  In c (firsts cs seen) ->
  find (fun p => strEq (keyOf p) (keyOf c)) cs = Some c.
Proof.
  revert seen. induction cs as [|x cs IH]; intros seen; [contradiction|].
  cbn [firsts find]. destruct (has seen (keyOf x)) eqn:Hx.
  - intros H. destruct (strEq (keyOf x) (keyOf c)) eqn:E.
    + apply strEq_true in E. apply firsts_fresh in H. destruct H as [_ H].
      congruence.
    + now apply IH in H.
  - intros [<-|H].
    + now rewrite (proj2 (strEq_true _ _) eq_refl).
    + destruct (strEq (keyOf x) (keyOf c)) eqn:E.
      * apply strEq_true in E. apply firsts_fresh in H. destruct H as [_ H].
        apply has_cons in H. tauto.
      * now apply IH in H.
Qed.

(** *** The comparator on finite candidates *)

Lemma compareFn_positive a b sa va sb vb :
  score a = Fin sa -> value a = Fin va ->
  score b = Fin sb -> value b = Fin vb ->
  ltb (ofZ 0) (compareFn a b) = if sb =? sa then va <? vb else sa <? sb.
Proof.
  intros Ha Ha' Hb Hb'. unfold compareFn. rewrite Ha, Ha', Hb, Hb'.
  rewrite sub_truthy. destruct (sb =? sa); cbn [negb]; apply sub_positive.
Qed.

Lemma ranked_finite a b sa va sb vb :
  score a = Fin sa -> value a = Fin va ->
  score b = Fin sb -> value b = Fin vb ->
  ranked a b <-> sb < sa \/ (sa = sb /\ vb <= va).
Proof.
  intros Ha Ha' Hb Hb'. unfold ranked. rewrite Ha, Ha', Hb, Hb'.
  unfold leb, ltb, eqb. rewrite orb_true_iff, Z.ltb_lt, Z.ltb_lt, Z.eqb_eq.
  split; intros [H|[H H']]; try (left; lia).
  - injection H as ->. right; lia.
  - subst. right. split; [reflexivity | lia].
Qed.

Lemma insertSorted_In cmp x l y :
  In y (insertSorted cmp x l) <-> y = x \/ In y l.
Proof.
  induction l as [|z l IH]; cbn [insertSorted].
  - simpl. intuition.
  - destruct (ltb _ _); simpl; rewrite ?IH; intuition.
Qed.

Lemma insertSorted_perm cmp x l : Permutation (x :: l) (insertSorted cmp x l).
Proof.
  induction l as [|z l IH]; cbn [insertSorted]; [reflexivity|].
  destruct (ltb _ _); [|reflexivity].
  rewrite perm_swap. now constructor.
Qed.

Lemma sortBy_perm cmp l : Permutation l (sortBy cmp l).
Proof.
  induction l as [|x l IH]; cbn [sortBy fold_right]; [reflexivity|].
  fold (sortBy cmp l). rewrite <- insertSorted_perm. now constructor.
Qed.

Lemma insertSorted_sorted x l :
  finiteCandidate x -> Forall finiteCandidate l ->
  StronglySorted ranked l ->
  StronglySorted ranked (insertSorted compareFn x l).
Proof.
  intros (sx & vx & Hsx & Hvx) Hl Hs.
  induction l as [|y l IH]; cbn [insertSorted]; [repeat constructor|].
  inversion Hl as [|? ? (sy & vy & Hsy & Hvy) Hl']; subst.
  apply StronglySorted_inv in Hs. destruct Hs as [Hs Hy].
  rewrite (compareFn_positive x y sx vx sy vy) by assumption.
  destruct (if sy =? sx then vx <? vy else sx <? sy) eqn:E.
  - constructor; [now apply IH|].
    apply Forall_forall. intros z Hz. apply insertSorted_In in Hz.
    destruct Hz as [->|Hz]; [|apply (proj1 (Forall_forall _ _) Hy z Hz)].
    apply (ranked_finite y x sy vy sx vx); trivial.
    destruct (Z.eqb_spec sy sx); [apply Z.ltb_lt in E | apply Z.ltb_lt in E]; lia.
  - assert (Hxy : sy < sx \/ (sx = sy /\ vy <= vx)).
    { destruct (Z.eqb_spec sy sx); apply Z.ltb_ge in E; lia. }
    constructor; [now constructor|].
    constructor; [now apply (ranked_finite x y sx vx sy vy)|].
    apply Forall_forall. intros z Hz.
    assert (Hyz : ranked y z) by (apply (proj1 (Forall_forall _ _) Hy z Hz)).
    assert (Hfz : finiteCandidate z)
      by (apply (proj1 (Forall_forall _ _) Hl' z Hz)).
    destruct Hfz as (sz & vz & Hsz & Hvz).
    apply (ranked_finite x z sx vx sz vz); trivial.
    apply (ranked_finite y z sy vy sz vz) in Hyz; trivial. lia.
Qed.

Lemma sortBy_sorted l :
  Forall finiteCandidate l -> StronglySorted ranked (sortBy compareFn l).
Proof.
  induction 1 as [|x l Hx Hl IH]; cbn [sortBy fold_right]; [constructor|].
  fold (sortBy compareFn l). apply insertSorted_sorted; trivial.
  apply Forall_forall. intros y Hy.
  apply (Permutation_in _ (Permutation_sym (sortBy_perm compareFn l))) in Hy.
  apply (proj1 (Forall_forall _ _) Hl y Hy).
Qed.

Lemma firstn_sorted {A} (R : A -> A -> Prop) n l :
  StronglySorted R l -> StronglySorted R (firstn n l).
Proof.
  revert n. induction l as [|x l IH]; intros n Hs;
    [rewrite firstn_nil; constructor|].
  destruct n; cbn [firstn]; [constructor|].
  apply StronglySorted_inv in Hs. destruct Hs as [Hs Hx].
  constructor; [now apply IH|].
  apply Forall_forall. intros y Hy.
  assert (In y l).
  { rewrite <- (firstn_skipn n l). apply in_or_app. now left. }
  apply (proj1 (Forall_forall _ _) Hx y H).
Qed.

Lemma firstn_incl {A} n (l : list A) x : In x (firstn n l) -> In x l.
Proof.
  intros H. rewrite <- (firstn_skipn n l). apply in_or_app. now left.
Qed.

End ExtractorFacts.

(** * Facts about the worker singleton and the queue *)

Section ManagerFacts.
Import Manager.
Local Open Scope nat_scope.

Lemma link_eta l : mkLink (owner l) (image l) (engine l) (status l) = l.
Proof. now destruct l. Qed.

Lemma waiting_events q : Forall waiting q -> flat_map linkEvents q = [].
Proof.
  induction 1 as [|l q Hl Hq IH]; [reflexivity|].
  cbn [flat_map]. unfold linkEvents at 1. now rewrite Hl, IH.
Qed.

Lemma waiting_loose prev q : Forall waiting q -> chain looseAfter prev q.
Proof.
  intros H. revert prev. induction H as [|l q Hl Hq IH]; intros prev;
    [exact I|].
  cbn [chain]. rewrite Hl. split; [destruct prev; exact I | apply IH].
Qed.

Lemma chain_pending ok q :
  (forall st, ok BeforePending st -> st = Waiting) ->
  chain ok BeforePending q -> Forall waiting q.
Proof.
  intros Hok. induction q as [|l q IH]; [constructor|].
  cbn [chain]. intros [H Hq]. apply Hok in H. rewrite H in Hq.
  constructor; [exact H | now apply IH].
Qed.

Lemma loose_pending q : chain looseAfter BeforePending q -> Forall waiting q.
Proof. apply chain_pending. now intros []. Qed.

Lemma settled_pending q : chain settledAfter BeforePending q -> Forall waiting q.
Proof. apply chain_pending. now intros []. Qed.

Lemma chain_waiting q : Forall waiting q -> chain settledAfter BeforePending q.
Proof.
  induction 1 as [|l q Hl Hq IH]; [exact I|].
  cbn [chain]. rewrite Hl. split; [exact I | exact IH].
Qed.

Lemma settled_loose prev q :
  chain settledAfter prev q -> chain looseAfter prev q.
Proof.
  revert prev. induction q as [|l q IH]; intros prev; [trivial|].
  cbn [chain]. intros [H Hq]. split; [|now apply IH].
  destruct prev, (status l); trivial; contradiction.
Qed.

Lemma settled_app_waiting prev q l :
  waiting l -> chain settledAfter prev q -> chain looseAfter prev (q ++ [l]).
Proof.
  intros Hl. revert prev. induction q as [|x q IH]; intros prev.
  - intros _. cbn [app chain]. rewrite Hl. split; [destruct prev|]; exact I.
  - cbn [app chain]. intros [H Hq]. split; [|now apply IH].
    destruct prev, (status x); trivial; contradiction.
Qed.

(** *** The reactions *)

Lemma react_pending q : Forall waiting q -> react BeforePending q = (q, []).
Proof.
  induction 1 as [|l q Hl Hq IH]; [reflexivity|].
  cbn [react]. rewrite Hl. cbn [settledAs]. rewrite IH.
  now rewrite <- Hl, link_eta.
Qed.

Lemma linkEvents_mk i b w st :
  linkEvents (mkLink i b w st) =
  match st with
  | Running => [Recognize i w b]
  | Done o => [Recognize i w b; Completed i o]
  | Waiting | Skipped _ => []
  end.
Proof. reflexivity. Qed.

Lemma linkEvents_eq l st :
  status l = st ->
  linkEvents l = linkEvents (mkLink (owner l) (image l) (engine l) st).
Proof. intros <-. now rewrite link_eta. Qed.

Lemma ident_mk l st : ident (mkLink (owner l) (image l) (engine l) st) = ident l.
Proof. reflexivity. Qed.

Lemma quiet_nil : quiet [].
Proof. now split. Qed.

(** The links of a chain after a reaction, with the head unfolded. *)
Ltac relink l Hl :=
  unfold reacted; cbn [chain flat_map map status settledAs];
  rewrite ident_mk, linkEvents_mk, (linkEvents_eq l _ Hl), linkEvents_mk.

Lemma react_rejected e q :
  chain looseAfter (BeforeRejected e) q ->
  exists q', react (BeforeRejected e) q = (q', [])
             /\ reacted (BeforeRejected e) q q' []
             /\ flat_map linkEvents q' = [].
Proof.
  induction q as [|l q IH]; cbn [chain react].
  - intros _. exists []. repeat split.
  - intros [H Hq]. destruct (status l) eqn:Hl; try contradiction;
      cbn [settledAs] in Hq |- *.
    + apply loose_pending in Hq.
      destruct IH as (q' & -> & (Hc & He & _ & Hi) & Hn);
        [now apply waiting_loose|].
      eexists. split; [reflexivity|].
      relink l Hl.
      rewrite Hi, Hn, (waiting_events q Hq).
      repeat split; trivial.
    + cbn in H. subst e0.
      destruct (IH Hq) as (q' & -> & (Hc & He & _ & Hi) & Hn).
      eexists. split; [reflexivity|].
      relink l Hl.
      rewrite Hi, Hn. rewrite Hn in He.
      repeat split; trivial.
Qed.

Lemma react_fulfilled q :
  chain looseAfter BeforeFulfilled q ->
  exists q' t, react BeforeFulfilled q = (q', t)
               /\ reacted BeforeFulfilled q q' t.
Proof.
  induction q as [|l q IH]; cbn [chain react].
  - intros _. exists [], []. repeat split.
  - intros [H Hq]. destruct (status l) as [| |[v|e]|e] eqn:Hl;
      try contradiction; cbn [settledAs] in Hq |- *.
    + apply loose_pending in Hq. rewrite (react_pending q Hq).
      eexists _, _. split; [reflexivity|].
      relink l Hl.
      rewrite (waiting_events q Hq).
      repeat split; trivial.
      apply chain_waiting. exact Hq.
    + apply loose_pending in Hq. rewrite (react_pending q Hq).
      eexists _, _. split; [reflexivity|].
      relink l Hl.
      rewrite (waiting_events q Hq).
      repeat split; trivial.
      apply chain_waiting. exact Hq.
    + destruct (IH Hq) as (q' & t & -> & (Hc & He & Hqt & Hi)).
      eexists _, _. split; [reflexivity|].
      relink l Hl.
      rewrite Hi, He.
      repeat split; trivial; apply Hqt.
    + destruct (react_rejected e q Hq) as (q' & -> & (Hc & He & _ & Hi) & _).
      eexists _, _. split; [reflexivity|].
      relink l Hl.
      rewrite Hi, He.
      repeat split; trivial.
Qed.

(** *** A recognition settles *)

Lemma settle_none o q :
  Forall (fun l => status l <> Running) q -> settleRunning o q = (q, []).
Proof.
  induction 1 as [|l q Hl Hq IH]; [reflexivity|].
  cbn [settleRunning]. rewrite IH. now destruct (status l).
Qed.

Lemma settled_rejected e q :
  chain settledAfter (BeforeRejected e) q ->
  Forall (fun l => status l <> Running) q.
Proof.
  induction q as [|l q IH]; [constructor|].
  cbn [chain]. intros [H Hq]. destruct (status l) eqn:Hl; try contradiction.
  cbn in H. subst e0. constructor; [now rewrite Hl | now apply IH].
Qed.

Lemma settle_fulfilled o q :
  chain settledAfter BeforeFulfilled q ->
  exists q' t, settleRunning o q = (q', t)
               /\ chain looseAfter BeforeFulfilled q'
               /\ flat_map linkEvents q' = flat_map linkEvents q ++ t
               /\ quiet t
               /\ map ident q' = map ident q.
Proof.
  induction q as [|l q IH]; cbn [chain settleRunning].
  - intros _. exists [], []. repeat split.
  - intros [H Hq]. destruct (status l) as [| |[v|e]|e] eqn:Hl;
      try contradiction; cbn [settledAs] in Hq.
    + apply settled_pending in Hq.
      eexists _, _. split; [reflexivity|].
      cbn [chain flat_map map status].
      rewrite ident_mk, linkEvents_mk, (linkEvents_eq l _ Hl), linkEvents_mk.
      rewrite (waiting_events q Hq).
      repeat split; trivial. now apply waiting_loose.
    + destruct (IH Hq) as (q' & t & -> & Hc & He & Hqt & Hi).
      eexists _, _. split; [reflexivity|].
      cbn [chain flat_map map]. rewrite Hl. cbn [settledAs].
      rewrite (linkEvents_eq l _ Hl), linkEvents_mk, Hi, He.
      repeat split; trivial; apply Hqt.
    + rewrite (settle_none o q (settled_rejected e q Hq)).
      eexists _, _. split; [reflexivity|].
      cbn [chain]. rewrite Hl. cbn [settledAs]. rewrite app_nil_r.
      repeat split; trivial. now apply settled_loose.
Qed.

(** *** The invariant *)

Lemma engineLog_app a b : engineLog (a ++ b) = engineLog a ++ engineLog b.
Proof. apply filter_app. Qed.

Lemma creations_app a b : creations (a ++ b) = creations a + creations b.
Proof. unfold creations. now rewrite filter_app, length_app. Qed.

Lemma ident_owner q q' : map ident q' = map ident q -> map owner q' = map owner q.
Proof.
  intros H. apply (f_equal (map (fun x => fst (fst x)))) in H.
  now rewrite !map_map in H.
Qed.

Lemma ident_entry q q' : map ident q' = map ident q -> map entry q' = map entry q.
Proof.
  intros H. apply (f_equal (map (fun x => (fst (fst x), snd (fst x))))) in H.
  now rewrite !map_map in H.
Qed.

Lemma ident_engine q q' w :
  map ident q' = map ident q ->
  Forall (fun l => engine l = w) q -> Forall (fun l => engine l = w) q'.
Proof.
  intros H Hq. apply (f_equal (map snd)) in H. rewrite !map_map in H.
  change (map engine q' = map engine q) in H.
  apply Forall_map with (f := engine) (P := fun x => x = w).
  rewrite H. now apply Forall_map.
Qed.

Lemma ident_nil q' : map ident q' = map ident [] -> q' = [].
Proof. now destruct q'. Qed.

Lemma drain_inv s : InvWith looseAfter s -> Inv (drain s).
Proof.
  intros [Hlog Hchain Hcr Hw]. unfold drain.
  destruct (react_fulfilled (queue s) Hchain)
    as (q' & t & -> & Hc & He & [Hq1 Hq2] & Hi).
  constructor; cbn [log queue workerPromise suspended refused calls].
  - now rewrite engineLog_app, Hlog, Hq1, He.
  - exact Hc.
  - now rewrite creations_app, Hq2, Nat.add_0_r.
  - destruct (workerPromise s) as [[|[w|e]]|].
    + destruct Hw as (Hq & ?). rewrite Hq in Hi. apply ident_nil in Hi.
      now subst q'.
    + destruct Hw as (? & ? & Hq & Ho). repeat split; trivial.
      * now apply (ident_engine _ _ _ Hi).
      * now rewrite (ident_owner _ _ Hi).
    + destruct Hw as (? & Hq & ?). rewrite Hq in Hi. apply ident_nil in Hi.
      now subst q'.
    + destruct Hw as (Hq & ?). rewrite Hq in Hi. apply ident_nil in Hi.
      now subst q'.
Qed.

Lemma runOcr_inv b s : Inv s -> InvWith looseAfter (runOcr b s).
Proof.
  intros [Hlog Hchain Hcr Hw]. unfold runOcr, getWorker.
  destruct (workerPromise s) as [[|[w|e]]|] eqn:Hp;
    cbn [workerPromise queue suspended refused calls log resume fst snd];
    constructor;
    cbn [workerPromise queue suspended refused calls log]; rewrite ?Hp.
  - exact Hlog.
  - now apply settled_loose.
  - exact Hcr.
  - destruct Hw as (Hq & Hr & Hs).
    repeat split; trivial. now rewrite map_app, Hs, seq_S.
  - rewrite flat_map_app. cbn [flat_map]. rewrite linkEvents_mk.
    now rewrite !app_nil_r.
  - now apply settled_app_waiting.
  - exact Hcr.
  - destruct Hw as (Hs & Hr & He & Ho). repeat split; trivial.
    + apply Forall_app. split; [exact He | now repeat constructor].
    + now rewrite map_app, Ho, seq_S.
  - exact Hlog.
  - now apply settled_loose.
  - exact Hcr.
  - destruct Hw as (Hs & Hq & He & Ho). repeat split; trivial.
    + apply Forall_app. split; [exact He | now repeat constructor].
    + now rewrite map_app, Ho, seq_S.
  - rewrite engineLog_app, Hlog. cbn. now rewrite app_nil_r.
  - now apply settled_loose.
  - rewrite creations_app, Hcr. reflexivity.
  - destruct Hw as (Hq & Hs & Hr & Hc). rewrite Hs, Hc. repeat split; trivial.
Qed.

Lemma fold_resume_fulfilled w cs s :
  fold_left (resume (Fulfilled w)) cs s =
  mkState (workerPromise s)
    (queue s ++ map (fun c => mkLink (fst c) (snd c) w Waiting) cs)
    (suspended s) (refused s) (calls s) (log s).
Proof.
  revert s. induction cs as [|c cs IH]; intros s; cbn [fold_left map].
  - rewrite app_nil_r. now destruct s.
  - rewrite IH. cbn [resume workerPromise queue suspended refused calls log].
    now rewrite <- app_assoc.
Qed.

Lemma fold_resume_rejected e cs s :
  fold_left (resume (Rejected e)) cs s =
  mkState (workerPromise s) (queue s) (suspended s)
    (refused s ++ map (fun c => (fst c, e)) cs) (calls s) (log s).
Proof.
  revert s. induction cs as [|c cs IH]; intros s; cbn [fold_left map].
  - rewrite app_nil_r. now destruct s.
  - rewrite IH. cbn [resume workerPromise queue suspended refused calls log].
    now rewrite <- app_assoc.
Qed.

Lemma fresh_links w (cs : list (nat * buffer)) :
  Forall waiting (map (fun c => mkLink (fst c) (snd c) w Waiting) cs).
Proof. apply Forall_map. now apply Forall_forall. Qed.

Lemma initSettles_inv o s : Inv s -> InvWith looseAfter (initSettles o s).
Proof.
  intros HI. pose proof HI as [Hlog Hchain Hcr Hw]. unfold initSettles.
  destruct (workerPromise s) as [[|[w|e]]|] eqn:Hp;
    try (destruct HI; constructor; trivial; now apply settled_loose).
  destruct Hw as (Hq & Hr & Hs). destruct o as [w|e].
  - rewrite fold_resume_fulfilled.
    cbn [workerPromise queue suspended refused calls log]. rewrite Hq.
    cbn [app].
    constructor; cbn [workerPromise queue suspended refused calls log].
    + rewrite Hlog, Hq. symmetry. apply waiting_events, fresh_links.
    + apply waiting_loose, fresh_links.
    + now rewrite Hcr.
    + repeat split; trivial.
      * apply Forall_map. now apply Forall_forall.
      * now rewrite map_map.
  - rewrite fold_resume_rejected.
    cbn [workerPromise queue suspended refused calls log]. rewrite Hq, Hr.
    cbn [app].
    constructor; cbn [workerPromise queue suspended refused calls log].
    + now rewrite Hlog, Hq.
    + exact I.
    + now rewrite Hcr.
    + repeat split; trivial.
      * apply Forall_map. now apply Forall_forall.
      * now rewrite map_map.
Qed.

Lemma recognizeSettles_inv o s : Inv s -> InvWith looseAfter (recognizeSettles o s).
Proof.
  intros [Hlog Hchain Hcr Hw]. unfold recognizeSettles.
  destruct (settle_fulfilled o (queue s) Hchain)
    as (q' & t & -> & Hc & He & [Hq1 Hq2] & Hi).
  constructor; cbn [log queue workerPromise suspended refused calls].
  - now rewrite engineLog_app, Hlog, Hq1, He.
  - exact Hc.
  - now rewrite creations_app, Hq2, Nat.add_0_r.
  - destruct (workerPromise s) as [[|[w|e]]|].
    + destruct Hw as (Hq & ?). rewrite Hq in Hi. apply ident_nil in Hi.
      now subst q'.
    + destruct Hw as (? & ? & Hq & Ho). repeat split; trivial.
      * now apply (ident_engine _ _ _ Hi).
      * now rewrite (ident_owner _ _ Hi).
    + destruct Hw as (? & Hq & ?). rewrite Hq in Hi. apply ident_nil in Hi.
      now subst q'.
    + destruct Hw as (Hq & ?). rewrite Hq in Hi. apply ident_nil in Hi.
      now subst q'.
Qed.

Lemma init_inv : Inv init.
Proof. constructor; cbn; repeat split; trivial. Qed.

Lemma step_inv s ev : Inv s -> Inv (step s ev).
Proof.
  intros H. unfold step. apply drain_inv. destruct ev.
  - now apply runOcr_inv.
  - now apply initSettles_inv.
  - now apply recognizeSettles_inv.
Qed.

Lemma run_app evs evs' : run (evs ++ evs') = fold_left step evs' (run evs).
Proof. apply fold_left_app. Qed.

Lemma fold_step_inv evs s : Inv s -> Inv (fold_left step evs s).
Proof.
  revert s. induction evs as [|ev evs IH]; intros s H; [exact H|].
  cbn [fold_left]. apply IH. now apply step_inv.
Qed.

Lemma run_inv evs : Inv (run evs).
Proof. apply fold_step_inv, init_inv. Qed.

(** *** One recognition at a time, on one engine *)

Lemma oneAtATime_engineLog f t : oneAtATime f (engineLog t) = oneAtATime f t.
Proof.
  revert f. induction t as [|ev t IH]; intros f; [reflexivity|].
  destruct ev; cbn [engineLog filter isEngineEvent oneAtATime];
    fold (engineLog t); trivial.
  - destruct f; [reflexivity | apply IH].
  - destruct f; [now rewrite IH | reflexivity].
Qed.

Lemma rejected_events e q :
  chain settledAfter (BeforeRejected e) q -> flat_map linkEvents q = [].
Proof.
  induction q as [|l q IH]; [reflexivity|].
  cbn [chain flat_map]. intros [H Hq].
  destruct (status l) eqn:Hl; try contradiction. cbn in H. subst e0.
  rewrite (linkEvents_eq l _ Hl), linkEvents_mk. now apply IH.
Qed.

Lemma chain_oneAtATime q :
  chain settledAfter BeforeFulfilled q ->
  oneAtATime None (flat_map linkEvents q) = true.
Proof.
  induction q as [|l q IH]; [reflexivity|].
  cbn [chain flat_map]. intros [H Hq].
  destruct (status l) as [| |[v|e]|e] eqn:Hl; try contradiction;
    cbn [settledAs] in Hq;
    rewrite (linkEvents_eq l _ Hl), linkEvents_mk; cbn [app oneAtATime].
  - now rewrite (waiting_events q (settled_pending q Hq)).
  - rewrite Nat.eqb_refl. now apply IH.
  - rewrite Nat.eqb_refl. now rewrite (rejected_events e q Hq).
Qed.

Lemma enginesUsed_engineLog t : enginesUsed (engineLog t) = enginesUsed t.
Proof.
  induction t as [|ev t IH]; [reflexivity|].
  destruct ev; cbn [engineLog filter isEngineEvent enginesUsed flat_map];
    fold (engineLog t); fold (enginesUsed t);
    fold (enginesUsed (engineLog t)); now rewrite ?IH.
Qed.

Lemma recognitions_engineLog t : recognitions (engineLog t) = recognitions t.
Proof.
  induction t as [|ev t IH]; [reflexivity|].
  destruct ev; cbn [engineLog filter isEngineEvent recognitions flat_map];
    fold (engineLog t); fold (recognitions t);
    fold (recognitions (engineLog t)); now rewrite ?IH.
Qed.

Lemma completions_engineLog t : completions (engineLog t) = completions t.
Proof.
  induction t as [|ev t IH]; [reflexivity|].
  destruct ev; cbn [engineLog filter isEngineEvent completions flat_map];
    fold (engineLog t); fold (completions t);
    fold (completions (engineLog t)); now rewrite ?IH.
Qed.

Lemma enginesUsed_links q w :
  In w (enginesUsed (flat_map linkEvents q)) -> exists l, In l q /\ engine l = w.
Proof.
  induction q as [|l q IH]; [contradiction|].
  cbn [flat_map]. unfold enginesUsed. rewrite flat_map_app.
  fold (enginesUsed (flat_map linkEvents q)). intros H.
  apply in_app_or in H. destruct H as [H|H].
  - exists l. split; [now left|]. unfold linkEvents in H.
    destruct (status l); cbn in H; intuition.
  - destruct (IH H) as (l' & Hin & Hw). exists l'. split; [now right | exact Hw].
Qed.

Lemma one_engine s w w' :
  Inv s -> In w (enginesUsed (log s)) -> In w' (enginesUsed (log s)) -> w = w'.
Proof.
  intros [Hlog _ _ Hw]. rewrite <- enginesUsed_engineLog, Hlog.
  intros H H'. apply enginesUsed_links in H, H'.
  destruct H as (l & Hl & <-), H' as (l' & Hl' & <-).
  destruct (workerPromise s) as [[|[w0|e]]|].
  - destruct Hw as (Hq & _). now rewrite Hq in Hl.
  - destruct Hw as (_ & _ & He & _).
    rewrite Forall_forall in He. now rewrite (He l Hl), (He l' Hl').
  - destruct Hw as (_ & Hq & _). now rewrite Hq in Hl.
  - destruct Hw as (Hq & _). now rewrite Hq in Hl.
Qed.

(** *** The calls of a schedule *)

Lemma react_ident prev q : map ident (fst (react prev q)) = map ident q.
Proof.
  revert prev. induction q as [|l q IH]; intros prev; [reflexivity|].
  cbn [react].
  destruct (match status l, prev with
            | Waiting, BeforeFulfilled =>
                (Running, [Recognize (owner l) (engine l) (image l)])
            | Waiting, BeforeRejected e => (Skipped e, [])
            | st, _ => (st, [])
            end) as [st t].
  specialize (IH (settledAs st)). destruct (react (settledAs st) q) as [r' t'].
  cbn [fst map] in *. now rewrite IH.
Qed.

Lemma settle_ident o q : map ident (fst (settleRunning o q)) = map ident q.
Proof.
  induction q as [|l q IH]; [reflexivity|].
  cbn [settleRunning]. destruct (settleRunning o q) as [r' t'].
  cbn [fst] in IH. destruct (status l); cbn [fst map]; now rewrite ?IH.
Qed.

Lemma react_unfailed prev q :
  (forall e, prev <> BeforeRejected e) ->
  Forall unfailed q -> Forall unfailed (fst (react prev q)).
Proof.
  intros Hp H. revert prev Hp.
  induction H as [|l q Hl Hq IH]; intros prev Hp; [constructor|].
  cbn [react]. unfold unfailed in Hl.
  destruct (status l) as [| |[v|e]|e] eqn:E; try contradiction;
    destruct prev as [| |e']; try (now elim (Hp e'));
    match goal with
    | |- context [react ?p q] =>
        specialize (IH p ltac:(cbn; discriminate));
        destruct (react p q) as [r' t']
    end; cbn [fst] in *; constructor; trivial; exact I.
Qed.

Lemma settle_unfailed v q :
  Forall unfailed q -> Forall unfailed (fst (settleRunning (Fulfilled v) q)).
Proof.
  induction 1 as [|l q Hl Hq IH]; [constructor|].
  cbn [settleRunning]. destruct (settleRunning (Fulfilled v) q) as [r' t'].
  cbn [fst] in IH. unfold unfailed in Hl.
  destruct (status l) as [| |[v'|e]|e] eqn:E; try contradiction;
    cbn [fst]; constructor; trivial; unfold unfailed; cbn [status];
    rewrite ?E; exact I.
Qed.

Lemma submitted_app n evs evs' :
  submitted n (evs ++ evs') =
  submitted n evs ++ submitted (n + length (submitted n evs)) evs'.
Proof.
  revert n. induction evs as [|ev evs IH]; intros n; cbn [app submitted].
  - now rewrite Nat.add_0_r.
  - destruct ev; rewrite IH; cbn [app length]; trivial.
    now rewrite Nat.add_succ_r.
Qed.

Lemma drain_fields s :
  workerPromise (drain s) = workerPromise s
  /\ suspended (drain s) = suspended s
  /\ refused (drain s) = refused s
  /\ calls (drain s) = calls s
  /\ queue (drain s) = fst (react BeforeFulfilled (queue s)).
Proof. unfold drain. now destruct (react BeforeFulfilled (queue s)). Qed.

Lemma step_unfailed evs s ev :
  Inv s -> Unfailed evs s -> fulfils ev = true ->
  Unfailed (evs ++ [ev]) (step s ev).
Proof.
  intros HI [He Hc Hr Hl Hw] Hev. unfold step.
  match goal with |- Unfailed _ (drain ?x) => set (s1 := x) end.
  assert (H1 : entries s1 = submitted 0 (evs ++ [ev])
               /\ calls s1 = length (submitted 0 (evs ++ [ev]))
               /\ refused s1 = []
               /\ Forall unfailed (queue s1)
               /\ forall e, workerPromise s1 <> Some (Settled (Rejected e))).
  { subst s1. rewrite submitted_app, length_app, <- Hc, <- He. cbn [Nat.add].
    destruct HI as [_ _ _ HD]. unfold entries in *.
    destruct ev as [b|[w|e]|[v|e]]; try discriminate; cbn [submitted length].
    - unfold runOcr, getWorker.
      destruct (workerPromise s) as [[|[w|e]]|] eqn:Hp;
        cbn [workerPromise queue suspended refused calls log resume fst snd];
        rewrite ?Hp.
      + rewrite app_assoc. repeat split; trivial; try lia; try discriminate.
      + destruct HD as (Hs & _). rewrite Hs, !app_nil_r, map_app.
        repeat split; trivial; try lia; try discriminate.
        apply Forall_app. split; [exact Hl | now repeat constructor].
      + now elim (Hw e).
      + rewrite app_assoc. repeat split; trivial; try lia; try discriminate.
    - unfold initSettles.
      destruct (workerPromise s) as [[|[w0|e]]|] eqn:Hp; rewrite ?app_nil_r;
        try (now elim (Hw e));
        try (rewrite ?Hp; repeat split; trivial; try lia; discriminate).
      destruct HD as (Hq & _). rewrite fold_resume_fulfilled.
      cbn [workerPromise queue suspended refused calls log].
      rewrite Hq. cbn [app map]. rewrite app_nil_r, map_map.
      repeat split; trivial; try lia; try discriminate.
      + rewrite <- (map_id (suspended s)) at 2. apply map_ext.
        now intros [i b].
      + apply Forall_map. now apply Forall_forall.
    - unfold recognizeSettles.
      pose proof (settle_ident (Fulfilled v) (queue s)) as Hi.
      pose proof (settle_unfailed v (queue s) Hl) as Hu.
      destruct (settleRunning (Fulfilled v) (queue s)) as [q' t].
      cbn [fst workerPromise queue suspended refused calls log] in *.
      rewrite app_nil_r, (ident_entry _ _ Hi).
      repeat split; trivial; lia. }
  destruct H1 as (E1 & E2 & E3 & E4 & E5).
  destruct (drain_fields s1) as (D1 & D2 & D3 & D4 & D5).
  constructor; unfold entries; rewrite ?D1, ?D2, ?D3, ?D4, ?D5; trivial.
  - rewrite (ident_entry _ _ (react_ident BeforeFulfilled (queue s1))).
    exact E1.
  - apply react_unfailed; [discriminate | exact E4].
Qed.

Lemma run_unfailed evs : forallb fulfils evs = true -> Unfailed evs (run evs).
Proof.
  induction evs as [|ev evs IH] using rev_ind.
  - intros _. now constructor.
  - rewrite forallb_app. cbn [forallb]. rewrite andb_true_r.
    intros H. apply andb_true_iff in H. destruct H as [H Hev].
    rewrite run_app. cbn [fold_left].
    apply step_unfailed; [apply run_inv | now apply IH | exact Hev].
Qed.

(** *** What a schedule without failures has done when it is over *)

Lemma fulfilled_events q :
  Forall fulfilled q ->
  recognitions (flat_map linkEvents q) = map entry q
  /\ completions (flat_map linkEvents q) = map owner q.
Proof.
  induction 1 as [|l q (v & Hl) Hq [IH1 IH2]]; [now split|].
  cbn [flat_map map]. unfold recognitions, completions in *.
  rewrite !flat_map_app, IH1, IH2, (linkEvents_eq l _ Hl), linkEvents_mk.
  now split.
Qed.

Lemma quiescent_fulfilled s :
  quiescent s = true -> Forall unfailed (queue s) ->
  suspended s = [] /\ Forall fulfilled (queue s).
Proof.
  unfold quiescent. intros H Hu. apply andb_true_iff in H.
  destruct H as [Hs Hq]. split; [now destruct (suspended s)|].
  rewrite forallb_forall in Hq. rewrite Forall_forall in Hu |- *.
  intros l Hl. specialize (Hq l Hl). specialize (Hu l Hl).
  unfold unfailed in Hu. unfold fulfilled.
  destruct (status l) as [| |[v|e]|e]; try discriminate; try contradiction.
  now exists v.
Qed.

Lemma submitted_ids n evs :
  map fst (submitted n evs) = seq n (length (submitted n evs)).
Proof.
  revert n. induction evs as [|ev evs IH]; intros n; [reflexivity|].
  destruct ev; cbn [submitted map length seq fst]; now rewrite IH.
Qed.

Lemma resultOf_fulfilled s id :
  refused s = [] -> Forall fulfilled (queue s) ->
  In id (map owner (queue s)) ->
  exists v, resultOf s id = Some (Settled (Fulfilled v)).
Proof.
  intros Hr Hq Hin. unfold resultOf. rewrite Hr. cbn [find].
  destruct (find (fun l => owner l =? id) (queue s)) as [l|] eqn:Hf.
  - apply find_some in Hf. destruct Hf as [Hl _].
    rewrite Forall_forall in Hq. destruct (Hq l Hl) as (v & ->).
    now exists v.
  - apply in_map_iff in Hin. destruct Hin as (l & Ho & Hl).
    apply (find_none _ _ Hf) in Hl. cbn in Hl.
    rewrite Ho, Nat.eqb_refl in Hl. discriminate.
Qed.

Lemma calls_step s ev :
  calls (step s ev) = calls s + match ev with Submit _ => 1 | _ => 0 end.
Proof.
  unfold step. destruct (drain_fields
    match ev with
    | Submit b => runOcr b s
    | InitSettles o => initSettles o s
    | RecognizeSettles o => recognizeSettles o s
    end) as (_ & _ & _ & -> & _).
  destruct ev as [b|o|o].
  - unfold runOcr, getWorker.
    destruct (workerPromise s) as [[|[w|e]]|]; cbn; lia.
  - unfold initSettles.
    destruct (workerPromise s) as [[|[w|e]]|]; try lia.
    destruct o; rewrite ?fold_resume_fulfilled, ?fold_resume_rejected; cbn; lia.
  - unfold recognizeSettles. destruct (settleRunning o (queue s)). cbn. lia.
Qed.

Lemma calls_run evs : calls (run evs) = length (submitted 0 evs).
Proof.
  induction evs as [|ev evs IH] using rev_ind; [reflexivity|].
  rewrite run_app. cbn [fold_left]. rewrite calls_step, IH.
  rewrite submitted_app, length_app. now destruct ev.
Qed.

(** *** A settled initialisation stays as it is *)

Lemma settled_step s ev o :
  workerPromise s = Some (Settled o) ->
  workerPromise (step s ev) = Some (Settled o).
Proof.
  intros H. unfold step. destruct (drain_fields
    match ev with
    | Submit b => runOcr b s
    | InitSettles o => initSettles o s
    | RecognizeSettles o => recognizeSettles o s
    end) as (-> & _).
  destruct ev as [b|o'|o'].
  - unfold runOcr, getWorker. rewrite H. now destruct o.
  - unfold initSettles. now rewrite H.
  - unfold recognizeSettles. now destruct (settleRunning o' (queue s)).
Qed.

Lemma settled_fold evs s o :
  workerPromise s = Some (Settled o) ->
  workerPromise (fold_left step evs s) = Some (Settled o).
Proof.
  revert s. induction evs as [|ev evs IH]; intros s H; [exact H|].
  cbn [fold_left]. now apply IH, settled_step.
Qed.

Lemma resultOf_refused s id e :
  Forall (fun c => snd c = e) (refused s) ->
  In id (map fst (refused s)) ->
  resultOf s id = Some (Settled (Rejected e)).
Proof.
  intros He Hin. unfold resultOf.
  destruct (find (fun c => fst c =? id) (refused s)) as [[i e']|] eqn:Hf.
  - apply find_some in Hf. destruct Hf as [Hc _].
    rewrite Forall_forall in He. now rewrite <- (He _ Hc).
  - apply in_map_iff in Hin. destruct Hin as (c & Hc & Hin).
    apply (find_none _ _ Hf) in Hin. cbn in Hin.
    rewrite Hc, Nat.eqb_refl in Hin. discriminate.
Qed.

Lemma acquired_same s o :
  Inv s -> workerPromise s = Some (Settled o) ->
  suspended s = []
  /\ Forall (fun a => snd a = o) (acquired s)
  /\ map fst (acquired s) = seq 0 (calls s).
Proof.
  intros [_ _ _ Hw] Hp. rewrite Hp in Hw. unfold acquired.
  destruct o as [w|e].
  - destruct Hw as (Hs & Hr & He & Ho). rewrite Hr. cbn [map].
    rewrite app_nil_r, map_map. cbn [fst]. repeat split; trivial.
    apply Forall_map. eapply Forall_impl; [|exact He].
    intros l Hl. cbn. now rewrite Hl.
  - destruct Hw as (Hs & Hq & He & Ho). rewrite Hq. cbn [map app].
    rewrite map_map. cbn [fst]. repeat split; trivial.
    apply Forall_map. eapply Forall_impl; [|exact He].
    intros c Hc. cbn. now rewrite Hc.
Qed.

(** *** Jobs start and complete in the order of the calls *)

Lemma seq_prefix xs ys a n : seq a n = xs ++ ys -> xs = seq a (length xs).
Proof.
  revert a n. induction xs as [|x xs IH]; intros a n H; [reflexivity|].
  destruct n as [|n]; [discriminate|]. cbn [seq app length] in *.
  injection H as <- H. f_equal. now apply (IH _ n).
Qed.

Lemma seq_before xs x ys a n :
  seq a n = xs ++ x :: ys -> Forall (fun y => y < x) xs.
Proof.
  intros H. apply Forall_forall. intros y Hy.
  pose proof (seq_prefix (xs ++ [x]) ys a n) as Hp.
  rewrite <- app_assoc in Hp. specialize (Hp H).
  rewrite length_app, seq_app in Hp. cbn [length seq] in Hp.
  rewrite Nat.add_comm in Hp. cbn [Nat.add] in Hp.
  apply app_inj_tail in Hp. destruct Hp as [Hxs ->].
  rewrite Hxs in Hy. apply in_seq in Hy. lia.
Qed.

Lemma chain_started q :
  chain settledAfter BeforeFulfilled q ->
  (exists r, map owner q = map fst (recognitions (flat_map linkEvents q)) ++ r)
  /\ (exists r, map owner q = completions (flat_map linkEvents q) ++ r).
Proof.
  induction q as [|l q IH]; [split; now exists []|].
  cbn [chain flat_map map]. intros [H Hq].
  unfold recognitions, completions in *. rewrite !flat_map_app.
  destruct (status l) as [| |[v|e]|e] eqn:Hl; try contradiction;
    cbn [settledAs] in Hq; rewrite (linkEvents_eq l _ Hl), linkEvents_mk;
    cbn [flat_map app map fst].
  - rewrite (waiting_events q (settled_pending q Hq)). cbn [flat_map map].
    split; [now exists (map owner q) | now exists (owner l :: map owner q)].
  - destruct (IH Hq) as [(r & ->) (r' & Hr')].
    split; [now exists r | exists r'; now rewrite Hr'].
  - rewrite (rejected_events e q Hq). cbn [flat_map map].
    split; now exists (map owner q).
Qed.

Lemma in_order s :
  Inv s ->
  (exists k, map fst (recognitions (log s)) = seq 0 k)
  /\ (exists k, completions (log s) = seq 0 k).
Proof.
  intros [Hlog Hchain _ Hw].
  rewrite <- recognitions_engineLog, <- completions_engineLog, Hlog.
  destruct (chain_started (queue s) Hchain) as [(r & Hr) (r' & Hr')].
  assert (Ho : exists n, map owner (queue s) = seq 0 n).
  { destruct (workerPromise s) as [[|[w|e]]|].
    - destruct Hw as (-> & _). now exists 0.
    - destruct Hw as (_ & _ & _ & ->). now eexists.
    - destruct Hw as (_ & -> & _). now exists 0.
    - destruct Hw as (-> & _). now exists 0. }
  destruct Ho as (n & Ho). rewrite Ho in Hr, Hr'.
  split; eexists; eapply seq_prefix; eassumption.
Qed.

(** *** After a rejected recognition *)

Lemma react_keeps prev q l o :
  In l q -> status l = Done o -> In l (fst (react prev q)).
Proof.
  revert prev. induction q as [|x q IH]; intros prev Hin Hl; [contradiction|].
  cbn [react]. destruct Hin as [->|Hin].
  - rewrite Hl. destruct (react (settledAs (Done o)) q) as [r' t'].
    cbn [fst app]. left. now rewrite <- Hl, link_eta.
  - destruct (match status x, prev with
              | Waiting, BeforeFulfilled =>
                  (Running, [Recognize (owner x) (engine x) (image x)])
              | Waiting, BeforeRejected e => (Skipped e, [])
              | st, _ => (st, [])
              end) as [st t].
    specialize (IH (settledAs st) Hin Hl).
    destruct (react (settledAs st) q) as [r' t']. now right.
Qed.

Lemma settle_keeps o' q l o :
  In l q -> status l = Done o -> In l (fst (settleRunning o' q)).
Proof.
  induction q as [|x q IH]; intros Hin Hl; [contradiction|].
  cbn [settleRunning]. destruct Hin as [->|Hin].
  - rewrite Hl. destruct (settleRunning o' q). now left.
  - specialize (IH Hin Hl). destruct (settleRunning o' q) as [r' t'].
    destruct (status x); cbn [fst] in *; now right.
Qed.

Lemma step_keeps s ev l o :
  In l (queue s) -> status l = Done o -> In l (queue (step s ev)).
Proof.
  intros Hin Hl. unfold step.
  match goal with |- In l (queue (drain ?x)) =>
    destruct (drain_fields x) as (_ & _ & _ & _ & ->);
    apply (react_keeps _ _ l o); [|exact Hl]
  end.
  destruct ev as [b|o'|o'].
  - unfold runOcr, getWorker.
    destruct (workerPromise s) as [[|[w|e]]|]; cbn; trivial.
    apply in_or_app. now left.
  - unfold initSettles.
    destruct (workerPromise s) as [[|[w|e]]|]; trivial.
    destruct o'; rewrite ?fold_resume_fulfilled, ?fold_resume_rejected; cbn;
      trivial. apply in_or_app. now left.
  - unfold recognizeSettles.
    pose proof (settle_keeps o' (queue s) l o Hin Hl) as H.
    now destruct (settleRunning o' (queue s)).
Qed.

Lemma fold_keeps evs s l o :
  In l (queue s) -> status l = Done o -> In l (queue (fold_left step evs s)).
Proof.
  revert s. induction evs as [|ev evs IH]; intros s Hin Hl; [exact Hin|].
  cbn [fold_left]. apply IH; [now apply (step_keeps _ _ _ o) | exact Hl].
Qed.

Lemma chain_split ok prev a l b :
  chain ok prev (a ++ l :: b) -> chain ok (settledAs (status l)) b.
Proof.
  revert prev. induction a as [|x a IH]; intros prev; cbn [app chain].
  - now intros [_ H].
  - intros [_ H]. now apply (IH _ H).
Qed.

Lemma rejected_skipped e q :
  chain settledAfter (BeforeRejected e) q ->
  Forall (fun l => status l = Skipped e) q.
Proof.
  induction q as [|l q IH]; [constructor|].
  cbn [chain]. intros [H Hq]. destruct (status l) eqn:Hl; try contradiction.
  cbn in H. subst e0. constructor; [exact Hl | now apply IH].
Qed.

Lemma started_links q i :
  In i (map fst (recognitions (flat_map linkEvents q))) ->
  exists l, In l q /\ owner l = i /\ forall e, status l <> Skipped e.
Proof.
  induction q as [|l q IH]; [contradiction|].
  cbn [flat_map]. unfold recognitions. rewrite flat_map_app, map_app.
  intros H. apply in_app_or in H. destruct H as [H|H].
  - exists l. split; [now left|]. unfold linkEvents in H.
    destruct (status l); cbn in H; intuition; discriminate.
  - destruct (IH H) as (l' & Hin & Ho & Hs). exists l'. split; [now right|].
    now split.
Qed.

(** Once the recognition of a job has rejected, no job behind it in the
    queue is executed, whether it was submitted before or after: each is
    passed over and rejected with the error of that job. *)
Lemma failure_skips_later_jobs evs evs' l e id :
  In l (queue (run evs)) -> status l = Done (Rejected e) ->
  let s := run (evs ++ evs') in
  owner l < id < calls s ->
  resultOf s id = Some (Settled (Rejected e))
  /\ ~ In id (map fst (recognitions (log s))).
Proof.
  intros Hin Hl s Hid.
  assert (Hin' : In l (queue s)).
  { subst s. rewrite run_app. now apply (fold_keeps _ _ l (Rejected e)). }
  pose proof (run_inv (evs ++ evs')) as [Hlog Hchain _ Hw]. fold s in Hlog, Hchain, Hw.
  destruct (workerPromise s) as [[|[w|e0]]|];
    [ destruct Hw as (Hq & _); now rewrite Hq in Hin'
    |
    | destruct Hw as (_ & Hq & _); now rewrite Hq in Hin'
    | destruct Hw as (Hq & _); now rewrite Hq in Hin' ].
  destruct Hw as (_ & Hr & _ & Ho).
  apply in_split in Hin'. destruct Hin' as (a & b & Hq).
  assert (Hb : Forall (fun l' => status l' = Skipped e) b).
  { apply rejected_skipped. rewrite Hq in Hchain.
    apply chain_split in Hchain. now rewrite Hl in Hchain. }
  assert (Hbehind : forall l', In l' (queue s) -> owner l' = id -> In l' b).
  { intros l' Hl' Hid'. rewrite Hq in Hl', Ho.
    rewrite map_app in Ho. cbn [map] in Ho. symmetry in Ho.
    pose proof (seq_before _ _ _ _ _ Ho) as Ha.
    apply in_app_or in Hl'. destruct Hl' as [Hl'|[<-|Hl']]; trivial; [|lia].
    rewrite Forall_forall in Ha. specialize (Ha (owner l') (in_map owner _ _ Hl')).
    lia. }
  rewrite Forall_forall in Hb. split.
  - unfold resultOf. rewrite Hr. cbn [find].
    destruct (find (fun l' => owner l' =? id) (queue s)) as [l'|] eqn:Hf.
    + apply find_some in Hf. destruct Hf as [Hl' Hi]. apply Nat.eqb_eq in Hi.
      now rewrite (Hb l' (Hbehind l' Hl' Hi)).
    + assert (Hi : In id (map owner (queue s))) by (rewrite Ho; apply in_seq; lia).
      apply in_map_iff in Hi. destruct Hi as (l' & Hi & Hl').
      apply (find_none _ _ Hf) in Hl'. cbn in Hl'.
      rewrite Hi, Nat.eqb_refl in Hl'. discriminate.
  - rewrite <- recognitions_engineLog, Hlog. intros H.
    apply started_links in H. destruct H as (l' & Hl' & Hi & Hs).
    now apply (Hs e), Hb, Hbehind.
Qed.

End ManagerFacts.

(** * The normalizer: worked examples, canonical form, idempotence *)

Section NormalizerProperties.

(** C4, as the specification states it, fails on its last example: the
    token [".."] is not normalized to the empty string. *)
Lemma normalize_two_dots_not_empty : normalizeNumberToken (lit "..") <> [].
Proof. vm_compute. discriminate. Qed.

(** C4, amended.  [normalizeNumberToken] maps ["1.234,56"] and
    ["1,234.56"] to ["1234.56"], ["3,49"] to ["3.49"], ["0,99"] to
    ["0.99"], and [".."] to ["."]: a token that is not empty and holds
    nothing but separators is normalized to a string with a ['.'] in it,
    never to the empty string. *)
Theorem normalize_examples :
  normalizeNumberToken (lit "1.234,56") = lit "1234.56"
  /\ normalizeNumberToken (lit "1,234.56") = lit "1234.56"
  /\ normalizeNumberToken (lit "3,49") = lit "3.49"
  /\ normalizeNumberToken (lit "0,99") = lit "0.99"
  /\ normalizeNumberToken (lit "..") = lit "."
  /\ forall t : jsstring,
       t <> [] -> Forall (fun c => c = ch_dot \/ c = ch_comma) t ->
       includes ch_dot (normalizeNumberToken t) = true.
Proof.
  do 5 (split; [reflexivity|]).
  intros t Hne Hsep.
  assert (Hn : numeric t).
  { eapply Forall_impl; [|exact Hsep]. now intros c [->| ->]. }
  assert (Hz : forall u, (0 < occ ch_dot u)%nat ->
                         includes ch_dot (stripZeros u) = true).
  { intros u Hu. apply includes_occ. now rewrite stripZeros_occ. }
  rewrite normalize_unfold. cbv zeta. rewrite (stripped_id t Hn).
  destruct t as [|c t]; [contradiction|]. cbn [isEmpty]. apply Hz.
  destruct (includes ch_dot (c :: t)) eqn:Hd,
           (includes ch_comma (c :: t)) eqn:Hc; cbn [andb].
  - pose proof (bothSeparators_counts _ Hd Hc) as H.
    apply includes_occ in Hd. destruct (_ =? _); lia.
  - pose proof (oneSeparator_cut (c :: t)) as H. cbv zeta in H.
    apply includes_false_occ in Hc. rewrite (replaceAll_id _ _ _ Hc) in H.
    apply includes_occ in Hd.
    destruct (2 <=? _)%nat.
    + destruct H as (pre & post & _ & _ & ->).
      rewrite occ_app, occ_cons, N.eqb_refl. lia.
    + now rewrite H.
  - pose proof (oneSeparator_cut (c :: t)) as H. cbv zeta in H.
    assert (Hr : (0 < occ ch_dot (replaceAll ch_comma ch_dot (c :: t)))%nat).
    { apply includes_occ in Hc. apply includes_occ. unfold includes in *.
      apply existsb_exists. apply includes_occ, existsb_exists in Hc.
      destruct Hc as (x & Hx & E). apply N.eqb_eq in E. subst x.
      exists ch_dot. split; [|reflexivity].
      unfold replaceAll. apply in_map_iff. now exists ch_comma. }
    destruct (2 <=? _)%nat.
    + destruct H as (pre & post & _ & _ & ->).
      rewrite occ_app, occ_cons, N.eqb_refl. lia.
    + now rewrite H.
  - inversion Hsep as [|? ? [->| ->] _]; subst; cbn in Hd, Hc; discriminate.
Qed.

Lemma normalize_examples_witness :
  includes ch_dot (normalizeNumberToken (lit ",.,")) = true.
Proof.
  apply normalize_examples; [discriminate|].
  repeat constructor; (now left) || (now right).
Defined.

(** C5, as the specification states it, fails: ["1.2,3.4"] is
    normalized to ["1.23.4"], with two dots, and ["1,2.3,4"] to
    ["1,23.4"], with a comma. *)
Lemma normalize_not_always_canonical :
  ~ (forall token, normalizeNumberToken token <> [] ->
                   canonical (normalizeNumberToken token)).
Proof.
  intros H.
  assert (Hne : normalizeNumberToken (lit "1.2,3.4") <> [])
    by (vm_compute; discriminate).
  destruct (H _ Hne) as [_ H']. vm_compute in H'. lia.
Qed.

(** C5, amended.  For every input string, the result of
    [normalizeNumberToken] contains no comma and at most one ['.']
    exactly when at most one kind of separator occurs in the token or the
    kind that occurs last occurs once.  (The empty result is canonical.) *)
Theorem canonical_iff_single_decimal (token : jsstring) :
  singleDecimal token = true <-> canonical (normalizeNumberToken token).
Proof. symmetry. apply normalize_canonical_iff. Qed.

Lemma canonical_iff_single_decimal_witness :
  canonical (normalizeNumberToken (lit "1.234,56")).
Proof. exact (proj1 (canonical_iff_single_decimal (lit "1.234,56")) eq_refl). Defined.

(** C2, as the specification states it, fails: ["1.2,3.4"] is
    normalized to ["1.23.4"], and that to ["123.4"]. *)
Lemma normalize_not_idempotent :
  ~ (forall s, normalizeNumberToken s <> [] ->
               normalizeNumberToken (normalizeNumberToken s)
               = normalizeNumberToken s).
Proof.
  intros H.
  assert (Hne : normalizeNumberToken (lit "1.2,3.4") <> [])
    by (vm_compute; discriminate).
  specialize (H _ Hne). vm_compute in H. discriminate H.
Qed.

(** C2, amended.  Normalizing the result again gives the result back
    exactly for the tokens in which at most one kind of separator occurs
    or the kind that occurs last occurs once; for every token the second
    normalization gives a string that further ones leave as it is. *)
Theorem normalize_idempotent (token : jsstring) :
  (singleDecimal token = true <->
   normalizeNumberToken (normalizeNumberToken token)
   = normalizeNumberToken token)
  /\ normalizeNumberToken
       (normalizeNumberToken (normalizeNumberToken token))
     = normalizeNumberToken (normalizeNumberToken token).
Proof.
  assert (Hfix : forall t, singleDecimal t = true ->
    normalizeNumberToken (normalizeNumberToken t) = normalizeNumberToken t).
  { intros t H. apply normalize_fixed.
    - apply normalize_numeric.
    - now apply normalize_canonical_iff.
    - apply normalize_stable. }
  split; [split; [apply Hfix|] | apply Hfix, normalize_singleDecimal].
  intros H. apply normalize_canonical_iff. rewrite <- H.
  apply normalize_canonical_iff, normalize_singleDecimal.
Qed.

Lemma normalize_idempotent_witness :
  normalizeNumberToken (normalizeNumberToken (lit " 1.234,50 lv"))
  = normalizeNumberToken (lit " 1.234,50 lv").
Proof.
  exact (proj1 (proj1 (normalize_idempotent (lit " 1.234,50 lv"))) eq_refl).
Defined.

End NormalizerProperties.

(** * The extractor: invariants of the candidate list, worked example *)

Section ExtractorProperties.

(** C3.  For every input text, every candidate of the list
    [extractAmounts] returns has a value strictly between 0 and 100000;
    no two candidates have the same two-decimal key; each candidate is the
    first, in the order of the text, of the accepted tokens with its key;
    the list has at most 8 entries; and it is sorted by non-increasing
    score, candidates of equal score by non-increasing value. *)
Theorem extractAmounts_invariants (text : jsstring) :
  let l := extractAmounts text in
  Forall (fun c => inRange (value c)) l
  /\ NoDup (map keyOf l)
  /\ Forall (fun c =>
       find (fun p => strEq (keyOf p) (keyOf c)) (candidatesOf (matchTokens text))
       = Some c) l
  /\ (length l <= 8)%nat
  /\ StronglySorted ranked l.
Proof.
  unfold extractAmounts. cbv zeta. rewrite collect_firsts. cbn [app].
  set (cs := candidatesOf (matchTokens text)).
  set (fs := firsts cs []).
  assert (Hin : forall c, In c (firstn 8 (sortBy compareFn fs)) -> In c fs).
  { intros c H. apply firstn_incl in H.
    now apply (Permutation_in _ (Permutation_sym (sortBy_perm compareFn fs))). }
  assert (Hadm : forall c, In c fs ->
                           inRange (value c) /\ finiteCandidate c).
  { intros c H. apply firsts_fresh in H. destruct H as [H _].
    apply candidatesOf_spec in H. destruct H as (tok & _ & H).
    apply candidateOf_spec in H. tauto. }
  repeat split.
  - apply Forall_forall. intros c H. now apply Hadm, Hin.
  - apply (NoDup_app_remove_r _ (map keyOf (skipn 8 (sortBy compareFn fs)))).
    rewrite <- map_app, firstn_skipn.
    apply (Permutation_NoDup (Permutation_map keyOf (sortBy_perm compareFn fs))).
    apply firsts_NoDup.
  - apply Forall_forall. intros c H. apply (firsts_first cs []). now apply Hin.
  - apply firstn_le_length.
  - apply firstn_sorted, sortBy_sorted.
    apply Forall_forall. intros c H. now apply Hadm.
Qed.

(** C8.  On the text "Цена 3.49 лв. стар 12,00" [extractAmounts] yields
    the value 12 with the normalized string ["12.00"] and then the value
    3.49 with ["3.49"]: their scores are 4.5 and 4.4. *)
Theorem extractAmounts_sample :
  map (fun c => (value c, normalized c, score c)) (extractAmounts sampleText)
  = [ (ofZ 12, lit "12.00", ofDecimal 45 (-1));
      (ofDecimal 349 (-2), lit "3.49", ofDecimal 44 (-1)) ].
Proof. vm_compute. reflexivity. Qed.

End ExtractorProperties.

(** * The conversion endpoint: status codes and bodies *)

Section ConvertProperties.
Local Open Scope Z_scope.

Lemma ofZ_100 : ofZ 100 = Fin (100 * grid).
Proof. vm_compute. reflexivity. Qed.

(** [round2] yields the binary64 value nearest to a number of
    hundredths, or no finite value at all. *)
Lemma round2_hundredths x :
  (exists k, round2 x = div (Fin (k * grid)) (ofZ 100))
  \/ isFinite (round2 x) = false.
Proof.
  unfold round2. rewrite ofZ_100.
  assert (Hm : forall y, match mul y (Fin (100 * grid)) with
                         | Fin _ => True
                         | r => isFinite (div (Number.round r)
                                            (Fin (100 * grid))) = false
                         end).
  { intros [|s|a]; cbn [mul]; trivial.
    - now destruct (100 * grid =? 0).
    - now destruct (round64 (a * (100 * grid)) grid). }
  specialize (Hm (add x EPSILON)).
  destruct (mul (add x EPSILON) (Fin (100 * grid))) as [|s|y].
  - now right.
  - now right.
  - left. cbn [Number.round]. eexists. reflexivity.
Qed.

Lemma convert_ext q q' :
  amountOf q = amountOf q' -> fromOf q = fromOf q' -> convert q = convert q'.
Proof. unfold convert. now intros -> ->. Qed.

Lemma strEq_false a b : strEq a b = false <-> a <> b.
Proof. unfold strEq. destruct (list_eq_dec N.eq_dec a b); split; congruence. Qed.

(** C7, as the specification states it, fails: with [from=bgn], which is
    neither ["BGN"] nor ["EUR"], and with no [from] at all, the response
    to a finite amount is 200. *)
Lemma convert_accepts_other_from :
  let q := mkQuery (Some (lit "10")) (Some (lit "bgn")) in
  let q' := mkQuery (Some (lit "10")) None in
  isFinite (amountOf q) = true
  /\ q_from q <> Some (lit "BGN") /\ q_from q <> Some (lit "EUR")
  /\ status (convert q) = 200%N
  /\ q_from q' <> Some (lit "BGN") /\ q_from q' <> Some (lit "EUR")
  /\ status (convert q') = 200%N.
Proof.
  cbv zeta. repeat split; try discriminate; vm_compute; reflexivity.
Qed.

(** C7, amended.  [GET /api/convert] responds 400 with an error object
    if and only if the [amount] parameter does not convert to a finite
    number or the [from] parameter, taken as ["BGN"] when it is absent or
    empty and put in upper case, is neither ["BGN"] nor ["EUR"]; otherwise
    it responds 200 with [{rate, amount, from, bgn, eur}], where [bgn] and
    [eur] are [round2] of the amount in each currency (for BGN, [eur] is
    [round2(amount / 1.95583)]), and [round2] gives a number of
    hundredths or no finite number. *)
Theorem convert_responses (q : query) :
  let amount := amountOf q in
  let from := fromOf q in
  (status (convert q) = 400%N
   <-> isFinite amount = false \/ (from <> lit "BGN" /\ from <> lit "EUR"))
  /\ (status (convert q) = 400%N ->
      exists msg, payload (convert q) = ErrorBody msg)
  /\ (status (convert q) <> 400%N ->
      status (convert q) = 200%N
      /\ exists bgn eur,
           payload (convert q)
           = ConvertBody RATE amount from (round2 bgn) (round2 eur)
           /\ (from = lit "BGN" -> bgn = amount /\ eur = div amount RATE)
           /\ (from = lit "EUR" -> bgn = mul amount RATE /\ eur = amount))
  /\ (forall x,
        (exists k, round2 x = div (Fin (k * grid)) (ofZ 100))
        \/ isFinite (round2 x) = false)
  /\ convert (mkQuery (Some (lit "10")) (Some (lit "BGN")))
     = mkResponse 200
         (ConvertBody RATE (ofZ 10) (lit "BGN")
            (round2 (ofZ 10)) (round2 (div (ofZ 10) RATE))).
Proof.
  cbv zeta.
  split; [|split; [|split; [|split;
    [apply round2_hundredths | vm_compute; reflexivity]]]];
    unfold convert;
    (destruct (isFinite (amountOf q)) eqn:Hf; cbn [negb];
     [(destruct (strEq (fromOf q) (lit "BGN")) eqn:Hb;
       [apply strEq_true in Hb | apply strEq_false in Hb]);
      (destruct (strEq (fromOf q) (lit "EUR")) eqn:He;
       [apply strEq_true in He | apply strEq_false in He]);
      cbn [negb andb]|]);
    cbn [status payload];
    try (rewrite Hb in He; discriminate He).
  all: try (split;
            [ try discriminate; intros _; (now left) || (right; now split)
            | try reflexivity; intros [H|[H H']]; congruence ]).
  all: try (intros H; discriminate H).
  all: try (intros _; eexists; reflexivity).
  all: try (intros H; now elim H).
  all: intros _; (split; [reflexivity|]); eexists _, _;
    (split; [reflexivity|]); split; intros E;
    (now split) || congruence.
Qed.

Lemma convert_responses_witness :
  status (convert (mkQuery (Some (lit "abc")) (Some (lit "EUR")))) = 400%N.
Proof.
  apply (convert_responses (mkQuery (Some (lit "abc")) (Some (lit "EUR")))).
  left. vm_compute. reflexivity.
Defined.

(** C10.  [GET /api/convert] takes a [from] parameter that is absent as
    ["BGN"] and matches it without regard to case.  For every finite
    amount [a], a request without [from], and one with a [from] whose
    upper-case form is ["BGN"] (such as ["bgn"]), gets the 200 response
    of a conversion from BGN: [from] is ["BGN"], [bgn] is [round2(a)] and
    [eur] is [round2(a / RATE)]; a request with a [from] whose upper-case
    form is ["EUR"] (such as ["eur"]) gets the 200 response of a
    conversion from EUR: [from] is ["EUR"], [bgn] is [round2(a * RATE)]
    and [eur] is [round2(a)].  None of them gets a 400. *)
Theorem convert_from_insensitive (amount : option jsstring) (t : jsstring) :
  isFinite (amountOf (mkQuery amount None)) = true ->
  let a := amountOf (mkQuery amount None) in
  let fromBGN :=
    mkResponse 200
      (ConvertBody RATE a (lit "BGN") (round2 a) (round2 (div a RATE))) in
  let fromEUR :=
    mkResponse 200
      (ConvertBody RATE a (lit "EUR") (round2 (mul a RATE)) (round2 a)) in
  (convert (mkQuery amount None) = fromBGN
   /\ convert (mkQuery amount (Some (lit "BGN"))) = fromBGN
   /\ convert (mkQuery amount (Some (lit "EUR"))) = fromEUR)
  /\ (toUpperCase t = lit "BGN" -> convert (mkQuery amount (Some t)) = fromBGN)
  /\ (toUpperCase t = lit "EUR" -> convert (mkQuery amount (Some t)) = fromEUR)
  /\ (toUpperCase t = lit "BGN" \/ toUpperCase t = lit "EUR" ->
      convert (mkQuery amount (Some t))
      = convert (mkQuery amount (Some (toUpperCase t)))
      /\ status (convert (mkQuery amount (Some t))) = 200%N)
  /\ toUpperCase (lit "bgn") = lit "BGN"
  /\ toUpperCase (lit "eur") = lit "EUR".
Proof.
  intros Hf. cbv zeta.
  set (a := amountOf (mkQuery amount None)) in *.
  assert (HB : forall q, amountOf q = a -> fromOf q = lit "BGN" ->
                         convert q
                         = mkResponse 200
                             (ConvertBody RATE a (lit "BGN") (round2 a)
                                (round2 (div a RATE)))).
  { intros q Ha Hq. unfold convert. rewrite Ha, Hf, Hq. reflexivity. }
  assert (HE : forall q, amountOf q = a -> fromOf q = lit "EUR" ->
                         convert q
                         = mkResponse 200
                             (ConvertBody RATE a (lit "EUR")
                                (round2 (mul a RATE)) (round2 a))).
  { intros q Ha Hq. unfold convert. rewrite Ha, Hf, Hq. reflexivity. }
  assert (Hfrom : forall u, toUpperCase u = lit "BGN" \/ toUpperCase u = lit "EUR" ->
                            fromOf (mkQuery amount (Some u)) = toUpperCase u).
  { intros u Hu. unfold fromOf. cbn [q_from].
    destruct u; [destruct Hu as [Hu|Hu]; discriminate Hu | reflexivity]. }
  split; [|split; [|split; [|split; [|split; reflexivity]]]].
  - repeat split; [apply HB | apply HB | apply HE]; reflexivity.
  - intros Ht. apply HB; [reflexivity|].
    rewrite Hfrom by (now left). exact Ht.
  - intros Ht. apply HE; [reflexivity|].
    rewrite Hfrom by (now right). exact Ht.
  - intros Ht.
    assert (Hup : fromOf (mkQuery amount (Some (toUpperCase t))) = toUpperCase t).
    { unfold fromOf. cbn [q_from]. destruct Ht as [-> | ->]; reflexivity. }
    destruct Ht as [Ht|Ht].
    + rewrite (HB (mkQuery amount (Some t))), (HB (mkQuery amount (Some (toUpperCase t))));
        trivial; try reflexivity; [split; reflexivity | congruence |].
      rewrite Hfrom by (now left). exact Ht.
    + rewrite (HE (mkQuery amount (Some t))), (HE (mkQuery amount (Some (toUpperCase t))));
        trivial; try reflexivity; [split; reflexivity | congruence |].
      rewrite Hfrom by (now right). exact Ht.
Qed.

Lemma convert_from_insensitive_witness :
  let a := amountOf (mkQuery (Some (lit "12.34")) None) in
  convert (mkQuery (Some (lit "12.34")) (Some (lit "eUr")))
  = mkResponse 200
      (ConvertBody RATE a (lit "EUR") (round2 (mul a RATE)) (round2 a)).
Proof.
  assert (H : isFinite (amountOf (mkQuery (Some (lit "12.34")) None)) = true)
    by (vm_compute; reflexivity).
  exact (proj1 (proj2 (proj2
           (convert_from_insensitive (Some (lit "12.34")) (lit "eUr") H)))
           eq_refl).
Defined.

End ConvertProperties.

(** * The worker singleton and the queue: failures and order *)

Section ManagerProperties.
Import Manager.
Local Open Scope nat_scope.

(** C1, a failing run.  After a recognition has rejected, the job
    submitted next through [runOcr] is not executed, and its caller gets
    the rejection of the earlier job: the failure of one job is not
    confined to its caller, and the queue does not go on.  The lemma
    [failure_skips_later_jobs] says so of every schedule. *)
Theorem runOcr_after_failure (b1 b2 : buffer) (w : worker) (e : failure) :
  let s := run [Submit b1; InitSettles (Fulfilled w);
                RecognizeSettles (Rejected e); Submit b2] in
  resultOf s 0 = Some (Settled (Rejected e))
  /\ resultOf s 1 = Some (Settled (Rejected e))
  /\ recognitions (log s) = [(0, b1)]
  /\ quiescent s = true.
Proof. repeat split. Qed.

(** C6, as the specification states it, fails: after a failed
    initialisation the next call of [getWorker] gets the same failure,
    and the engine is not created a second time. *)
Lemma getWorker_does_not_retry :
  let s := run [Submit [1%N]; InitSettles (Rejected (lit "init"));
                Submit [2%N]] in
  workerPromise s = Some (Settled (Rejected (lit "init")))
  /\ creations (log s) = 1
  /\ resultOf s 1 = Some (Settled (Rejected (lit "init"))).
Proof. repeat split. Qed.

(** C6, amended.  If the engine initialisation fails, every acquisition
    pending then fails with that error, and the failed outcome stays
    memoised: whatever happens afterwards, [getWorker] returns the same
    failure to every later call, the engine is created once and never
    again, and no recognition runs. *)
Theorem init_failure_is_final (evs evs' : list event) (e : failure) :
  workerPromise (run evs) = Some (Settled (Rejected e)) ->
  let s := run (evs ++ evs') in
  workerPromise s = Some (Settled (Rejected e))
  /\ creations (log s) = 1
  /\ recognitions (log s) = []
  /\ forall id, id < calls s -> resultOf s id = Some (Settled (Rejected e)).
Proof.
  intros H s.
  assert (Hp : workerPromise s = Some (Settled (Rejected e))).
  { subst s. rewrite run_app. now apply settled_fold. }
  pose proof (run_inv (evs ++ evs')) as [Hlog _ Hcr Hw]. fold s in Hlog, Hcr, Hw.
  rewrite Hp in Hcr, Hw. destruct Hw as (_ & Hq & He & Hids).
  repeat split; trivial.
  - rewrite <- recognitions_engineLog, Hlog, Hq. reflexivity.
  - intros id Hid. apply resultOf_refused; [exact He|].
    rewrite Hids. apply in_seq. lia.
Qed.

Lemma init_failure_is_final_witness :
  resultOf (run ([Submit [1%N]; Submit [2%N]; InitSettles (Rejected (lit "init"))]
                 ++ [Submit [3%N]; InitSettles (Fulfilled 0); Submit [4%N]])) 3
  = Some (Settled (Rejected (lit "init"))).
Proof.
  apply (init_failure_is_final
           [Submit [1%N]; Submit [2%N]; InitSettles (Rejected (lit "init"))]
           [Submit [3%N]; InitSettles (Fulfilled 0); Submit [4%N]]
           (lit "init") eq_refl).
  cbn. lia.
Defined.

(** C9, as the specification states it, fails: of two jobs submitted
    together, one recognition runs when it rejects, and none when the
    initialisation fails. *)
Lemma fewer_executions_than_jobs :
  let evs := [Submit [1%N]; Submit [2%N]; InitSettles (Fulfilled 0);
              RecognizeSettles (Rejected (lit "bad"))] in
  let evs' := [Submit [1%N]; Submit [2%N]; InitSettles (Rejected (lit "init"))] in
  (quiescent (run evs) = true /\ length (submitted 0 evs) = 2
   /\ recognitions (log (run evs)) = [(0, [1%N])])
  /\ (quiescent (run evs') = true /\ length (submitted 0 evs') = 2
      /\ recognitions (log (run evs')) = []).
Proof. repeat split. Qed.

(** C9, amended.  Whatever the order of submissions and settlements:
    the engine is created at most once, and once as soon as a job is
    submitted; all calls that got past [getWorker] got the one settled
    outcome of the initialisation, and all recognitions run on one
    engine; at most one recognition is in flight at a time, and jobs
    are started and completed in the order of their submission.  If the
    initialisation succeeds and no recognition rejects, then once nothing
    is pending the N submitted jobs have had N recognitions, started and
    completed in the order of submission, each fulfilled. *)
Theorem recognition_is_serialized (evs : list event) :
  let s := run evs in
  (creations (log s) <= 1 /\ (submitted 0 evs <> [] -> creations (log s) = 1))
  /\ (forall o, workerPromise s = Some (Settled o) ->
        suspended s = []
        /\ Forall (fun a => snd a = o) (acquired s)
        /\ map fst (acquired s) = seq 0 (calls s))
  /\ (forall w w', In w (enginesUsed (log s)) ->
                   In w' (enginesUsed (log s)) -> w = w')
  /\ oneAtATime None (log s) = true
  /\ ((exists k, map fst (recognitions (log s)) = seq 0 k)
      /\ (exists k, completions (log s) = seq 0 k))
  /\ (forallb fulfils evs = true -> quiescent s = true ->
      recognitions (log s) = submitted 0 evs
      /\ completions (log s) = map fst (submitted 0 evs)
      /\ forall id, id < length (submitted 0 evs) ->
           exists v, resultOf s id = Some (Settled (Fulfilled v))).
Proof.
  intros s. pose proof (run_inv evs) as HI. fold s in HI.
  pose proof HI as [Hlog Hchain Hcr Hw].
  split; [|split; [|split; [|split; [|split]]]].
  - rewrite Hcr. split; [destruct (workerPromise s); lia|].
    intros Hne. destruct (workerPromise s); [reflexivity|].
    destruct Hw as (_ & _ & _ & Hc). unfold s in Hc.
    rewrite calls_run in Hc. destruct (submitted 0 evs); [contradiction|].
    discriminate Hc.
  - intros o Ho. now apply acquired_same.
  - intros w w'. now apply one_engine.
  - rewrite <- oneAtATime_engineLog, Hlog. now apply chain_oneAtATime.
  - now apply in_order.
  - intros Hf Hq. destruct (run_unfailed evs Hf) as [He Hc Hr Hl _].
    fold s in He, Hc, Hr, Hl.
    destruct (quiescent_fulfilled s Hq Hl) as [Hs Hd].
    destruct (fulfilled_events (queue s) Hd) as [E1 E2].
    unfold entries in He. rewrite Hs, app_nil_r in He.
    rewrite <- recognitions_engineLog, <- completions_engineLog, Hlog.
    repeat split.
    + now rewrite E1.
    + rewrite E2, <- He, map_map. reflexivity.
    + intros id Hid. apply resultOf_fulfilled; trivial.
      replace (map owner (queue s)) with (map fst (map entry (queue s)))
        by (now rewrite map_map).
      rewrite He, submitted_ids. apply in_seq. lia.
Qed.

Lemma recognition_is_serialized_witness :
  recognitions (log (run sampleSchedule)) = submitted 0 sampleSchedule.
Proof.
  destruct (recognition_is_serialized sampleSchedule) as (_ & _ & _ & _ & _ & H).
  apply H; reflexivity.
Defined.

End ManagerProperties.

(** * Further properties of the normalizer *)

Section NormalizerFurther.

Lemma digitsOf_app a b : digitsOf (a ++ b) = digitsOf a ++ digitsOf b.
Proof. apply filter_app. Qed.

Lemma digitsOf_filter p t :
  (forall c, isDigit c = true -> p c = true) ->
  digitsOf (filter p t) = digitsOf t.
Proof.
  intros H. unfold digitsOf. induction t as [|c t IH]; [reflexivity|].
  cbn [filter]. destruct (p c) eqn:Hp; cbn [filter]; rewrite IH; trivial.
  destruct (isDigit c) eqn:Hd; [|reflexivity].
  rewrite (H c Hd) in Hp. discriminate.
Qed.

Lemma digitsOf_dropWhile p t :
  (forall c, p c = true -> isDigit c = false) ->
  digitsOf (dropWhile p t) = digitsOf t.
Proof.
  intros H. unfold digitsOf. induction t as [|c t IH]; [reflexivity|].
  cbn [dropWhile]. destruct (p c) eqn:Hp; [|reflexivity].
  cbn [filter]. now rewrite (H c Hp).
Qed.

Lemma space_not_digit c : isWhiteSpace c = true -> isDigit c = false.
Proof.
  intros H. destruct (isDigit c) eqn:Hd; [|reflexivity].
  assert (Hn : isNumChar c = true) by (unfold isNumChar; now rewrite Hd).
  apply numeric_not_space in Hn. congruence.
Qed.

Lemma digitsOf_trim t : digitsOf (trim t) = digitsOf t.
Proof.
  unfold trim, digitsOf. rewrite filter_rev.
  fold (digitsOf (dropWhile isWhiteSpace (rev (dropWhile isWhiteSpace t)))).
  rewrite (digitsOf_dropWhile _ _ space_not_digit). unfold digitsOf.
  rewrite filter_rev, rev_involutive.
  apply (digitsOf_dropWhile _ _ space_not_digit).
Qed.

Lemma digitsOf_stripped token : digitsOf (stripped token) = digitsOf token.
Proof.
  unfold stripped, removeAll. rewrite !digitsOf_filter.
  - apply digitsOf_trim.
  - intros c Hc. destruct (isWhiteSpace c) eqn:E; [|reflexivity].
    apply space_not_digit in E. congruence.
  - intros c Hc. unfold isNumChar. now rewrite Hc.
Qed.

End NormalizerFurther.

Section NormalizerShape.

Lemma digitsOf_cut pre d post :
  isDigit d = false -> digitsOf (pre ++ d :: post) = digitsOf pre ++ digitsOf post.
Proof.
  intros H. rewrite digitsOf_app. unfold digitsOf at 2. cbn [filter].
  now rewrite H.
Qed.

Lemma digitsOf_bothSeparators t :
  includes ch_dot t = true -> includes ch_comma t = true ->
  digitsOf (bothSeparators t) = digitsOf t.
Proof.
  intros Hd Hc.
  destruct (bothSeparators_cut t Hd Hc) as (pre & post & Hcut & _ & ->).
  rewrite (digitsOf_cut pre ch_dot post eq_refl).
  rewrite <- (digitsOf_cut pre (decimalSeparator t) post).
  - rewrite <- Hcut. apply digitsOf_filter.
    intros c Hc'.
    apply negb_true_iff, N.eqb_neq. intros ->.
    destruct (decimalSeparator t =? ch_dot); discriminate Hc'.
  - unfold decimalSeparator. now destruct (_ <? _)%Z.
Qed.

Lemma digitsOf_replaceAll t : digitsOf (replaceAll ch_comma ch_dot t) = digitsOf t.
Proof.
  unfold digitsOf, replaceAll. induction t as [|c t IH]; [reflexivity|].
  cbn [map filter]. rewrite IH.
  destruct (N.eqb_spec c ch_comma) as [->|]; reflexivity.
Qed.

Lemma digitsOf_oneSeparator t : digitsOf (oneSeparator t) = digitsOf t.
Proof.
  pose proof (oneSeparator_cut t) as H. cbv zeta in H.
  rewrite <- (digitsOf_replaceAll t).
  destruct (2 <=? _)%nat.
  - destruct H as (pre & post & -> & _ & ->).
    rewrite !(digitsOf_cut _ ch_dot post eq_refl). f_equal.
    apply digitsOf_filter. intros c Hc.
    apply negb_true_iff, N.eqb_neq. intros ->. discriminate Hc.
  - now rewrite H.
Qed.

Lemma dropWhile_zeros t :
  exists k, t = repeat ch_zero k ++ dropWhile (N.eqb ch_zero) t.
Proof.
  induction t as [|c t (k & IH)]; [now exists 0%nat|].
  cbn [dropWhile]. destruct (N.eqb_spec ch_zero c) as [<-|].
  - exists (S k). cbn [repeat app]. now rewrite <- IH.
  - now exists 0%nat.
Qed.

Lemma digitsOf_zeros k : digitsOf (repeat ch_zero k) = repeat ch_zero k.
Proof. induction k as [|k IH]; [reflexivity|]. cbn. unfold digitsOf in IH. now rewrite IH. Qed.

Lemma digitsOf_stripZeros t :
  exists k, digitsOf t = repeat ch_zero k ++ digitsOf (stripZeros t).
Proof.
  unfold stripZeros. destruct (_ && _); [|now exists 0%nat].
  destruct (dropWhile_zeros t) as (k & H). exists k.
  rewrite H at 1. now rewrite digitsOf_app, digitsOf_zeros.
Qed.

(** The normalizer keeps the digits of the token, in their order, but for
    zeros at the front. *)
Lemma normalize_digits token :
  exists k,
    digitsOf token = repeat ch_zero k ++ digitsOf (normalizeNumberToken token).
Proof.
  rewrite normalize_unfold. cbv zeta. rewrite <- (digitsOf_stripped token).
  destruct (stripped token) as [|c t] eqn:E; [now exists 0%nat|].
  cbn [isEmpty]. rewrite <- E. clear E.
  set (u := stripped token).
  set (b := if includes ch_dot u && includes ch_comma u
            then bothSeparators u else oneSeparator u).
  assert (Hb : digitsOf b = digitsOf u).
  { subst b. destruct (includes ch_dot u) eqn:Hd, (includes ch_comma u) eqn:Hc;
      cbn [andb]; auto using digitsOf_bothSeparators, digitsOf_oneSeparator. }
  rewrite <- Hb. apply digitsOf_stripZeros.
Qed.

(** The result does not begin with a zero that a digit follows. *)
Lemma leadingZeros_stripZeros t : leadingZeros (stripZeros t) = false.
Proof.
  unfold stripZeros. destruct (leadingZeros t) eqn:Hl; cbn [andb]; [|exact Hl].
  destruct (zeroDot t) eqn:Hz; cbn [negb]; [|apply leadingZeros_dropped].
  destruct t as [|c [|d t]]; try discriminate. cbn in Hz, Hl.
  apply andb_true_iff in Hz. destruct Hz as [Hc Hd].
  apply N.eqb_eq in Hc, Hd. subst c d. discriminate Hl.
Qed.

(** The result is not longer than the token. *)
Lemma dropWhile_length p t : (length (dropWhile p t) <= length t)%nat.
Proof.
  induction t as [|c t IH]; [reflexivity|]. cbn [dropWhile].
  destruct (p c); cbn [length]; lia.
Qed.

Lemma trim_length t : (length (trim t) <= length t)%nat.
Proof.
  unfold trim. rewrite length_rev.
  etransitivity; [apply dropWhile_length|]. rewrite length_rev.
  apply dropWhile_length.
Qed.

Lemma stripped_length token : (length (stripped token) <= length token)%nat.
Proof.
  unfold stripped, removeAll.
  etransitivity; [apply filter_length_le|].
  etransitivity; [apply filter_length_le|]. apply trim_length.
Qed.

Lemma bothSeparators_length t :
  includes ch_dot t = true -> includes ch_comma t = true ->
  (length (bothSeparators t) <= length t)%nat.
Proof.
  intros Hd Hc.
  destruct (bothSeparators_cut t Hd Hc) as (pre & post & Hcut & _ & ->).
  assert (H : (length (pre ++ decimalSeparator t :: post) <= length t)%nat)
    by (rewrite <- Hcut; apply filter_length_le).
  rewrite length_app in H |- *. cbn [length] in H |- *. lia.
Qed.

Lemma oneSeparator_length t : (length (oneSeparator t) <= length t)%nat.
Proof.
  pose proof (oneSeparator_cut t) as H. cbv zeta in H.
  assert (Hl : length (replaceAll ch_comma ch_dot t) = length t)
    by apply length_map.
  destruct (2 <=? _)%nat.
  - destruct H as (pre & post & Hcut & _ & ->). rewrite Hcut in Hl.
    pose proof (filter_length_le (fun x => negb (x =? ch_dot)) pre) as Hf.
    rewrite length_app in Hl |- *. cbn [length] in Hl |- *.
    unfold jsstring, code_unit in *. lia.
  - rewrite H. lia.
Qed.

Lemma normalize_length token :
  (length (normalizeNumberToken token) <= length token)%nat.
Proof.
  rewrite normalize_unfold. cbv zeta.
  pose proof (stripped_length token) as Hs.
  destruct (isEmpty (stripped token)); [cbn; lia|].
  etransitivity; [|exact Hs].
  etransitivity.
  { unfold stripZeros. destruct (_ && _); [apply dropWhile_length | reflexivity]. }
  destruct (includes ch_dot _) eqn:Hd, (includes ch_comma _) eqn:Hc; cbn [andb];
    auto using bothSeparators_length, oneSeparator_length.
Qed.

(** X1.  The result of [normalizeNumberToken] holds nothing but digits,
    dots and commas, and is not longer than the token. *)
Theorem normalize_alphabet_and_length (token : jsstring) :
  Forall (fun c => isDigit c = true \/ c = ch_dot \/ c = ch_comma)
    (normalizeNumberToken token)
  /\ (length (normalizeNumberToken token) <= length token)%nat.
Proof.
  split; [|apply normalize_length].
  eapply Forall_impl; [|apply normalize_numeric].
  intros c H. unfold isNumChar in H.
  apply orb_true_iff in H. destruct H as [H|H].
  - apply orb_true_iff in H. destruct H as [H|H]; [now left|].
    right. left. now apply N.eqb_eq.
  - right. right. now apply N.eqb_eq.
Qed.

(** X2.  The result of [normalizeNumberToken] never begins with a zero
    followed by a digit: zeros at the front are removed, up to the first
    other character. *)
Theorem normalize_no_leading_zero (token : jsstring) (d : code_unit) (r : jsstring) :
  normalizeNumberToken token = ch_zero :: d :: r -> isDigit d = false.
Proof.
  intros H.
  assert (Hl : leadingZeros (normalizeNumberToken token) = false).
  { rewrite normalize_unfold. cbv zeta.
    destruct (isEmpty (stripped token)); [reflexivity|].
    apply leadingZeros_stripZeros. }
  rewrite H in Hl. cbn [leadingZeros zerosThenDigit] in Hl.
  rewrite N.eqb_refl in Hl. cbn [andb] in Hl.
  now apply orb_false_iff in Hl.
Qed.

Lemma normalize_no_leading_zero_witness : isDigit ch_dot = false.
Proof.
  apply (normalize_no_leading_zero (lit "0,50") ch_dot (lit "50")).
  vm_compute. reflexivity.
Defined.

(** X3.  [normalizeNumberToken] neither adds nor reorders nor drops a
    digit, zeros at the front apart: the digits of the token are zeros
    followed by the digits of the result. *)
Theorem normalize_keeps_digits (token : jsstring) :
  exists k,
    digitsOf token = repeat ch_zero k ++ digitsOf (normalizeNumberToken token).
Proof. apply normalize_digits. Qed.

End NormalizerShape.

(** * Further properties of the extractor *)

Section TokenFacts.

Lemma matchBody_spec n t m :
  matchBody n t = Some m ->
  exists body d rest,
    m = body ++ [d] /\ t = m ++ rest /\ (length body <= n)%nat
    /\ tokenChars body /\ isDigit d = true.
Proof.
  revert t m. induction n as [|n IH]; intros [|c r] m H; try discriminate.
  - cbn [matchBody] in H. destruct (isDigit c) eqn:Hd; [|discriminate].
    injection H as <-. exists [], c, r. repeat split; trivial. constructor.
  - cbn [matchBody] in H.
    assert (Hstop : (if isDigit c then Some [c] else None) = Some m ->
                    exists body d rest,
                      m = body ++ [d] /\ c :: r = m ++ rest
                      /\ (length body <= S n)%nat
                      /\ tokenChars body /\ isDigit d = true).
    { destruct (isDigit c) eqn:Hd; [|discriminate]. intros [= <-].
      exists [], c, r. repeat split; trivial; [cbn; lia | constructor]. }
    destruct (isTokenChar c) eqn:Hc; [|now apply Hstop].
    destruct (matchBody n r) as [m'|] eqn:Hm; [|now apply Hstop].
    injection H as <-.
    destruct (IH r m' Hm) as (body & d & rest & -> & -> & Hl & Hb & Hd).
    exists (c :: body), d, rest. repeat split; trivial.
    + cbn [length]. lia.
    + now constructor.
Qed.

Lemma matchAt_spec t tok :
  matchAt t = Some tok ->
  exists c body d rest,
    tok = c :: body ++ [d] /\ t = tok ++ rest
    /\ isDigit c = true /\ isDigit d = true
    /\ (length body <= 15)%nat /\ tokenChars body.
Proof.
  destruct t as [|c r]; [discriminate|]. cbn [matchAt].
  destruct (isDigit c) eqn:Hc; [|discriminate].
  destruct (matchBody 15 r) as [m|] eqn:Hm; [|discriminate].
  intros [= <-].
  destruct (matchBody_spec 15 r m Hm) as (body & d & rest & -> & -> & Hl & Hb & Hd).
  exists c, body, d, rest. repeat split; trivial.
Qed.

Lemma scan_skip pre t : scanFrom (length pre) (pre ++ t) = scanFrom 0 t.
Proof. induction pre as [|c pre IH]; [reflexivity | exact IH]. Qed.

Lemma scan_match t tok after :
  matchAt t = Some tok -> t = tok ++ after ->
  scanFrom 0 t = tok :: scanFrom 0 after.
Proof.
  intros Hm Ht. destruct (matchAt_spec t tok Hm) as (c & body & d & rest & -> & _).
  subst t. cbn [app scanFrom]. cbn [app] in Hm. rewrite Hm.
  f_equal. change (length (c :: body ++ [d]) - 1)%nat with (length (body ++ [d]) - 0)%nat.
  rewrite Nat.sub_0_r. apply scan_skip.
Qed.

Lemma scan_miss c r : matchAt (c :: r) = None -> scanFrom 0 (c :: r) = scanFrom 0 r.
Proof. intros H. cbn [scanFrom]. now rewrite H. Qed.

Lemma tokensIn_cons c r toks :
  matchAt (c :: r) = None -> tokensIn r toks -> tokensIn (c :: r) toks.
Proof.
  intros Hc. destruct toks as [|tok rest]; cbn [tokensIn].
  - intros H [|x a] b E; cbn [app] in E; [now subst b|].
    injection E as -> E. now apply (H a b).
  - intros (gap & after & -> & Hgap & Hm & Hrest).
    exists (c :: gap), after. repeat split; trivial.
    intros [|x a] b E Hb; cbn [app] in E.
    + subst b. exact Hc.
    + injection E as -> E. now apply (Hgap a b).
Qed.

Lemma tokensIn_scan n raw :
  (length raw <= n)%nat -> tokensIn raw (scanFrom 0 raw).
Proof.
  revert raw. induction n as [|n IH]; intros [|c r] Hl;
    try (cbn in Hl; lia);
    try (cbn [scanFrom tokensIn]; intros a b E;
         symmetry in E; apply app_eq_nil in E; destruct E as [_ ->];
         reflexivity).
  destruct (matchAt (c :: r)) as [tok|] eqn:Hm.
  - destruct (matchAt_spec _ _ Hm) as (c' & body & d & rest & Htok & Ht & _).
    rewrite (scan_match _ tok rest Hm Ht). rewrite Ht in Hm |- *.
    cbn [tokensIn]. exists [], rest. repeat split; trivial.
    + intros a b E Hb. symmetry in E. apply app_eq_nil in E. tauto.
    + apply IH. apply (f_equal (@length _)) in Ht.
      rewrite length_app, Htok in Ht. cbn [length] in Hl, Ht. lia.
  - rewrite (scan_miss c r Hm). apply tokensIn_cons; [exact Hm|].
    apply IH. cbn [length] in Hl. lia.
Qed.

Lemma tokensIn_matchTokens raw : tokensIn raw (matchTokens raw).
Proof. apply (tokensIn_scan (length raw)). reflexivity. Qed.

Lemma tokensIn_In raw toks tok :
  tokensIn raw toks -> In tok toks ->
  exists a b, raw = a ++ tok ++ b /\ matchAt (tok ++ b) = Some tok.
Proof.
  revert raw. induction toks as [|x toks IH]; intros raw H Hin; [contradiction|].
  cbn [tokensIn] in H. destruct H as (gap & after & -> & _ & Hm & Hrest).
  destruct Hin as [->|Hin].
  - now exists gap, after.
  - destruct (IH after Hrest Hin) as (a & b & -> & Hb).
    exists (gap ++ x ++ a), b. split; [|exact Hb].
    now rewrite <- !app_assoc.
Qed.

Lemma token_shape raw tok :
  In tok (matchTokens raw) ->
  exists c body d a b,
    tok = c :: body ++ [d] /\ raw = a ++ tok ++ b
    /\ isDigit c = true /\ isDigit d = true
    /\ (length body <= 15)%nat /\ tokenChars body.
Proof.
  intros H.
  destruct (tokensIn_In raw _ tok (tokensIn_matchTokens raw) H)
    as (a & b & Hraw & Hm).
  destruct (matchAt_spec _ _ Hm) as (c & body & d & rest & Htok & _ & Hc & Hd & Hl & Hb).
  now exists c, body, d, a, b.
Qed.

Lemma hd_In {A} (d : A) (l : list A) : (0 < length l)%nat -> In (hd d l) l.
Proof. destruct l; cbn [length hd]; [lia | now left]. Qed.

Lemma digit_tokenChar c : isDigit c = true -> isTokenChar c = true.
Proof. intros H. unfold isTokenChar, isNumChar. now rewrite H. Qed.

End TokenFacts.

Section ExtractorFurther.

(** X4.  Every token the pattern finds has between 2 and 17 characters,
    begins and ends with a digit, and holds nothing but digits, dots,
    commas and white space. *)
Theorem token_form (raw tok : jsstring) :
  In tok (matchTokens raw) ->
  (2 <= length tok <= 17)%nat
  /\ isDigit (hd 0 tok) = true
  /\ isDigit (last tok 0) = true
  /\ Forall (fun c => isTokenChar c = true) tok.
Proof.
  intros H.
  destruct (token_shape raw tok H) as (c & body & d & a & b & -> & _ & Hc & Hd & Hl & Hb).
  repeat split.
  - cbn [length]. rewrite length_app. cbn [length]. lia.
  - cbn [length]. rewrite length_app. cbn [length]. lia.
  - exact Hc.
  - change (c :: body ++ [d]) with ((c :: body) ++ [d]). now rewrite last_last.
  - constructor; [now apply digit_tokenChar|].
    apply Forall_app. split; [exact Hb|].
    constructor; [now apply digit_tokenChar | constructor].
Qed.

Lemma token_form_witness :
  (2 <= length (lit "12,00") <= 17)%nat.
Proof.
  apply (token_form sampleText (lit "12,00")). vm_compute. tauto.
Defined.

(** X5.  The tokens are matches of the pattern that lie in the text from
    left to right without overlapping, each the first match after the one
    before it: the pattern matches at no position of the text between
    them, nor after the last. *)
Theorem tokens_leftmost_disjoint (raw : jsstring) :
  tokensIn raw (matchTokens raw).
Proof. apply tokensIn_matchTokens. Qed.

(** X6.  A text with fewer than two decimal digits gives no candidate: a
    price written with one digit is not found. *)
Theorem no_amount_without_two_digits (text : jsstring) :
  (length (digitsOf text) < 2)%nat -> extractAmounts text = [].
Proof.
  intros H.
  assert (Hn : matchTokens text = []).
  { destruct (matchTokens text) as [|tok toks] eqn:E; [reflexivity|].
    destruct (token_shape text tok) as (c & body & d & a & b & -> & Hraw & Hc & Hd & _).
    { rewrite E. now left. }
    exfalso. rewrite Hraw in H. rewrite !digitsOf_app in H.
    change (c :: body ++ [d]) with ([c] ++ body ++ [d]) in H.
    rewrite !digitsOf_app in H. unfold digitsOf at 2 4 in H.
    cbn [filter] in H. rewrite Hc, Hd in H.
    rewrite !length_app in H. cbn [length] in H. lia. }
  unfold extractAmounts. cbv zeta. now rewrite Hn.
Qed.

Lemma no_amount_without_two_digits_witness :
  extractAmounts (lit "5 lv.") = [].
Proof. apply no_amount_without_two_digits. cbn. lia. Defined.

(** X7.  Every candidate comes from a token of the text: its normalized
    string is the normalization of that token, is not empty and has at
    most 17 characters, its value is what [parseFloat] reads in that
    string, and its score is computed from the two. *)
Theorem candidate_origin (text : jsstring) (c : candidate) :
  In c (extractAmounts text) ->
  exists tok,
    In tok (matchTokens text)
    /\ normalized c = normalizeNumberToken tok
    /\ normalized c <> []
    /\ (length (normalized c) <= 17)%nat
    /\ value c = parseFloat (normalized c)
    /\ score c = scoreOf (value c) (normalized c).
Proof.
  unfold extractAmounts. cbv zeta. rewrite collect_firsts. cbn [app].
  intros H. apply firstn_incl in H.
  apply (Permutation_in _ (Permutation_sym (sortBy_perm compareFn _))) in H.
  apply firsts_fresh in H. destruct H as [H _].
  apply candidatesOf_spec in H. destruct H as (tok & Hin & H).
  apply candidateOf_spec in H. destruct H as (Hn & Hne & Hv & Hs & _).
  exists tok. repeat split; trivial.
  rewrite Hn. etransitivity; [apply normalize_length|].
  destruct (token_shape text tok Hin) as (x & body & d & a & b & -> & _ & _ & _ & Hl & _).
  cbn [length]. rewrite length_app. cbn [length]. lia.
Qed.

Lemma candidate_origin_witness :
  exists tok,
    In tok (matchTokens sampleText)
    /\ lit "12.00" = normalizeNumberToken tok.
Proof.
  destruct (candidate_origin sampleText
              (mkCandidate (ofZ 12) (lit "12.00") (ofDecimal 45 (-1))))
    as (tok & H1 & H2 & _).
  - vm_compute. now left.
  - exists tok. split; [exact H1 | exact H2].
Defined.

End ExtractorFurther.

(** * Further facts about the numbers: rounding keeps the order *)

Section NumberFurther.
Local Open Scope Z_scope.

Lemma round64_magnitude n d :
  round64 n d =
  if max_finite <? magnitude (Z.abs n) d then Inf (n <? 0)
  else Fin (Z.sgn n * magnitude (Z.abs n) d).
Proof. reflexivity. Qed.

Lemma nearest_even_mono n n' d :
  0 <= n <= n' -> 0 < d -> nearest_even n d <= nearest_even n' d.
Proof.
  intros Hn Hd.
  pose proof (nearest_even_bounds n d ltac:(lia) Hd) as Hb.
  pose proof (nearest_even_bounds n' d ltac:(lia) Hd) as Hb'.
  assert (Hq : n / d <= n' / d) by (apply Z.div_le_mono; lia).
  destruct (Z.eq_dec (n / d) (n' / d)) as [E|E]; [|lia].
  pose proof (Z.div_mod n d ltac:(lia)) as Hm.
  pose proof (Z.div_mod n' d ltac:(lia)) as Hm'.
  assert (Hr : n mod d <= n' mod d) by (rewrite E in Hm; lia).
  unfold nearest_even. rewrite <- E.
  destruct (Z.compare_spec (2 * (n mod d)) d),
           (Z.compare_spec (2 * (n' mod d)) d);
    cbv zeta; destruct (Z.even (n / d)); lia.
Qed.

Lemma nearest_even_exact m d : 0 < d -> nearest_even (m * d) d = m.
Proof.
  intros Hd. unfold nearest_even.
  rewrite Z.div_mul, Z.mod_mul by lia. cbn [Z.mul].
  destruct d; try lia; reflexivity.
Qed.

Lemma magnitude_nonneg a d : 0 <= a -> 0 < d -> 0 <= magnitude a d.
Proof.
  intros Ha Hd. unfold magnitude. cbv zeta.
  set (k := Z.max 0 _).
  assert (Hk : 0 < 2 ^ k) by (apply Z.pow_pos_nonneg; unfold k; lia).
  pose proof (nearest_even_bounds a (d * 2 ^ k) Ha ltac:(nia)) as [Hlo _].
  assert (0 <= a / (d * 2 ^ k)) by (apply Z.div_pos; nia). nia.
Qed.

Lemma magnitude_zero d : 0 < d -> magnitude 0 d = 0.
Proof.
  intros Hd. unfold magnitude. cbv zeta. rewrite Z.div_0_l by lia.
  cbn [Z.log2 Z.add Z.sub Z.opp Z.max Z.compare Z.pos_sub Z.pow Z.pow_pos
       Pos.iter Z.mul Pos.mul].
  rewrite nearest_even_zero by lia. reflexivity.
Qed.

Lemma magnitude_mono a a' d :
  0 <= a <= a' -> 0 < d -> magnitude a d <= magnitude a' d.
Proof.
  intros Ha Hd. unfold magnitude. cbv zeta.
  set (q := a / d). set (q' := a' / d).
  assert (Hq0 : 0 <= q) by (apply Z.div_pos; lia).
  assert (Hq : q <= q') by (apply Z.div_le_mono; lia).
  pose proof (Z.log2_le_mono q q' Hq) as Hl.
  set (k := Z.max 0 (Z.log2 q + 1 - 53)).
  set (k' := Z.max 0 (Z.log2 q' + 1 - 53)).
  assert (Hk0 : 0 <= k) by (unfold k; lia).
  assert (Hkk : k <= k') by (unfold k, k'; lia).
  assert (Hp : 0 < 2 ^ k) by (apply Z.pow_pos_nonneg; lia).
  assert (Hp' : 0 < 2 ^ k') by (apply Z.pow_pos_nonneg; lia).
  destruct (Z.eq_dec k k') as [E|E].
  - rewrite <- E.
    pose proof (nearest_even_mono a a' (d * 2 ^ k) Ha ltac:(nia)). nia.
  - assert (Hlog' : Z.log2 q' = k' + 52) by (unfold k, k' in *; lia).
    assert (Hq'pos : 0 < q').
    { destruct (Z.le_gt_cases q' 0) as [H|H]; [|exact H].
      rewrite (Z.log2_nonpos q' H) in Hlog'. lia. }
    pose proof (Z.log2_spec q' Hq'pos) as [Hlo' _]. rewrite Hlog' in Hlo'.
    assert (Hup : q < 2 ^ (k + 53)).
    { destruct (Z.eq_dec q 0) as [->|Hne]; [apply Z.pow_pos_nonneg; lia|].
      pose proof (Z.log2_spec q ltac:(lia)) as [_ Hhi].
      eapply Z.lt_le_trans; [exact Hhi|].
      apply Z.pow_le_mono_r; unfold k; lia. }
    (* the smaller one is at most 2^(53+k) *)
    assert (Ha1 : a < d * 2 ^ (k + 53)).
    { pose proof (Z.div_mod a d ltac:(lia)) as Hdm.
      pose proof (Z.mod_pos_bound a d Hd) as Hmb. fold q in Hdm.
      assert (q + 1 <= 2 ^ (k + 53)) by lia. nia. }
    assert (Hs : 2 ^ (k + 53) = 2 ^ 53 * 2 ^ k)
      by (rewrite Z.pow_add_r by lia; ring).
    assert (H1 : nearest_even a (d * 2 ^ k) <= 2 ^ 53).
    { rewrite <- (nearest_even_exact (2 ^ 53) (d * 2 ^ k)) by nia.
      apply nearest_even_mono; [|nia]. rewrite Hs in Ha1. nia. }
    (* the greater one is at least 2^(52+k') *)
    assert (Ha2 : d * 2 ^ (k' + 52) <= a').
    { pose proof (Z.div_mod a' d ltac:(lia)) as Hdm.
      pose proof (Z.mod_pos_bound a' d Hd) as Hmb. fold q' in Hdm. nia. }
    assert (Hs' : 2 ^ (k' + 52) = 2 ^ 52 * 2 ^ k')
      by (rewrite Z.pow_add_r by lia; ring).
    assert (H2 : 2 ^ 52 <= nearest_even a' (d * 2 ^ k')).
    { rewrite <- (nearest_even_exact (2 ^ 52) (d * 2 ^ k')) at 1 by nia.
      apply nearest_even_mono; [|nia]. rewrite Hs' in Ha2.
      split; [apply Z.mul_nonneg_nonneg; [apply Z.pow_nonneg|]; lia | nia]. }
    assert (Hk1 : 2 ^ 53 * 2 ^ k <= 2 ^ 52 * 2 ^ k').
    { rewrite <- Hs. replace (2 ^ 52 * 2 ^ k') with (2 ^ (52 + k'))
        by (rewrite Z.pow_add_r by lia; ring).
      apply Z.pow_le_mono_r; lia. }
    assert (0 <= nearest_even a (d * 2 ^ k)).
    { pose proof (nearest_even_bounds a (d * 2 ^ k) ltac:(lia) ltac:(nia)) as [Hlo _].
      assert (0 <= a / (d * 2 ^ k)) by (apply Z.div_pos; nia). lia. }
    etransitivity; [|etransitivity; [exact Hk1|]].
    + apply Z.mul_le_mono_nonneg_r; lia.
    + apply Z.mul_le_mono_nonneg_r; lia.
Qed.

Lemma leb_Fin a b : leb (Fin a) (Fin b) = (a <=? b).
Proof.
  unfold leb, ltb, eqb.
  destruct (Z.ltb_spec a b), (Z.eqb_spec a b), (Z.leb_spec a b);
    try reflexivity; lia.
Qed.

Lemma leb_least y : y <> NaN -> leb (Inf true) y = true.
Proof. destruct y as [|[]|]; [congruence|reflexivity..]. Qed.

Lemma leb_greatest x : x <> NaN -> leb x (Inf false) = true.
Proof. destruct x as [|[]|]; [congruence|reflexivity..]. Qed.

Lemma leb_below s b : leb (Inf s) (Fin b) = true -> s = true.
Proof. unfold leb, ltb, eqb. now rewrite orb_false_r. Qed.

Lemma leb_above a s : leb (Fin a) (Inf s) = true -> s = false.
Proof. unfold leb, ltb, eqb. rewrite orb_false_r. now destruct s. Qed.

Lemma leb_refl x : x <> NaN -> leb x x = true.
Proof.
  destruct x as [|[]|a]; [congruence|reflexivity..|].
  intros _. rewrite leb_Fin. apply Z.leb_refl.
Qed.

Lemma leb_trans x y z : leb x y = true -> leb y z = true -> leb x z = true.
Proof.
  destruct x as [|s|a], y as [|s'|b], z as [|s''|c]; intros H H';
    try discriminate H; try discriminate H'.
  - now destruct s, s', s''.
  - apply leb_below in H'. subst s'. now destruct s.
  - apply leb_below in H. apply leb_above in H'. now subst s s''.
  - apply leb_below in H. now subst s.
  - apply leb_above in H. subst s'. now destruct s''.
  - apply leb_below in H'. subst s'. discriminate H.
  - apply leb_above in H'. now subst s''.
  - rewrite leb_Fin in *. apply Z.leb_le in H, H'. apply Z.leb_le. lia.
Qed.

(** Rounding keeps the order of the quotients it rounds. *)
Lemma round64_mono n n' d :
  0 < d -> n <= n' -> leb (round64 n d) (round64 n' d) = true.
Proof.
  intros Hd Hn. rewrite !round64_magnitude.
  pose proof (magnitude_nonneg (Z.abs n) d ltac:(lia) Hd) as HM.
  pose proof (magnitude_nonneg (Z.abs n') d ltac:(lia) Hd) as HM'.
  destruct (Z.ltb_spec n 0) as [N|N], (Z.ltb_spec n' 0) as [N'|N']; try lia.
  - pose proof (magnitude_mono (Z.abs n') (Z.abs n) d ltac:(lia) Hd) as Hm.
    rewrite (Z.sgn_neg n N), (Z.sgn_neg n' N').
    destruct (Z.ltb_spec max_finite (magnitude (Z.abs n) d)),
             (Z.ltb_spec max_finite (magnitude (Z.abs n') d));
      try reflexivity; [lia|].
    rewrite leb_Fin. apply Z.leb_le. lia.
  - rewrite (Z.sgn_neg n N).
    destruct (Z.ltb_spec max_finite (magnitude (Z.abs n) d)),
             (Z.ltb_spec max_finite (magnitude (Z.abs n') d));
      try reflexivity.
    rewrite leb_Fin. apply Z.leb_le.
    destruct (Z.sgn_spec n') as [[? ->]|[[? ->]|[? ->]]]; lia.
  - pose proof (magnitude_mono (Z.abs n) (Z.abs n') d ltac:(lia) Hd) as Hm.
    destruct (Z.ltb_spec max_finite (magnitude (Z.abs n) d)),
             (Z.ltb_spec max_finite (magnitude (Z.abs n') d));
      try reflexivity; [lia|].
    rewrite leb_Fin. apply Z.leb_le.
    destruct (Z.eq_dec n 0) as [->|Hne].
    + change (Z.abs 0) with 0 in *. rewrite magnitude_zero by exact Hd.
      destruct (Z.sgn_spec n') as [[? ->]|[[? ->]|[? ->]]]; lia.
    + rewrite (Z.sgn_pos n), (Z.sgn_pos n') by lia. lia.
Qed.

Lemma add_mono x y c :
  leb x y = true -> leb (add x (Fin c)) (add y (Fin c)) = true.
Proof.
  destruct x as [|s|a], y as [|s'|b]; intros H; try discriminate H;
    cbn [add].
  - exact H.
  - apply leb_below in H. subst s. apply leb_least, round64_finite_or_inf.
  - apply leb_above in H. subst s'. apply leb_greatest, round64_finite_or_inf.
  - rewrite leb_Fin in H. apply Z.leb_le in H. apply round64_mono; lia.
Qed.

Lemma mul_mono x y c :
  0 < c -> leb x y = true -> leb (mul x (Fin c)) (mul y (Fin c)) = true.
Proof.
  intros Hc. pose proof grid_pos as Hg.
  assert (E0 : (c =? 0) = false) by (apply Z.eqb_neq; lia).
  assert (E1 : (c <? 0) = false) by (apply Z.ltb_ge; lia).
  destruct x as [|s|a], y as [|s'|b]; intros H; try discriminate H;
    cbn [mul]; rewrite ?E0, ?E1, ?xorb_false_r.
  - exact H.
  - apply leb_below in H. subst s. apply leb_least, round64_finite_or_inf.
  - apply leb_above in H. subst s'. apply leb_greatest, round64_finite_or_inf.
  - rewrite leb_Fin in H. apply Z.leb_le in H. apply round64_mono; nia.
Qed.

Lemma div_mono x y c :
  0 < c -> leb x y = true -> leb (div x (Fin c)) (div y (Fin c)) = true.
Proof.
  intros Hc. pose proof grid_pos as Hg.
  assert (E0 : (c =? 0) = false) by (apply Z.eqb_neq; lia).
  assert (E1 : (c <? 0) = false) by (apply Z.ltb_ge; lia).
  destruct x as [|s|a], y as [|s'|b]; intros H; try discriminate H;
    cbn [div]; rewrite ?E0, ?E1, ?xorb_false_r.
  - exact H.
  - apply leb_below in H. subst s. apply leb_least, round64_finite_or_inf.
  - apply leb_above in H. subst s'. apply leb_greatest, round64_finite_or_inf.
  - rewrite leb_Fin in H. apply Z.leb_le in H.
    rewrite (Z.sgn_pos c Hc). apply round64_mono; nia.
Qed.

Lemma round_mono x y :
  leb x y = true -> leb (Number.round x) (Number.round y) = true.
Proof.
  pose proof grid_pos as Hg.
  destruct x as [|s|a], y as [|s'|b]; intros H; try discriminate H;
    cbn [Number.round]; try exact H.
  rewrite leb_Fin in *. apply Z.leb_le in H. apply Z.leb_le.
  apply Z.mul_le_mono_nonneg_r; [lia|].
  apply Z.div_le_mono; lia.
Qed.

Lemma round2_mono x y :
  leb x y = true -> leb (round2 x) (round2 y) = true.
Proof.
  intros H. unfold round2, EPSILON. rewrite ofZ_100.
  pose proof grid_pos as Hg.
  apply div_mono; [lia|]. apply round_mono. apply mul_mono; [lia|].
  now apply add_mono.
Qed.

(** *** Rounding does not depend on the scale

    [round64] looks at 53 significant bits of a quotient: multiplying
    both numbers by a constant, or the numerator by a power of two once
    the quotient has 53 bits, changes nothing but the scale. *)

Lemma nearest_even_scale n d c :
  0 < d -> 0 < c -> nearest_even (n * c) (d * c) = nearest_even n d.
Proof.
  intros Hd Hc. unfold nearest_even.
  rewrite Z.div_mul_cancel_r by lia. rewrite Z.mul_mod_distr_r by lia.
  assert (E : (2 * (n mod d * c) ?= d * c) = (2 * (n mod d) ?= d)).
  { destruct (Z.compare_spec (2 * (n mod d)) d) as [H|H|H];
      [apply Z.compare_eq_iff | apply Z.compare_lt_iff | apply Z.compare_gt_iff];
      nia. }
  now rewrite E.
Qed.

Lemma magnitude_scale a d c :
  0 < d -> 0 < c -> magnitude (a * c) (d * c) = magnitude a d.
Proof.
  intros Hd Hc. unfold magnitude. cbv zeta.
  rewrite Z.div_mul_cancel_r by lia.
  set (k := Z.max 0 _).
  assert (Hk : 0 < 2 ^ k) by (apply Z.pow_pos_nonneg; unfold k; lia).
  replace (d * c * 2 ^ k) with (d * 2 ^ k * c) by ring.
  rewrite nearest_even_scale by nia. reflexivity.
Qed.

Lemma ltb_scale n c : 0 < c -> (n * c <? 0) = (n <? 0).
Proof. intros Hc. destruct (Z.ltb_spec (n * c) 0), (Z.ltb_spec n 0); trivial; nia. Qed.

Lemma sgn_scale n c : 0 < c -> Z.sgn (n * c) = Z.sgn n.
Proof. intros Hc. rewrite Z.sgn_mul, (Z.sgn_pos c Hc). ring. Qed.

Lemma abs_scale n c : 0 < c -> Z.abs (n * c) = Z.abs n * c.
Proof. intros Hc. rewrite Z.abs_mul, (Z.abs_eq c); lia. Qed.

Lemma round64_scale n d c :
  0 < d -> 0 < c -> round64 (n * c) (d * c) = round64 n d.
Proof.
  intros Hd Hc. rewrite !round64_magnitude.
  now rewrite abs_scale, magnitude_scale, ltb_scale, sgn_scale.
Qed.

Lemma magnitude_shift a d j :
  0 <= a -> 0 < d -> 0 <= j -> 2 ^ 52 <= a / d ->
  magnitude (a * 2 ^ j) d = magnitude a d * 2 ^ j.
Proof.
  intros Ha Hd Hj Hq. unfold magnitude. cbv zeta.
  set (q := a / d) in *.
  assert (Hp : 0 < 2 ^ j) by (apply Z.pow_pos_nonneg; lia).
  assert (Hq0 : 0 < q) by (pose proof (Z.pow_pos_nonneg 2 52); lia).
  pose proof (Z.log2_spec q Hq0) as [Hlo Hhi].
  assert (HL : 52 <= Z.log2 q) by (apply Z.log2_le_pow2; lia).
  assert (Hlog : Z.log2 (a * 2 ^ j / d) = Z.log2 q + j).
  { apply Z.log2_unique; [lia|].
    pose proof (Z.div_mod a d ltac:(lia)) as Hdm.
    pose proof (Z.mod_pos_bound a d Hd) as Hmb. fold q in Hdm.
    replace (Z.succ (Z.log2 q + j)) with (Z.log2 q + 1 + j) by lia.
    rewrite !Z.pow_add_r by lia. rewrite Z.pow_succ_r in Hhi by lia.
    change (2 ^ 1) with 2.
    assert (HP : 0 < 2 ^ Z.log2 q) by (apply Z.pow_pos_nonneg; lia).
    set (P := 2 ^ Z.log2 q) in *. set (J := 2 ^ j) in *.
    assert (H1 : d * P <= a) by nia.
    assert (H2 : a < d * (P * 2)) by nia.
    split.
    - apply Z.div_le_lower_bound; [lia|]. nia.
    - apply Z.div_lt_upper_bound; [lia|]. nia. }
  rewrite Hlog.
  rewrite (Z.max_r 0 (Z.log2 q + 1 - 53)) by lia.
  rewrite (Z.max_r 0 (Z.log2 q + j + 1 - 53)) by lia.
  replace (Z.log2 q + j + 1 - 53) with (Z.log2 q + 1 - 53 + j) by ring.
  set (k := Z.log2 q + 1 - 53).
  assert (Hk : 0 < 2 ^ k) by (apply Z.pow_pos_nonneg; unfold k; lia).
  rewrite Z.pow_add_r by (unfold k; lia).
  replace (d * (2 ^ k * 2 ^ j)) with (d * 2 ^ k * 2 ^ j) by ring.
  rewrite nearest_even_scale by nia. ring.
Qed.

(** The greatest finite number is above [2^2097] grid units. *)
Lemma fits M j : 0 <= M < 2 ^ 64 -> 0 <= j <= 2033 -> M * 2 ^ j <= max_finite.
Proof.
  intros HM Hj. unfold max_finite.
  assert (Hp : 0 < 2 ^ j) by (apply Z.pow_pos_nonneg; lia).
  assert (H1 : 2 ^ j <= 2 ^ 2033) by (apply Z.pow_le_mono_r; lia).
  assert (H2 : 2 ^ 2045 = 2 ^ 12 * 2 ^ 2033)
    by (rewrite <- Z.pow_add_r by lia; reflexivity).
  assert (H3 : 0 < 2 ^ 2033) by (apply Z.pow_pos_nonneg; lia).
  rewrite H2.
  assert (H4 : 2 ^ 64 <= (2 ^ 53 - 1) * 2 ^ 12) by (vm_compute; discriminate).
  assert (M * 2 ^ j <= 2 ^ 64 * 2 ^ 2033) by nia.
  assert (2 ^ 64 * 2 ^ 2033 <= (2 ^ 53 - 1) * 2 ^ 12 * 2 ^ 2033)
    by (apply Z.mul_le_mono_nonneg_r; lia).
  lia.
Qed.

(** A quotient with 53 bits or more is rounded as its numerator without
    the factor [2^j]; [M] is computed on small numbers. *)
Lemma round64_small n d j M :
  0 < d -> 0 <= j <= 2033 -> 2 ^ 52 <= Z.abs n / d ->
  magnitude (Z.abs n) d = M -> M < 2 ^ 64 ->
  round64 (n * 2 ^ j) d = Fin (Z.sgn n * M * 2 ^ j).
Proof.
  intros Hd Hj Hq HM Hs.
  assert (Hp : 0 < 2 ^ j) by (apply Z.pow_pos_nonneg; lia).
  rewrite round64_magnitude, abs_scale, sgn_scale by exact Hp.
  rewrite magnitude_shift, HM by lia.
  assert (H0 : 0 <= M) by (subst M; apply magnitude_nonneg; lia).
  pose proof (fits M j ltac:(lia) Hj).
  destruct (Z.ltb_spec max_finite (M * 2 ^ j)); [lia|].
  f_equal. ring.
Qed.

(** A number with at most 53 significant bits is not changed by
    rounding. *)
Lemma magnitude_exact j e d :
  0 < d -> 0 <= e -> 0 <= j < 2 ^ 53 ->
  magnitude (j * 2 ^ e * d) d = j * 2 ^ e.
Proof.
  intros Hd He Hj.
  destruct (Z.eq_dec j 0) as [->|Hne]; [now apply magnitude_zero|].
  unfold magnitude. cbv zeta. rewrite Z.div_mul by lia.
  rewrite Z.log2_mul_pow2 by lia.
  assert (HL : Z.log2 j < 53) by (apply Z.log2_lt_pow2; lia).
  pose proof (Z.log2_nonneg j) as HL0.
  set (k := Z.max 0 (e + Z.log2 j + 1 - 53)).
  assert (Hk : 0 <= k <= e) by (unfold k; lia).
  assert (Hp : 0 < 2 ^ k) by (apply Z.pow_pos_nonneg; lia).
  assert (E : 2 ^ e = 2 ^ (e - k) * 2 ^ k)
    by (rewrite <- Z.pow_add_r by lia; f_equal; lia).
  rewrite E.
  replace (j * (2 ^ (e - k) * 2 ^ k) * d) with (j * 2 ^ (e - k) * (d * 2 ^ k))
    by ring.
  rewrite nearest_even_exact by nia. ring.
Qed.

Lemma round64_exact j e d :
  0 < d -> 0 <= e <= 2033 -> Z.abs j < 2 ^ 53 ->
  round64 (j * 2 ^ e * d) d = Fin (j * 2 ^ e).
Proof.
  intros Hd He Hj.
  assert (Hp : 0 < 2 ^ e) by (apply Z.pow_pos_nonneg; lia).
  rewrite round64_magnitude, abs_scale, abs_scale, sgn_scale, sgn_scale
    by lia.
  rewrite magnitude_exact by lia.
  assert (H53 : 2 ^ 53 < 2 ^ 64) by (vm_compute; reflexivity).
  pose proof (fits (Z.abs j) e ltac:(lia) He).
  destruct (Z.ltb_spec max_finite (Z.abs j * 2 ^ e)); [lia|].
  f_equal. rewrite Z.mul_assoc, (Z.mul_comm (Z.sgn j)), Z.abs_sgn. reflexivity.
Qed.

(** The numbers of the program that are whole, and their sums and
    products, are exact. *)
Lemma ofZ_exact n : Z.abs n < 2 ^ 53 -> ofZ n = Fin (n * grid).
Proof.
  intros H. unfold ofZ, grid.
  rewrite <- (Z.mul_1_r (n * 2 ^ 1074)) at 1.
  apply round64_exact; lia.
Qed.

Lemma add_exact a b :
  Z.abs (a + b) < 2 ^ 53 ->
  add (Fin (a * grid)) (Fin (b * grid)) = Fin ((a + b) * grid).
Proof.
  intros H. cbn [add]. rewrite <- Z.mul_add_distr_r. unfold grid.
  rewrite <- (Z.mul_1_r ((a + b) * 2 ^ 1074)) at 1.
  apply round64_exact; lia.
Qed.

Lemma mul_exact a b :
  Z.abs (a * b) < 2 ^ 53 ->
  mul (Fin (a * grid)) (Fin (b * grid)) = Fin (a * b * grid).
Proof.
  intros H. cbn [mul]. pose proof grid_pos.
  replace (a * grid * (b * grid)) with (a * b * grid * grid) by ring.
  unfold grid at 1 3. apply round64_exact; [exact grid_pos | lia | exact H].
Qed.

End NumberFurther.

(** * Further properties of the score *)

Section ScoreFacts.
Local Open Scope Z_scope.

Lemma ofZ_mono n n' : n <= n' -> leb (ofZ n) (ofZ n') = true.
Proof.
  intros H. unfold ofZ. pose proof grid_pos.
  apply round64_mono; nia.
Qed.

Lemma upto_In n m : 0 <= m < Z.of_nat n -> In m (upto n).
Proof.
  intros H. unfold upto. rewrite <- (Z2Nat.id m) by lia.
  apply in_map, in_seq. lia.
Qed.

Lemma grid_split : grid = 2 ^ 56 * 2 ^ 1018.
Proof. unfold grid. rewrite <- Z.pow_add_r by lia. reflexivity. Qed.

Lemma small_53 : 2 ^ 53 = 9007199254740992.
Proof. reflexivity. Qed.

(** [Math.min(norm.length, 10) / 10] is the number nearest to the
    tenths. *)
Lemma tokenLen_value (n : nat) :
  div (Number.min (ofZ (Z.of_nat n)) (ofZ 10)) (ofZ 10)
  = ofDecimal (Z.min (Z.of_nat n) 10) (-1).
Proof.
  pose proof grid_pos as Hg. pose proof small_53 as H53.
  assert (Hmin : Number.min (ofZ (Z.of_nat n)) (ofZ 10)
                 = Fin (Z.min (Z.of_nat n) 10 * grid)).
  { rewrite ofZ_10. unfold Number.min.
    destruct (Z.le_gt_cases (Z.of_nat n) 10) as [H|H].
    - rewrite ofZ_exact by lia. cbv iota. unfold ltb.
      rewrite Z.min_l by lia.
      destruct (Z.ltb_spec (10 * grid) (Z.of_nat n * grid)); [nia | reflexivity].
    - rewrite Z.min_r by lia.
      pose proof (ofZ_mono 11 (Z.of_nat n) ltac:(lia)) as Hle.
      rewrite (ofZ_exact 11) in Hle by lia.
      destruct (ofZ (Z.of_nat n)) as [|s|u].
      + discriminate Hle.
      + apply leb_above in Hle. now subst s.
      + rewrite leb_Fin in Hle. apply Z.leb_le in Hle. cbv iota. unfold ltb.
        destruct (Z.ltb_spec (10 * grid) u); [reflexivity | lia]. }
  rewrite Hmin, ofZ_10. cbn [div].
  replace (10 * grid =? 0) with false by (symmetry; apply Z.eqb_neq; lia).
  rewrite (Z.sgn_pos (10 * grid)), (Z.abs_eq (10 * grid)), Z.mul_1_l by lia.
  rewrite round64_scale by lia. reflexivity.
Qed.

(** The tenths, on numbers of some sixty bits: [2^56] stands for 1. *)
Lemma tenths_small :
  forallb (fun m => (m =? 0) || ((2 ^ 52 <=? m * 2 ^ 56 / 10)
                                 && (magnitude (m * 2 ^ 56) 10 <? 2 ^ 64)))
          (upto 51) = true.
Proof. vm_compute. reflexivity. Qed.

Lemma ofDecimal_tenths m :
  0 <= m <= 50 ->
  ofDecimal m (-1) = Fin (magnitude (m * 2 ^ 56) 10 * 2 ^ 1018).
Proof.
  intros Hm. pose proof tenths_small as H. rewrite forallb_forall in H.
  specialize (H m (upto_In 51 m ltac:(lia))).
  apply orb_true_iff in H. destruct H as [H|H].
  - apply Z.eqb_eq in H. subst m. reflexivity.
  - apply andb_true_iff in H. destruct H as [H1 H2].
    apply Z.leb_le in H1. apply Z.ltb_lt in H2.
    unfold ofDecimal. change (0 <=? -1) with false. cbv iota.
    change (10 ^ (- -1)) with 10.
    rewrite grid_split, Z.mul_assoc.
    assert (H0 : 0 < m * 2 ^ 56).
    { destruct (Z.eq_dec m 0) as [->|]; [vm_compute in H1; now elim H1 | lia]. }
    rewrite (round64_small (m * 2 ^ 56) 10 1018 (magnitude (m * 2 ^ 56) 10));
      rewrite ?Z.abs_eq by lia; trivial; try lia.
    now rewrite (Z.sgn_pos _ H0), Z.mul_1_l.
Qed.

(** The sums of the score, on the small numbers: a bonus sum [B] and [l]
    tenths give the number nearest to [10 B + l] tenths. *)
Lemma sums_small :
  forallb (fun B => forallb (fun l =>
     let T := magnitude (l * 2 ^ 56) 10 in
     ((B =? 0) && (l =? 0))
     || ((2 ^ 52 <=? B * 2 ^ 56 + T)
         && (magnitude (B * 2 ^ 56 + T) 1
             =? magnitude ((10 * B + l) * 2 ^ 56) 10)
         && (magnitude (B * 2 ^ 56 + T) 1 <? 2 ^ 64)))
     (upto 11)) [0; 2; 4] = true.
Proof. vm_compute. reflexivity. Qed.

Lemma bonus_sum (b b' : bool) :
  add (mul (ofBool b) (ofZ 2)) (mul (ofBool b') (ofZ 2))
  = Fin ((2 * Z.b2z b + 2 * Z.b2z b') * grid).
Proof.
  pose proof small_53 as H53.
  assert (E : forall c : bool, mul (ofBool c) (ofZ 2) = Fin (2 * Z.b2z c * grid)).
  { intros c. replace (ofBool c) with (ofZ (Z.b2z c)) by (destruct c; reflexivity).
    rewrite !ofZ_exact by (destruct c; cbn [Z.b2z]; lia).
    rewrite mul_exact by (destruct c; cbn [Z.b2z]; lia).
    f_equal. ring. }
  rewrite !E. apply add_exact. destruct b, b'; cbn [Z.b2z]; lia.
Qed.

Lemma score_sum (b b' : bool) (l : Z) :
  0 <= l <= 10 ->
  add (add (mul (ofBool b) (ofZ 2)) (mul (ofBool b') (ofZ 2)))
      (ofDecimal l (-1))
  = ofDecimal (20 * Z.b2z b + 20 * Z.b2z b' + l) (-1).
Proof.
  intros Hl. rewrite bonus_sum.
  set (B := 2 * Z.b2z b + 2 * Z.b2z b').
  assert (HB : In B [0; 2; 4]) by (subst B; destruct b, b'; cbn; tauto).
  assert (HB' : 0 <= B <= 4) by (subst B; destruct b, b'; cbn [Z.b2z]; lia).
  replace (20 * Z.b2z b + 20 * Z.b2z b' + l) with (10 * B + l)
    by (subst B; ring).
  clearbody B.
  rewrite (ofDecimal_tenths l), (ofDecimal_tenths (10 * B + l)) by lia.
  pose proof sums_small as H. rewrite forallb_forall in H.
  specialize (H B HB). rewrite forallb_forall in H.
  specialize (H l (upto_In 11 l ltac:(lia))). cbv zeta in H.
  apply orb_true_iff in H. destruct H as [H|H].
  - apply andb_true_iff in H. destruct H as [H1 H2].
    apply Z.eqb_eq in H1, H2. subst B l. reflexivity.
  - apply andb_true_iff in H. destruct H as [H H3].
    apply andb_true_iff in H. destruct H as [H1 H2].
    apply Z.leb_le in H1. apply Z.eqb_eq in H2. apply Z.ltb_lt in H3.
    set (T := magnitude (l * 2 ^ 56) 10) in *.
    assert (HT : 0 <= T) by (apply magnitude_nonneg; lia).
    cbn [add]. rewrite grid_split.
    replace (B * (2 ^ 56 * 2 ^ 1018) + T * 2 ^ 1018)
      with ((B * 2 ^ 56 + T) * 2 ^ 1018) by ring.
    assert (H0 : 0 < B * 2 ^ 56 + T) by lia.
    rewrite (round64_small (B * 2 ^ 56 + T) 1 1018
               (magnitude (B * 2 ^ 56 + T) 1));
      rewrite ?Z.abs_eq, ?Z.div_1_r by lia; trivial; try lia.
    now rewrite (Z.sgn_pos _ H0), Z.mul_1_l, H2.
Qed.

Lemma scoreOf_points val norm :
  scoreOf val norm = ofDecimal (points val norm) (-1).
Proof.
  unfold scoreOf, points. cbv zeta. rewrite tokenLen_value.
  apply score_sum. lia.
Qed.

Lemma ofDecimal_mono m m' :
  m <= m' -> leb (ofDecimal m (-1)) (ofDecimal m' (-1)) = true.
Proof.
  intros H. unfold ofDecimal. change (0 <=? -1) with false. cbv iota.
  pose proof grid_pos. apply round64_mono; [reflexivity | nia].
Qed.

Lemma ltb_leb_trans x y z :
  ltb x y = true -> leb y z = true -> ltb x z = true.
Proof.
  destruct x as [|s|a], y as [|s'|b], z as [|s''|c]; intros H H';
    try discriminate H; try discriminate H'.
  - destruct s, s', s''; try discriminate H; try discriminate H'; reflexivity.
  - apply leb_below in H'. subst s'. destruct s; discriminate H.
  - apply leb_above in H'. subst s''. unfold ltb in H. now subst s.
  - exact H.
  - destruct s', s''; try discriminate H; try discriminate H'; reflexivity.
  - apply leb_below in H'. subst s'. discriminate H.
  - apply leb_above in H'. now subst s''.
  - rewrite leb_Fin in H'. apply Z.leb_le in H'. unfold ltb in *.
    apply Z.ltb_lt in H. apply Z.ltb_lt. lia.
Qed.

Lemma leb_not_ltb x y : leb y x = true -> ltb x y = false.
Proof.
  destruct x as [|s|a], y as [|s'|b]; intros H; try discriminate H;
    try reflexivity.
  - destruct s, s'; try discriminate H; reflexivity.
  - apply leb_above in H. now subst s.
  - apply leb_below in H. now subst s'.
  - rewrite leb_Fin in H. apply Z.leb_le in H. apply Z.ltb_ge. lia.
Qed.

(** One tenth more is a greater number. *)
Lemma steps_small :
  forallb (fun m => magnitude (m * 2 ^ 56) 10 <? magnitude ((m + 1) * 2 ^ 56) 10)
          (upto 50) = true.
Proof. vm_compute. reflexivity. Qed.

Lemma tenths_step m :
  0 <= m < 50 -> ltb (ofDecimal m (-1)) (ofDecimal (m + 1) (-1)) = true.
Proof.
  intros Hm. pose proof steps_small as H. rewrite forallb_forall in H.
  specialize (H m (upto_In 50 m ltac:(lia))). apply Z.ltb_lt in H.
  rewrite (ofDecimal_tenths m), (ofDecimal_tenths (m + 1)) by lia.
  unfold ltb. apply Z.ltb_lt.
  apply Z.mul_lt_mono_pos_r; [apply Z.pow_pos_nonneg; lia | exact H].
Qed.

Lemma tenths_ltb m m' :
  0 <= m <= 50 -> 0 <= m' <= 50 ->
  ltb (ofDecimal m (-1)) (ofDecimal m' (-1)) = (m <? m').
Proof.
  intros Hm Hm'. destruct (Z.ltb_spec m m') as [H|H].
  - apply (ltb_leb_trans _ _ _ (tenths_step m ltac:(lia))).
    apply ofDecimal_mono. lia.
  - apply leb_not_ltb. now apply ofDecimal_mono.
Qed.

Lemma points_range val norm : 0 <= points val norm <= 50.
Proof.
  unfold points.
  destruct (endsInDecimals norm), (_ && _); cbn [Z.b2z]; lia.
Qed.

End ScoreFacts.

Section ScoreProperties.
Local Open Scope Z_scope.

(** X8.  The score is computed without rounding error: it is the number
    nearest to a whole number of tenths, twenty for each bonus and one
    for each character of the normalized string up to ten. *)
Theorem score_is_tenths (val : number) (norm : jsstring) :
  scoreOf val norm = ofDecimal (points val norm) (-1)
  /\ 0 <= points val norm <= 50.
Proof. split; [apply scoreOf_points | apply points_range]. Qed.

(** X9.  Scores compare as their numbers of tenths do; so a candidate
    with more bonuses has the greater score whatever the lengths, and
    among candidates with the same bonuses the longer string, up to ten
    characters, has the greater score. *)
Theorem score_order (val val' : number) (norm norm' : jsstring) :
  ltb (scoreOf val norm) (scoreOf val' norm')
  = (points val norm <? points val' norm').
Proof.
  rewrite !scoreOf_points. apply tenths_ltb; apply points_range.
Qed.

End ScoreProperties.

(** * The cut to eight keeps the best candidates *)

Section RankingFacts.

Lemma sorted_app {A} (R : A -> A -> Prop) l1 l2 :
  StronglySorted R (l1 ++ l2) ->
  forall x y, In x l1 -> In y l2 -> R x y.
Proof.
  induction l1 as [|a l1 IH]; intros Hs x y Hx Hy; [contradiction|].
  cbn [app] in Hs. apply StronglySorted_inv in Hs. destruct Hs as [Hs Ha].
  destruct Hx as [->|Hx]; [|now apply IH].
  apply (proj1 (Forall_forall _ _) Ha). apply in_or_app. now right.
Qed.

Lemma accepted_finite text c :
  In c (accepted text) -> inRange (value c) /\ finiteCandidate c.
Proof.
  intros H. apply firsts_fresh in H. destruct H as [H _].
  apply candidatesOf_spec in H. destruct H as (tok & _ & H).
  apply candidateOf_spec in H. tauto.
Qed.

Lemma extractAmounts_accepted text :
  extractAmounts text = firstn 8 (sortBy compareFn (accepted text)).
Proof.
  unfold extractAmounts, accepted. cbv zeta. now rewrite collect_firsts.
Qed.

Lemma extracted_accepted text c :
  In c (extractAmounts text) -> In c (accepted text).
Proof.
  rewrite extractAmounts_accepted. intros H. apply firstn_incl in H.
  now apply (Permutation_in _ (Permutation_sym (sortBy_perm compareFn _))).
Qed.

Lemma accepted_sorted text :
  StronglySorted ranked (sortBy compareFn (accepted text)).
Proof.
  apply sortBy_sorted, Forall_forall. intros c H.
  now apply accepted_finite in H.
Qed.

Lemma kept_or_outranked text c :
  In c (accepted text) ->
  In c (extractAmounts text)
  \/ (length (extractAmounts text) = 8%nat
      /\ forall c', In c' (extractAmounts text) -> ranked c' c).
Proof.
  intros H. rewrite extractAmounts_accepted.
  set (s := sortBy compareFn (accepted text)).
  assert (Hs : In c s) by (apply (Permutation_in _ (sortBy_perm compareFn _)), H).
  pose proof (accepted_sorted text) as Hsorted. fold s in Hsorted.
  rewrite <- (firstn_skipn 8 s) in Hs, Hsorted.
  apply in_app_or in Hs. destruct Hs as [Hs|Hs]; [now left | right]. split.
  - apply firstn_length_le.
    destruct (Nat.le_gt_cases 8 (length s)) as [Hl|Hl]; [exact Hl|].
    rewrite skipn_all2 in Hs by lia. contradiction.
  - intros c' Hc'. now apply (sorted_app ranked _ _ Hsorted).
Qed.

Lemma ranked_refl c : finiteCandidate c -> ranked c c.
Proof.
  intros (s & v & Hs & Hv). right. split; [reflexivity|].
  rewrite Hv, leb_Fin. apply Z.leb_refl.
Qed.

Lemma ranked_trans a b c :
  finiteCandidate a -> finiteCandidate b -> finiteCandidate c ->
  ranked a b -> ranked b c -> ranked a c.
Proof.
  intros (sa & va & Hsa & Hva) (sb & vb & Hsb & Hvb) (sc & vc & Hsc & Hvc).
  rewrite (ranked_finite a b sa va sb vb), (ranked_finite b c sb vb sc vc),
    (ranked_finite a c sa va sc vc) by assumption.
  lia.
Qed.

Lemma head_outranks text top rest c :
  extractAmounts text = top :: rest -> In c (accepted text) -> ranked top c.
Proof.
  intros E H.
  assert (Htop : In top (extractAmounts text)) by (rewrite E; now left).
  destruct (kept_or_outranked text c H) as [Hc|[_ Hc]]; [|now apply Hc].
  pose proof (accepted_sorted text) as Hs.
  apply (firstn_sorted ranked 8) in Hs. rewrite <- extractAmounts_accepted in Hs.
  rewrite E in Hs, Hc. apply StronglySorted_inv in Hs. destruct Hs as [_ Hs].
  destruct Hc as [<-|Hc].
  - apply ranked_refl. now apply (accepted_finite text), extracted_accepted.
  - apply (proj1 (Forall_forall _ _) Hs c Hc).
Qed.

End RankingFacts.

Section RankingProperties.

(** X10.  Cutting the sorted list to eight loses no candidate that ranks
    above one that is kept: a candidate the loop collected is in the
    result, or the result has eight candidates and each of them ranks at
    or above it. *)
Theorem extractAmounts_keeps_best (text : jsstring) (c : candidate) :
  In c (accepted text) ->
  In c (extractAmounts text)
  \/ (length (extractAmounts text) = 8%nat
      /\ forall c', In c' (extractAmounts text) -> ranked c' c).
Proof. apply kept_or_outranked. Qed.

Lemma extractAmounts_keeps_best_witness :
  In (mkCandidate (ofZ 12) (lit "12.00") (ofDecimal 45 (-1)))
     (extractAmounts sampleText)
  \/ (length (extractAmounts sampleText) = 8%nat
      /\ forall c', In c' (extractAmounts sampleText) ->
                    ranked c' (mkCandidate (ofZ 12) (lit "12.00") (ofDecimal 45 (-1)))).
Proof.
  apply (extractAmounts_keeps_best sampleText).
  vm_compute. right. now left.
Defined.

End RankingProperties.

(** * The recognition endpoint *)

Section OrchestratorProperties.
Import Orchestrator.

(** X12.  In a 200 response of the recognition endpoint the candidates
    are those of [extractAmounts] on the raw text, at most eight; the
    best amount is absent exactly when there is no candidate, and
    otherwise it is the value of the first candidate, lies strictly
    between 0 and 100000, and belongs to a candidate that ranks at or
    above every candidate the text gives. *)
Theorem ocr_best_amount (file : option (list N))
    (sharp : list N -> awaited (list N))
    (runOcr : list N -> awaited (option recognition))
    (rate : number) (conf best : option number)
    (cands : list (number * jsstring)) (raw : jsstring) :
  ocrPayload (ocrHandler file sharp runOcr) = OcrResult rate conf best cands raw ->
  cands = map (fun a => (value a, normalized a)) (extractAmounts raw)
  /\ (length cands <= 8)%nat
  /\ (best = None <-> cands = [])
  /\ (forall v, best = Some v ->
        inRange v
        /\ exists top, hd_error (extractAmounts raw) = Some top
             /\ value top = v
             /\ hd_error cands = Some (v, normalized top)
             /\ forall c, In c (accepted raw) -> ranked top c).
Proof.
  unfold ocrHandler. destruct file as [b|]; [|discriminate].
  destruct (sharp b) as [pre|e]; [|discriminate].
  destruct (runOcr pre) as [result|e]; [|discriminate].
  cbv zeta. cbn [ocrPayload]. generalize RATE. intros r0 [= <- <- <- <- <-].
  set (raw := textOf result).
  split; [reflexivity|]. split.
  { rewrite length_map, extractAmounts_accepted. apply firstn_le_length. }
  destruct (extractAmounts raw) as [|top rest] eqn:E; cbn [bestOf map].
  - split; [tauto|]. intros v H. discriminate H.
  - split; [split; discriminate|]. intros v [= <-].
    assert (Htop : In top (accepted raw)).
    { apply extracted_accepted. rewrite E. now left. }
    split; [now apply (accepted_finite raw)|].
    exists top. repeat split; trivial.
    intros c Hc. now apply (head_outranks raw top rest).
Qed.

Lemma ocr_best_amount_witness : inRange (ofZ 12).
Proof.
  destruct (ocr_best_amount (Some [])
              (fun b => Returned b)
              (fun _ => Returned (Some (mkRecognition (Some sampleText) None)))
              RATE None (Some (ofZ 12))
              [(ofZ 12, lit "12.00"); (ofDecimal 349 (-2), lit "3.49")]
              sampleText) as (_ & _ & _ & H).
  - vm_compute. reflexivity.
  - exact (proj1 (H (ofZ 12) eq_refl)).
Defined.

End OrchestratorProperties.

(** * Further properties of the queue *)

Section QueueFacts.
Import Manager.
Local Open Scope nat_scope.

Lemma unfinished_cons l q :
  unfinished (l :: q)
  = (match status l with Done _ => 0 | _ => 1 end) + unfinished q.
Proof. unfold unfinished. cbn [filter]. now destruct (status l). Qed.

Lemma react_behind_running q :
  chain settledAfter BeforePending q ->
  unfinished (fst (react BeforePending q)) = unfinished q.
Proof.
  induction q as [|l q IH]; [reflexivity|].
  cbn [chain react]. intros [Hl Hq].
  destruct (status l) eqn:E; try contradiction.
  cbn [settledAs] in *. specialize (IH Hq).
  destruct (react BeforePending q) as [r' t']. cbn [fst] in *.
  rewrite !unfinished_cons. cbn [status]. now rewrite E, IH.
Qed.

Lemma react_first q :
  chain settledAfter BeforePending q ->
  unfinished (fst (react BeforeFulfilled q)) = unfinished q.
Proof.
  destruct q as [|l q]; [reflexivity|].
  cbn [chain react]. intros [Hl Hq].
  destruct (status l) eqn:E; try contradiction.
  cbn [settledAs] in *. pose proof (react_behind_running q Hq) as IH.
  destruct (react BeforePending q) as [r' t']. cbn [fst] in *.
  rewrite !unfinished_cons. cbn [status]. now rewrite E, IH.
Qed.

Lemma settle_then_react r q :
  chain settledAfter BeforeFulfilled q -> Forall unfailed q ->
  unfinished (fst (react BeforeFulfilled (fst (settleRunning (Fulfilled r) q))))
  = pred (unfinished q).
Proof.
  induction q as [|l q IH]; [reflexivity|].
  cbn [chain]. intros [Hl Hq] Hu. apply Forall_cons_iff in Hu.
  destruct Hu as [Hul Hu]. unfold unfailed in Hul.
  cbn [settleRunning]. rewrite unfinished_cons.
  destruct (status l) as [| |[v|e]|e] eqn:E; try contradiction.
  - (* the recognition in flight *)
    cbn [fst react status settledAs]. cbn [settledAs] in Hq.
    pose proof (react_first q Hq) as H.
    destruct (react BeforeFulfilled q) as [r' t']. cbn [fst] in *.
    rewrite unfinished_cons. cbn [status]. now rewrite H.
  - (* a recognition that has fulfilled *)
    cbn [settledAs] in Hq. specialize (IH Hq Hu).
    destruct (settleRunning (Fulfilled r) q) as [q1 t1]. cbn [fst] in *.
    cbn [react]. rewrite E. cbn [settledAs].
    destruct (react BeforeFulfilled q1) as [r' t']. cbn [fst] in *.
    rewrite unfinished_cons. cbn [status]. now rewrite IH.
Qed.

Lemma step_fulfilment s r :
  Inv s -> Forall unfailed (queue s) ->
  let s' := step s (RecognizeSettles (Fulfilled r)) in
  suspended s' = suspended s
  /\ unfinished (queue s') = pred (unfinished (queue s)).
Proof.
  intros [_ Hchain _ _] Hu. cbv zeta. unfold step.
  destruct (drain_fields (recognizeSettles (Fulfilled r) s))
    as (_ & -> & _ & _ & ->).
  pose proof (settle_then_react r (queue s) Hchain Hu) as H.
  unfold recognizeSettles.
  destruct (settleRunning (Fulfilled r) (queue s)) as [q t].
  cbn [suspended queue fst] in *. now split.
Qed.

Lemma fulfilments_fulfil rs : forallb fulfils (fulfilments rs) = true.
Proof. induction rs; [reflexivity | exact IHrs]. Qed.

Lemma fulfilments_submit n rs : submitted n (fulfilments rs) = [].
Proof. induction rs; [reflexivity | exact IHrs]. Qed.

Lemma run_fulfilments rs pre :
  forallb fulfils pre = true -> suspended (run pre) = [] ->
  let s := run (pre ++ fulfilments rs) in
  suspended s = []
  /\ unfinished (queue s) = unfinished (queue (run pre)) - length rs.
Proof.
  revert pre. induction rs as [|r rs IH]; intros pre Hf Hs; cbv zeta.
  - cbn [fulfilments map length]. rewrite app_nil_r. split; [exact Hs | lia].
  - cbn [fulfilments map length]. fold (fulfilments rs).
    change (pre ++ RecognizeSettles (Fulfilled r) :: fulfilments rs)
      with (pre ++ [RecognizeSettles (Fulfilled r)] ++ fulfilments rs).
    rewrite app_assoc.
    destruct (step_fulfilment (run pre) r (run_inv pre)
                (unf_links _ _ (run_unfailed pre Hf))) as [H1 H2].
    assert (E : run (pre ++ [RecognizeSettles (Fulfilled r)])
                = step (run pre) (RecognizeSettles (Fulfilled r)))
      by (rewrite run_app; reflexivity).
    rewrite <- E in H1, H2.
    destruct (IH (pre ++ [RecognizeSettles (Fulfilled r)])) as [H3 H4].
    + rewrite forallb_app, Hf. reflexivity.
    + now rewrite H1.
    + split; [exact H3|]. rewrite H4, H2. lia.
Qed.

Lemma initSettles_resumes s o :
  Inv s -> suspended (step s (InitSettles o)) = [].
Proof.
  intros [_ _ _ Hw]. unfold step.
  destruct (drain_fields (initSettles o s)) as (_ & -> & _).
  unfold initSettles.
  destruct (workerPromise s) as [[|[w|e]]|]; try tauto.
  destruct o as [w|e];
    [rewrite fold_resume_fulfilled | rewrite fold_resume_rejected];
    reflexivity.
Qed.

Lemma unfinished_length q : unfinished q <= length q.
Proof. apply filter_length_le. Qed.

Lemma finished_quiescent s :
  suspended s = [] -> unfinished (queue s) = 0 -> quiescent s = true.
Proof.
  intros Hs Hu. unfold quiescent. rewrite Hs. cbn [isEmptyList andb].
  apply forallb_forall. intros l Hl.
  induction (queue s) as [|x q IH]; [contradiction|].
  rewrite unfinished_cons in Hu. destruct Hl as [->|Hl].
  - destruct (status l); trivial; lia.
  - apply IH; [lia | exact Hl].
Qed.

Lemma NoDup_map_eq {A B} (f : A -> B) l a b :
  NoDup (map f l) -> In a l -> In b l -> f a = f b -> a = b.
Proof.
  induction l as [|x l IH]; [contradiction|].
  cbn [map]. intros Hn Ha Hb E. apply NoDup_cons_iff in Hn.
  destruct Hn as [Hx Hn].
  destruct Ha as [->|Ha], Hb as [->|Hb]; trivial.
  - elim Hx. rewrite E. now apply in_map.
  - elim Hx. rewrite <- E. now apply in_map.
  - now apply IH.
Qed.

(** A job that was started and whose promise is rejected has rejected
    itself. *)
Lemma rejected_link s id e :
  Inv s -> In id (map fst (recognitions (log s))) ->
  resultOf s id = Some (Settled (Rejected e)) ->
  exists l, In l (queue s) /\ owner l = id /\ status l = Done (Rejected e).
Proof.
  intros [Hlog _ _ Hw] Hstart Hres.
  rewrite <- recognitions_engineLog, Hlog in Hstart.
  apply started_links in Hstart. destruct Hstart as (l & Hl & Hid & Hns).
  destruct (workerPromise s) as [[|[w|e0]]|];
    [ destruct Hw as (Hq & _); now rewrite Hq in Hl
    |
    | destruct Hw as (_ & Hq & _); now rewrite Hq in Hl
    | destruct Hw as (Hq & _); now rewrite Hq in Hl ].
  destruct Hw as (_ & Hr & _ & Ho).
  unfold resultOf in Hres. rewrite Hr in Hres. cbn [find] in Hres.
  destruct (find (fun l' => owner l' =? id) (queue s)) as [l'|] eqn:Hf.
  - apply find_some in Hf. destruct Hf as [Hl' Hi]. apply Nat.eqb_eq in Hi.
    assert (l' = l).
    { apply (NoDup_map_eq owner (queue s)); trivial; [|congruence].
      rewrite Ho. apply seq_NoDup. }
    subst l'. exists l. repeat split; trivial.
    destruct (status l) as [| |o|e']; try discriminate Hres.
    + now injection Hres as ->.
    + now elim (Hns e').
  - destruct (existsb _ (suspended s)); discriminate Hres.
Qed.

End QueueFacts.

Section QueueProperties.
Import Manager.
Local Open Scope nat_scope.

(** X13.  The queue drains.  After any schedule without failures, once
    the initialisation has fulfilled and as many recognitions have
    fulfilled as jobs were submitted, nothing is pending: every
    submitted job has been recognized, in the order of submission, and
    the promise of each is fulfilled. *)
Theorem queue_drains (evs : list event) (w : worker) (rs : list recognized) :
  forallb fulfils evs = true ->
  length rs = length (submitted 0 evs) ->
  let s := run (evs ++ InitSettles (Fulfilled w) :: fulfilments rs) in
  quiescent s = true
  /\ recognitions (log s) = submitted 0 evs
  /\ completions (log s) = map fst (submitted 0 evs)
  /\ forall id, id < length (submitted 0 evs) ->
       exists v, resultOf s id = Some (Settled (Fulfilled v)).
Proof.
  intros Hf Hlen s.
  set (pre := evs ++ [InitSettles (Fulfilled w)]).
  assert (Es : s = run (pre ++ fulfilments rs)).
  { subst s pre. now rewrite <- app_assoc. }
  assert (Hpre : forallb fulfils pre = true).
  { subst pre. rewrite forallb_app, Hf. reflexivity. }
  assert (Hsub : submitted 0 pre = submitted 0 evs).
  { subst pre. rewrite submitted_app. cbn [submitted]. apply app_nil_r. }
  assert (Hs0 : suspended (run pre) = []).
  { subst pre. rewrite run_app. cbn [fold_left].
    apply initSettles_resumes, run_inv. }
  destruct (run_fulfilments rs pre Hpre Hs0) as [Hsusp Hun].
  rewrite <- Es in Hsusp, Hun.
  destruct (run_unfailed pre Hpre) as [He0 _ _ _ _].
  unfold entries in He0. rewrite Hs0, app_nil_r, Hsub in He0.
  assert (Hq0 : unfinished (queue (run pre)) <= length rs).
  { rewrite Hlen, <- He0, length_map. apply unfinished_length. }
  assert (Hall : forallb fulfils (pre ++ fulfilments rs) = true).
  { rewrite forallb_app, Hpre. apply fulfilments_fulfil. }
  assert (Hsubs : submitted 0 (pre ++ fulfilments rs) = submitted 0 evs).
  { rewrite submitted_app, fulfilments_submit, app_nil_r. exact Hsub. }
  assert (Hq : quiescent s = true).
  { apply finished_quiescent; [exact Hsusp | lia]. }
  pose proof (run_inv (pre ++ fulfilments rs)) as [Hlog _ _ _].
  destruct (run_unfailed _ Hall) as [He _ Hr Hl _].
  rewrite <- Es in Hlog, He, Hr, Hl. rewrite Hsubs in He.
  destruct (quiescent_fulfilled s Hq Hl) as [_ Hd].
  destruct (fulfilled_events (queue s) Hd) as [E1 E2].
  unfold entries in He. rewrite Hsusp, app_nil_r in He.
  rewrite <- recognitions_engineLog, <- completions_engineLog, Hlog.
  repeat split; trivial.
  - now rewrite E1.
  - rewrite E2, <- He, map_map. reflexivity.
  - intros id Hid. apply resultOf_fulfilled; trivial.
    replace (map owner (queue s)) with (map fst (map entry (queue s)))
      by (now rewrite map_map).
    rewrite He, submitted_ids. apply in_seq. lia.
Qed.

Lemma queue_drains_witness :
  quiescent (run ([Submit [1%N]; Submit [2%N]]
                  ++ InitSettles (Fulfilled 0)
                     :: fulfilments [lit "3.49"; lit "12,00"])) = true.
Proof.
  apply (queue_drains [Submit [1%N]; Submit [2%N]] 0 [lit "3.49"; lit "12,00"]);
    reflexivity.
Defined.

(** X14.  A rejection reaches every later job.  If a job was started and
    its promise is rejected with an error, then, whatever happens
    afterwards, each job submitted after it, before or after the
    rejection, is never started, and its promise is rejected with the
    same error. *)
Theorem rejection_reaches_later_jobs (evs evs' : list event) (e : failure)
    (id0 id : nat) :
  In id0 (map fst (recognitions (log (run evs)))) ->
  resultOf (run evs) id0 = Some (Settled (Rejected e)) ->
  let s := run (evs ++ evs') in
  id0 < id < calls s ->
  resultOf s id = Some (Settled (Rejected e))
  /\ ~ In id (map fst (recognitions (log s))).
Proof.
  intros Hstart Hres s Hid.
  destruct (rejected_link (run evs) id0 e (run_inv evs) Hstart Hres)
    as (l & Hl & Ho & Hst).
  apply (failure_skips_later_jobs evs evs' l e id Hl Hst).
  rewrite Ho. exact Hid.
Qed.

Lemma rejection_reaches_later_jobs_witness :
  resultOf (run ([Submit [1%N]; Submit [2%N]; InitSettles (Fulfilled 0);
                  RecognizeSettles (Rejected (lit "bad"))]
                 ++ [Submit [3%N]])) 2
  = Some (Settled (Rejected (lit "bad"))).
Proof.
  apply (rejection_reaches_later_jobs
           [Submit [1%N]; Submit [2%N]; InitSettles (Fulfilled 0);
            RecognizeSettles (Rejected (lit "bad"))]
           [Submit [3%N]] (lit "bad") 0 2).
  - cbn. now left.
  - reflexivity.
  - cbn. lia.
Defined.

End QueueProperties.

(** * Further properties of the conversion endpoint *)

Section ConvertFacts.
Local Open Scope Z_scope.

Lemma RATE_value : exists R, RATE = Fin R /\ grid < R /\ R < 2 * grid.
Proof.
  eexists. split; [vm_compute; reflexivity|].
  split; vm_compute; reflexivity.
Qed.

Lemma convert_status q :
  isFinite (amountOf q) = true ->
  fromOf q = lit "BGN" \/ fromOf q = lit "EUR" ->
  status (convert q) = 200%N.
Proof.
  intros Hf Hq. unfold convert. rewrite Hf. cbn [negb].
  destruct Hq as [-> | ->]; reflexivity.
Qed.

(** The body of a 200 response. *)
Lemma convert_ok q :
  status (convert q) = 200%N ->
  isFinite (amountOf q) = true
  /\ payload (convert q)
     = ConvertBody RATE (amountOf q) (fromOf q)
         (round2 (if strEq (fromOf q) (lit "EUR")
                  then mul (amountOf q) RATE else amountOf q))
         (round2 (if strEq (fromOf q) (lit "BGN")
                  then div (amountOf q) RATE else amountOf q)).
Proof.
  unfold convert.
  destruct (isFinite (amountOf q)); cbn [negb status];
    [|intros H; discriminate H].
  destruct (negb (strEq (fromOf q) (lit "BGN"))
            && negb (strEq (fromOf q) (lit "EUR")));
    cbn [status payload]; [intros H; discriminate H|].
  intros _. split; reflexivity.
Qed.

(** The body of a 200 response, with the rate as a number of grid units. *)
Lemma convert_body q r a f b e R :
  RATE = Fin R ->
  payload (convert q) = ConvertBody r a f b e ->
  isFinite a = true /\ a = amountOf q /\ f = fromOf q
  /\ (b = round2 a \/ b = round2 (mul a (Fin R)))
  /\ (e = round2 a \/ e = round2 (div a (Fin R)))
  /\ b = round2 (if strEq f (lit "EUR") then mul a (Fin R) else a)
  /\ e = round2 (if strEq f (lit "BGN") then div a (Fin R) else a).
Proof.
  intros HR. unfold convert. rewrite HR.
  destruct (isFinite (amountOf q)) eqn:Hf; cbn [negb]; [|intros H; discriminate H].
  destruct (strEq (fromOf q) (lit "BGN")) eqn:Hb,
           (strEq (fromOf q) (lit "EUR")) eqn:He;
    cbn [negb andb payload]; intros H; try discriminate H;
    injection H as _ <- <- <- <-; rewrite ?Hb, ?He; repeat split; auto.
Qed.

Lemma sent_finite x : isFinite x = true -> sent x = Some x.
Proof. unfold sent. now intros ->. Qed.

Lemma within_finite lo hi x :
  isFinite lo = true -> isFinite hi = true ->
  leb lo x = true -> leb x hi = true -> isFinite x = true.
Proof.
  destruct lo as [| |l], hi as [| |h]; try discriminate.
  intros _ _ H1 H2. destruct x as [|s|u]; [discriminate H1| |reflexivity].
  apply leb_above in H1. apply leb_below in H2. congruence.
Qed.

Lemma all_true (a b c d e f : bool) :
  a && b && c && d && e && f = true ->
  a = true /\ b = true /\ c = true /\ d = true /\ e = true /\ f = true.
Proof. destruct a, b, c, d, e, f; intros H; try discriminate H; tauto. Qed.

(** The conversions of [-1e300] and [1e300] and the hundredths nearest to
    them are finite. *)
Lemma conversion_bounds :
  let A := ofDecimal 1 300 in
  let L := mul (neg A) RATE in
  let U := mul A RATE in
  isFinite (round2 L) && isFinite (round2 U)
  && leb L (neg A) && leb A U
  && leb L (div (neg A) RATE) && leb (div A RATE) U = true.
Proof. vm_compute. reflexivity. Qed.

End ConvertFacts.

Section ConvertFurther.

(** X15.  The conversion keeps the order of amounts: of two requests in
    the same currency that are answered 200, the one with the smaller
    amount gets the smaller or equal [bgn] and [eur].  Rounding to the
    binary64 grid and to hundredths never inverts two amounts. *)
Theorem convert_keeps_order (q q' : query) (r r' a a' : number)
    (f f' : jsstring) (b b' e e' : number) :
  payload (convert q) = ConvertBody r a f b e ->
  payload (convert q') = ConvertBody r' a' f' b' e' ->
  f = f' -> leb a a' = true ->
  leb b b' = true /\ leb e e' = true.
Proof.
  intros H H' <- Hle.
  destruct RATE_value as (R & HR & HR1 & _).
  pose proof grid_pos as Hg.
  destruct (convert_body q r a f b e R HR H) as (_ & _ & _ & _ & _ & -> & ->).
  destruct (convert_body q' r' a' f b' e' R HR H') as (_ & _ & _ & _ & _ & -> & ->).
  split; apply round2_mono.
  - destruct (strEq f (lit "EUR")); [apply mul_mono; [lia | exact Hle] | exact Hle].
  - destruct (strEq f (lit "BGN")); [apply div_mono; [lia | exact Hle] | exact Hle].
Qed.

Lemma convert_keeps_order_witness :
  leb (round2 (div (ofDecimal 349 (-2)) RATE)) (round2 (div (ofZ 12) RATE)) = true.
Proof.
  apply (convert_keeps_order
           (mkQuery (Some (lit "3.49")) None) (mkQuery (Some (lit "12")) (Some (lit "bgn")))
           RATE RATE (ofDecimal 349 (-2)) (ofZ 12) (lit "BGN") (lit "BGN")
           (round2 (ofDecimal 349 (-2))) (round2 (ofZ 12))
           (round2 (div (ofDecimal 349 (-2)) RATE)) (round2 (div (ofZ 12) RATE)));
    vm_compute; reflexivity.
Defined.

(** X16.  What a 200 response of the conversion endpoint sends.
    [res.json] writes a number that is not finite as [null].  The rate
    and the amount are always sent as numbers, and so are [bgn] and [eur]
    when the amount lies between [-1e300] and [1e300]; for greater
    amounts the rounding can overflow, as [convert_overflow] shows. *)
Theorem convert_sends_numbers (q : query) :
  status (convert q) = 200%N ->
  exists a f b e,
    payload (convert q) = ConvertBody RATE a f b e
    /\ sent RATE = Some RATE /\ sent a = Some a
    /\ (leb (neg (ofDecimal 1 300)) a = true ->
        leb a (ofDecimal 1 300) = true ->
        sent b = Some b /\ sent e = Some e).
Proof.
  intros H. destruct (convert_ok q H) as [Hf Hp].
  do 4 eexists. split; [exact Hp|].
  pose proof conversion_bounds as HB. cbv zeta in HB.
  destruct RATE_value as (R & HR & HR1 & _). pose proof grid_pos as Hg.
  rewrite HR in *.
  split; [reflexivity|]. split; [now apply sent_finite|].
  set (A := ofDecimal 1 300) in *. clearbody A.
  set (a := amountOf q) in *. clearbody a.
  intros Hlo Hhi.
  destruct (all_true _ _ _ _ _ _ HB) as (B1 & B2 & B3 & B4 & B5 & B6).
  clear HB.
  assert (Hin : forall x, leb (mul (neg A) (Fin R)) x = true ->
                          leb x (mul A (Fin R)) = true ->
                          sent (round2 x) = Some (round2 x)).
  { intros x H1 H2. apply sent_finite.
    apply (within_finite (round2 (mul (neg A) (Fin R)))
                         (round2 (mul A (Fin R)))); trivial;
      now apply round2_mono. }
  assert (HR0 : (0 < R)%Z) by lia.
  split; apply Hin.
  - destruct (strEq (fromOf q) (lit "EUR")).
    + exact (mul_mono _ _ R HR0 Hlo).
    + exact (leb_trans _ _ _ B3 Hlo).
  - destruct (strEq (fromOf q) (lit "EUR")).
    + exact (mul_mono _ _ R HR0 Hhi).
    + exact (leb_trans _ _ _ Hhi B4).
  - destruct (strEq (fromOf q) (lit "BGN")).
    + exact (leb_trans _ _ _ B5 (div_mono _ _ R HR0 Hlo)).
    + exact (leb_trans _ _ _ B3 Hlo).
  - destruct (strEq (fromOf q) (lit "BGN")).
    + exact (leb_trans _ _ _ (div_mono _ _ R HR0 Hhi) B6).
    + exact (leb_trans _ _ _ Hhi B4).
Qed.

Lemma convert_sends_numbers_witness :
  exists a f b e,
    payload (convert (mkQuery (Some (lit "10")) (Some (lit "EUR"))))
    = ConvertBody RATE a f b e
    /\ sent RATE = Some RATE /\ sent a = Some a
    /\ (leb (neg (ofDecimal 1 300)) a = true ->
        leb a (ofDecimal 1 300) = true ->
        sent b = Some b /\ sent e = Some e).
Proof.
  apply (convert_sends_numbers (mkQuery (Some (lit "10")) (Some (lit "EUR")))).
  vm_compute. reflexivity.
Defined.

(** An amount of [1e308] euro is answered 200 with [null] for [bgn] and
    for [eur]: both roundings overflow. *)
Lemma convert_overflow :
  let r := convert (mkQuery (Some (lit "1e308")) (Some (lit "EUR"))) in
  status r = 200%N
  /\ exists a f b e,
       payload r = ConvertBody RATE a f b e
       /\ sent a = Some a /\ sent b = None /\ sent e = None.
Proof.
  cbv zeta. split; [vm_compute; reflexivity|].
  do 4 eexists. split; [vm_compute; reflexivity|].
  repeat split.
Qed.

End ConvertFurther.

(** * The value of a candidate *)

Section ValueFacts.
Local Open Scope Z_scope.

Lemma numeric_cases c :
  isNumChar c = true ->
  ((48 <= c)%N /\ (c <= 57)%N) \/ c = 46%N \/ c = 44%N.
Proof.
  unfold isNumChar, isDigit, ch_dot, ch_comma. intros H.
  repeat rewrite orb_true_iff in H. rewrite andb_true_iff in H.
  repeat rewrite N.leb_le in H. repeat rewrite N.eqb_eq in H. tauto.
Qed.

Lemma numeric_not_sign c : isNumChar c = true -> isSign c = false.
Proof.
  intros H. apply numeric_cases in H. unfold isSign.
  apply orb_false_iff. split; apply N.eqb_neq; lia.
Qed.

Lemma numeric_not_expMark c : isNumChar c = true -> isExpMark c = false.
Proof.
  intros H. apply numeric_cases in H. unfold isExpMark.
  apply orb_false_iff. split; apply N.eqb_neq; lia.
Qed.

Lemma numeric_skipn n t : numeric t -> numeric (skipn n t).
Proof.
  revert t. induction n as [|n IH]; intros [|c r] H; cbn [skipn]; trivial.
  apply IH. now apply Forall_inv_tail in H.
Qed.

Lemma signOf_numeric t : numeric t -> signOf t = (false, t).
Proof.
  destruct t as [|c r]; [reflexivity|]. intros H. apply Forall_inv in H.
  unfold signOf. now rewrite (numeric_not_sign c H).
Qed.

Lemma exponentOf_numeric t : numeric t -> exponentOf t = (0, t).
Proof.
  destruct t as [|c r]; [reflexivity|]. intros H. apply Forall_inv in H.
  unfold exponentOf. now rewrite (numeric_not_expMark c H).
Qed.

Lemma no_Infinity t : numeric t -> startsWith (lit "Infinity") t = false.
Proof.
  destruct t as [|c r]; [reflexivity|]. intros H. apply Forall_inv in H.
  apply numeric_cases in H.
  change (lit "Infinity") with (73%N :: lit "nfinity"). cbn [startsWith].
  replace (73 =? c)%N with false; [reflexivity|].
  symmetry. apply N.eqb_neq. lia.
Qed.

Lemma dropWhile_numeric t : numeric t -> dropWhile isWhiteSpace t = t.
Proof.
  destruct t as [|c r]; [reflexivity|]. intros H. apply Forall_inv in H.
  cbn [dropWhile]. now rewrite (numeric_not_space c H).
Qed.

(** On a string of digits and separators [parseFloat] reads the digits
    before the first separator and, when that is a dot, the digits after
    it: there is no sign, no exponent and no [Infinity] to read. *)
Lemma parseFloat_numeric t :
  numeric t ->
  parseFloat t =
  if isEmpty (integerPart t) && isEmpty (fractionPart t) then NaN
  else ofDecimal (digitsValue (integerPart t ++ fractionPart t))
                 (- Z.of_nat (length (fractionPart t))).
Proof.
  intros H. unfold parseFloat. rewrite (dropWhile_numeric t H).
  unfold decimalPrefix. rewrite (signOf_numeric t H), (no_Infinity t H).
  unfold fractionPart, integerPart.
  set (ip := takeWhile isDigit t).
  assert (H2 : numeric (skipn (length ip) t)) by now apply numeric_skipn.
  destruct (skipn (length ip) t) as [|c r] eqn:E.
  - rewrite andb_true_r. destruct (isEmpty ip); [reflexivity|].
    cbn [exponentOf]. now rewrite Z.sub_0_l.
  - destruct (c =? ch_dot)%N eqn:Hc.
    + set (fp := takeWhile isDigit r).
      assert (H3 : numeric (skipn (length fp) r)).
      { apply numeric_skipn. now apply Forall_inv_tail in H2. }
      destruct (isEmpty ip && isEmpty fp) eqn:Hb.
      * apply andb_true_iff in Hb. destruct Hb as [-> Hb].
        destruct fp; [reflexivity | discriminate Hb].
      * rewrite Hb. rewrite (exponentOf_numeric _ H3).
        now rewrite Z.sub_0_l.
    + rewrite andb_true_r. destruct (isEmpty ip); [reflexivity|].
      rewrite (exponentOf_numeric _ H2). now rewrite Z.sub_0_l.
Qed.

End ValueFacts.

Section ValueProperties.
Local Open Scope Z_scope.

(** X17.  The value of a candidate is the decimal number that the digits
    of its normalized string denote up to the first separator, and
    through the digits after that separator when it is a dot; the rest
    of the string, a second dot or a comma and what follows, has no part
    in the value.  At least one digit is read. *)
Theorem candidate_value (text : jsstring) (c : candidate) :
  In c (extractAmounts text) ->
  let n := normalized c in
  value c = ofDecimal (digitsValue (integerPart n ++ fractionPart n))
                      (- Z.of_nat (length (fractionPart n)))
  /\ integerPart n ++ fractionPart n <> [].
Proof.
  intros H. cbv zeta. apply extracted_accepted in H.
  pose proof (accepted_finite text c H) as [_ (s & v & _ & Hv)].
  apply firsts_fresh in H. destruct H as [H _].
  apply candidatesOf_spec in H. destruct H as (tok & _ & H).
  apply candidateOf_spec in H. destruct H as (Hn & _ & Hval & _).
  rewrite Hval in Hv |- *.
  assert (Hnum : numeric (normalized c))
    by (rewrite Hn; apply normalize_numeric).
  rewrite (parseFloat_numeric _ Hnum) in Hv |- *.
  destruct (integerPart (normalized c)) as [|d ip];
    [destruct (fractionPart (normalized c)) as [|d fp]|];
    cbn [isEmpty andb app] in *; try discriminate Hv;
    (split; [reflexivity | discriminate]).
Qed.

Lemma candidate_value_witness :
  let c := hd (mkCandidate NaN [] NaN) (extractAmounts (lit "3,49")) in
  let n := normalized c in
  value c = ofDecimal (digitsValue (integerPart n ++ fractionPart n))
                      (- Z.of_nat (length (fractionPart n)))
  /\ integerPart n ++ fractionPart n <> [].
Proof.
  apply (candidate_value (lit "3,49")).
  apply hd_In. vm_compute. apply le_n.
Defined.

End ValueProperties.

(** * The cart of the client *)

Section ClientFacts.
Import Client.
Local Open Scope Z_scope.



Lemma nonneg_not_NaN x : nonneg x -> x <> NaN.
Proof. intros H E. subst x. discriminate H. Qed.


















End ClientFacts.

Section ClientProperties.
Import Client.
Local Open Scope Z_scope.









End ClientProperties.
